(** * The GObject wrapper bridge of gjs: lifecycle counters, toggle
      references, disassociation, lazy resolution and accessors.

    A shallow embedding of [gjs/mem.cpp]: the memory counters with their
    report, and the wrapper code for GObject instances and prototypes
    ([ObjectInstance], [ObjectPrototype], [ObjectBase]).  Native objects,
    wrappers, closures and types are named by addresses ([positive]); a
    null pointer is [None].  Process-wide state (the toggle queue, the
    qdata tables, the registry of wrapped objects, the counters) lives in
    one [World]; calls that leave the bridge (into GObject, the signal
    system, the value marshaller, the log) are recorded in the world's
    [trace], in order.

    GObject calls back into the bridge (the dispose notification, the
    toggle notification, the invalidation notifier of a closure).  The
    notifier of a closure runs inside [g_closure_invalidate] and is
    modelled there; the two notifications are entry points of their own,
    [gobj_dispose_notify] and [wrapped_gobj_toggle_notify]. *)

From Stdlib Require Import ZArith List String Ascii Bool Lia.
From stdpp Require Import base option list strings gmap.
From Equations Require Import Equations.
Import ListNotations.

Local Open Scope Z_scope.
Local Open Scope string_scope.
Local Open Scope list_scope.

(** ** Fatal termination

    [g_error] and a failed [g_assert] abort the process; calling a method
    through a null pointer is undefined.  A computation that can do any
    of these returns a [result]. *)

Inductive fatal : Type :=
| GError (msg : string)
| AssertFailed (what : string)
| NullDeref
| StackOverflow.

Inductive result (A : Type) : Type :=
| Done (a : A)
| Abort (f : fatal).
Arguments Done {A} a.
Arguments Abort {A} f.

#[export] Instance result_ret : MRet result := fun A a => Done a.

#[export] Instance result_bind : MBind result := fun A B k m =>
  match m with
  | Done a => k a
  | Abort f => Abort f
  end.

Definition g_assert (what : string) (b : bool) : result unit :=
  if b then Done tt else Abort (AssertFailed what).

Definition is_fatal {A} (r : result A) : bool :=
  match r with Done _ => false | Abort _ => true end.

(** ** Machine integers *)

Definition INT_MIN : Z := - 2 ^ 31.
Definition INT_MAX : Z := 2 ^ 31 - 1.
Definition UINT_MOD : Z := 2 ^ 32.

Definition in_int (z : Z) : Prop := INT_MIN <= z <= INT_MAX.

(** Two's-complement wrap-around of a C [int]. *)
Definition wrap_int (z : Z) : Z := (z + 2 ^ 31) mod 2 ^ 32 - 2 ^ 31.

Definition int_add (a b : Z) : Z := wrap_int (a + b).

(** Arithmetic of [unsigned]. *)
Definition uint_sub (a b : Z) : Z := (a - b) mod UINT_MOD.

(** ** Lifecycle counters ([gjs/mem.cpp]) *)

Module Mem.

(** One constructor per [GJS_DEFINE_COUNTER]. *)
Inductive Counter : Type :=
| everything
| boxed_instance | boxed_prototype | closure | function
| fundamental_instance | fundamental_prototype
| gerror_instance | gerror_prototype
| importer | interface | module | ns
| object_instance | object_prototype
| param | repo
| union_instance | union_prototype.

#[export] Instance Counter_eq_dec : EqDecision Counter.
Proof. solve_decision. Defined.

(** The [#name] string the macro stores with each counter. *)
Definition counter_name (c : Counter) : string :=
  match c with
  | everything => "everything"
  | boxed_instance => "boxed_instance"
  | boxed_prototype => "boxed_prototype"
  | closure => "closure"
  | function => "function"
  | fundamental_instance => "fundamental_instance"
  | fundamental_prototype => "fundamental_prototype"
  | gerror_instance => "gerror_instance"
  | gerror_prototype => "gerror_prototype"
  | importer => "importer"
  | interface => "interface"
  | module => "module"
  | ns => "ns"
  | object_instance => "object_instance"
  | object_prototype => "object_prototype"
  | param => "param"
  | repo => "repo"
  | union_instance => "union_instance"
  | union_prototype => "union_prototype"
  end.

(** The values of all counters: the [value] field of each
    [GjsMemCounter] global. *)
Definition Counters : Type := Counter -> Z.

(** The static array [counters[]]: every category, not [everything]. *)
Definition counters : list Counter :=
  [ boxed_instance; boxed_prototype; closure; function;
    fundamental_instance; fundamental_prototype;
    gerror_instance; gerror_prototype;
    importer; interface; module; ns;
    object_instance; object_prototype;
    param; repo;
    union_instance; union_prototype ].

Definition set_counter (v : Counters) (c : Counter) (z : Z) : Counters :=
  fun c' => if decide (c' = c) then z else v c'.

(** Modelled from the spec: the macro [GJS_INC_COUNTER] of
    [gjs/mem-private.h], which is not among the sources.  Every category
    increment is accompanied by an increment of [everything]. *)
Definition GJS_INC_COUNTER (c : Counter) (v : Counters) : Counters :=
  let v1 := set_counter v everything (int_add (v everything) 1) in
  set_counter v1 c (int_add (v1 c) 1).

(** Modelled from the spec: the macro [GJS_DEC_COUNTER] of
    [gjs/mem-private.h]; [everything] is decremented alongside. *)
Definition GJS_DEC_COUNTER (c : Counter) (v : Counters) : Counters :=
  let v1 := set_counter v everything (int_add (v everything) (-1)) in
  set_counter v1 c (int_add (v1 c) (-1)).

(** Modelled from the spec: the macro [GJS_GET_COUNTER] of
    [gjs/mem-private.h], which reads a counter. *)
Definition GJS_GET_COUNTER (c : Counter) (v : Counters) : Z := v c.

(** What [gjs_debug(GJS_DEBUG_MEMORY, ...)] is called with. *)
Inductive report_line : Type :=
| MemoryReport (where_ : string)
| CountsDontAddUp
| CurrentlyAlive (n : Z)
| CounterLine (name : string) (value : Z).

(** The first [for] loop: [total_objects += counters[i]->value]. *)
Fixpoint sum_counters (v : Counters) (cs : list Counter) (total_objects : Z) : Z :=
  match cs with
  | [] => total_objects
  | c :: cs' => sum_counters v cs' (int_add total_objects (v c))
  end.

(** [gjs_memory_report]: the lines logged, and how the call ends. *)
Definition gjs_memory_report (v : Counters) (where_ : string) (die_if_leaks : bool)
  : list report_line * result unit :=
  let log0 := [MemoryReport where_] in
  let total_objects := sum_counters v counters 0 in
  let log1 :=
    if decide (total_objects <> GJS_GET_COUNTER everything v)
    then log0 ++ [CountsDontAddUp] else log0 in
  let log2 := log1 ++ [CurrentlyAlive (GJS_GET_COUNTER everything v)] in
  if decide (GJS_GET_COUNTER everything v > 0) then
    let log3 := log2 ++ map (fun c => CounterLine (counter_name c) (v c)) counters in
    if die_if_leaks
    then (log3, Abort (GError (where_ +:+ ": JavaScript objects were leaked.")))
    else (log3, Done tt)
  else (log2, Done tt).

(** The sum of the category counters as an integer, and the condition
    under which the loop's [int] additions stay in range. *)
Definition category_sum (v : Counters) : Z :=
  fold_right (fun c acc => v c + acc) 0 counters.

Fixpoint no_overflow (v : Counters) (cs : list Counter) (total : Z) : Prop :=
  match cs with
  | [] => True
  | c :: cs' => in_int (total + v c) /\ no_overflow v cs' (total + v c)
  end.

End Mem.

(** ** Addresses *)

Definition GObjectPtr : Type := positive.   (* GObject*        *)
Definition JSObjectPtr : Type := positive.  (* JSObject*       *)
Definition GClosurePtr : Type := positive.  (* GClosure*       *)
Definition InstancePtr : Type := positive.  (* ObjectInstance* *)
Definition GType : Type := positive.        (* a valid GType; G_TYPE_INVALID is [None] *)

(** ** The toggle-reference queue *)

Module ToggleQueue.

(** Modelled from the spec: the class [ToggleQueue] of [gi/toggle.cpp]
    and [gi/toggle.h], which are not among the sources.  A direction is
    UP (the count went from 1 to 2, root the wrapper) or DOWN (from 2 to
    1, unroot it).  The mutex of the class is left out: the calls are
    atomic here. *)
Inductive Direction : Type := DOWN | UP.

#[export] Instance Direction_eq_dec : EqDecision Direction.
Proof. solve_decision. Defined.

Record Item : Type := mkItem { gobj : GObjectPtr; direction : Direction }.

Record t : Type := mk { q : list Item; m_shutdown : bool }.

Definition item_is (o : GObjectPtr) (d : Direction) (i : Item) : bool :=
  bool_decide (gobj i = o) && bool_decide (direction i = d).

(** Modelled from the spec: [is_queued(object) -> (down_queued,
    up_queued)] inspects without removing. *)
Definition is_queued (tq : t) (o : GObjectPtr) : bool * bool :=
  (existsb (item_is o DOWN) (q tq), existsb (item_is o UP) (q tq)).

(** Modelled from the spec: [cancel(object) -> (had_down, had_up)]
    removes any pending entries for the object. *)
Definition cancel (tq : t) (o : GObjectPtr) : (bool * bool) * t :=
  (is_queued tq o,
   mk (filter (fun i => gobj i <> o) (q tq)) (m_shutdown tq)).

(** Modelled from the spec: [enqueue(object, direction)] appends a
    pending transition; once the queue is shut down no further entry is
    accepted. *)
Definition enqueue (tq : t) (o : GObjectPtr) (d : Direction) : t :=
  if m_shutdown tq then tq
  else mk (q tq ++ [mkItem o d]) (m_shutdown tq).

(** Modelled from the spec: [handle_toggle] takes one pending entry off
    the queue for the handler; [None] when the queue is empty. *)
Definition handle_toggle (tq : t) : option (Item * t) :=
  match q tq with
  | [] => None
  | i :: rest => Some (i, mk rest (m_shutdown tq))
  end.

(** Modelled from the spec: [shutdown()] marks the queue closed. *)
Definition shutdown (tq : t) : t := mk (q tq) true.

End ToggleQueue.

(** ** The wrapper reference of an instance *)

(** Modelled from the spec: [GjsMaybeOwned<JSObject*>] of
    [gjs/jsapi-util-root.h], which is not among the sources.  The
    reference is either weak (unrooted, the default) or a GC root
    (rooted). *)
Record GjsMaybeOwned : Type := mkMaybeOwned {
  m_thing : option JSObjectPtr;
  m_rooted : bool
}.

(** Modelled from the spec: [GjsMaybeOwned::reset], which clears the
    reference and leaves it unrooted. *)
Definition maybe_owned_reset (m : GjsMaybeOwned) : GjsMaybeOwned :=
  mkMaybeOwned None false.

(** ** Instances and the native heap *)

Record GjsListLink : Type := mkLink {
  m_prev : option InstancePtr;
  m_next : option InstancePtr
}.

Record ObjectInstance : Type := mkInstance {
  m_gtype : GType;
  m_ptr : option GObjectPtr;
  m_wrapper : GjsMaybeOwned;
  m_instance_link : GjsListLink;
  m_closures : list GClosurePtr;      (* std::forward_list<GClosure*> *)
  m_gobj_disposed : bool;
  m_wrapper_finalized : bool;
  m_uses_toggle_ref : bool
}.

Definition with_ptr (p : option GObjectPtr) (i : ObjectInstance) : ObjectInstance :=
  mkInstance (m_gtype i) p (m_wrapper i) (m_instance_link i) (m_closures i)
             (m_gobj_disposed i) (m_wrapper_finalized i) (m_uses_toggle_ref i).
Definition with_wrapper (m : GjsMaybeOwned) (i : ObjectInstance) : ObjectInstance :=
  mkInstance (m_gtype i) (m_ptr i) m (m_instance_link i) (m_closures i)
             (m_gobj_disposed i) (m_wrapper_finalized i) (m_uses_toggle_ref i).
Definition with_link (l : GjsListLink) (i : ObjectInstance) : ObjectInstance :=
  mkInstance (m_gtype i) (m_ptr i) (m_wrapper i) l (m_closures i)
             (m_gobj_disposed i) (m_wrapper_finalized i) (m_uses_toggle_ref i).
Definition with_closures (c : list GClosurePtr) (i : ObjectInstance) : ObjectInstance :=
  mkInstance (m_gtype i) (m_ptr i) (m_wrapper i) (m_instance_link i) c
             (m_gobj_disposed i) (m_wrapper_finalized i) (m_uses_toggle_ref i).
Definition with_gobj_disposed (b : bool) (i : ObjectInstance) : ObjectInstance :=
  mkInstance (m_gtype i) (m_ptr i) (m_wrapper i) (m_instance_link i) (m_closures i)
             b (m_wrapper_finalized i) (m_uses_toggle_ref i).
Definition with_wrapper_finalized (b : bool) (i : ObjectInstance) : ObjectInstance :=
  mkInstance (m_gtype i) (m_ptr i) (m_wrapper i) (m_instance_link i) (m_closures i)
             (m_gobj_disposed i) b (m_uses_toggle_ref i).
Definition with_uses_toggle_ref (b : bool) (i : ObjectInstance) : ObjectInstance :=
  mkInstance (m_gtype i) (m_ptr i) (m_wrapper i) (m_instance_link i) (m_closures i)
             (m_gobj_disposed i) (m_wrapper_finalized i) b.

(** A native value ([GValue]) and a scripting value ([JS::Value]). *)
Inductive GValue : Type :=
| GVInt (z : Z)
| GVString (s : string)
| GVBoolean (b : bool)
| GVObject (o : option GObjectPtr).

Inductive JSValue : Type :=
| JSUndefined
| JSNull
| JSNumber (z : Z)
| JSString (s : string)
| JSBoolean (b : bool)
| JSObject (o : JSObjectPtr).

(** The part of a native object the bridge looks at. *)
Record GObject : Type := mkGObject {
  ref_count : Z;
  g_type_instance : GType;
  g_properties : gmap string GValue;
  g_fields : gmap string GValue
}.

(** The errors reported to the scripting caller. *)
Inductive JSError : Type :=
| ReadOnlyField (gtype : GType) (name : string)
| NonexistentField (gtype : GType) (name : string)
| UnsupportedFieldType (name : string)
| FieldGetFailed (name : string)
| NoSuchSignal (name : string)
| WrongArgumentCount (signal : string) (required got : Z)
| BadCallArgs (function_name : string)
| ConversionFailed
| OutOfMemory
| OtherError (msg : string).

(** Calls that leave the bridge. *)
Inductive event : Type :=
| Call_g_object_ref (o : GObjectPtr)
| Call_g_object_ref_sink (o : GObjectPtr)
| Call_g_object_unref (o : option GObjectPtr)
| Call_g_object_add_toggle_ref (o : option GObjectPtr)
| Call_g_object_remove_toggle_ref (o : option GObjectPtr)
| Call_g_object_weak_ref (o : GObjectPtr) (data : InstancePtr)
| Call_g_object_weak_unref (o : option GObjectPtr) (data : InstancePtr)
| Call_g_closure_invalidate (c : GClosurePtr)
| Call_g_object_get_property (o : option GObjectPtr) (name : string)
| Call_g_object_set_property (o : option GObjectPtr) (name : string) (v : GValue)
| Call_g_field_info_get_field (o : option GObjectPtr) (name : string)
| Call_gjs_value_to_g_value (v : JSValue)
| Call_gjs_value_from_g_value (v : GValue)
| Call_g_signal_emitv (o : option GObjectPtr) (signal_id : positive) (args : list GValue)
| Call_schedule_gc
| Call_gjs_throw (e : JSError)
| Call_JS_AddWeakPointerCompartmentCallback
| Log_g_critical (msg : string)
| Log_g_message (msg : string).

(** ** Introspection metadata

    What the introspection database answers about a type, as the
    resolver reads it: ordered lists of members with their names, flags
    and type tags. *)

Inductive GITypeTag : Type :=
| GI_TYPE_TAG_VOID | GI_TYPE_TAG_BOOLEAN
| GI_TYPE_TAG_INT8 | GI_TYPE_TAG_UINT8 | GI_TYPE_TAG_INT16 | GI_TYPE_TAG_UINT16
| GI_TYPE_TAG_INT32 | GI_TYPE_TAG_UINT32 | GI_TYPE_TAG_INT64 | GI_TYPE_TAG_UINT64
| GI_TYPE_TAG_FLOAT | GI_TYPE_TAG_DOUBLE | GI_TYPE_TAG_GTYPE
| GI_TYPE_TAG_UTF8 | GI_TYPE_TAG_FILENAME
| GI_TYPE_TAG_ARRAY | GI_TYPE_TAG_INTERFACE
| GI_TYPE_TAG_GLIST | GI_TYPE_TAG_GSLIST | GI_TYPE_TAG_GHASH
| GI_TYPE_TAG_ERROR | GI_TYPE_TAG_UNICHAR.

#[export] Instance GITypeTag_eq_dec : EqDecision GITypeTag.
Proof. solve_decision. Defined.

(** Flag bits, as the GLib headers give them. *)
Definition GI_FIELD_IS_READABLE : Z := 1.
Definition GI_FIELD_IS_WRITABLE : Z := 2.
Definition GI_FUNCTION_IS_METHOD : Z := 1.
Definition G_PARAM_READABLE : Z := 1.
Definition G_PARAM_WRITABLE : Z := 2.

(** [flags & bit] as a C condition. *)
Definition has_flag (flags bit : Z) : bool := negb (Z.eqb (Z.land flags bit) 0).

Record GIFieldInfo : Type := mkField {
  field_name : string;
  field_flags : Z;
  field_type_tag : GITypeTag
}.

Record GIVFuncInfo : Type := mkVFunc {
  vfunc_name : string;
  vfunc_container : string          (* the type or interface that declares it *)
}.

Record GIFunctionInfo : Type := mkFunction {
  function_name : string;
  function_flags : Z
}.

Record GIPropertyInfo : Type := mkProperty { property_name : string }.

Record GIInterfaceInfo : Type := mkInterface {
  iface_name : string;
  iface_methods : list GIFunctionInfo;
  iface_properties : list GIPropertyInfo;
  iface_vfuncs : list GIVFuncInfo
}.

#[warnings="-register-all"]
Inductive GIObjectInfo : Type :=
  mkObjectInfo (name : string) (gtype : GType)
    (fields : list GIFieldInfo) (properties : list GIPropertyInfo)
    (methods : list GIFunctionInfo) (vfuncs : list GIVFuncInfo)
    (interfaces : list GIInterfaceInfo) (parent : option GIObjectInfo).

Definition info_name (i : GIObjectInfo) : string :=
  match i with mkObjectInfo n _ _ _ _ _ _ _ => n end.
Definition info_gtype (i : GIObjectInfo) : GType :=
  match i with mkObjectInfo _ t _ _ _ _ _ _ => t end.
Definition info_fields (i : GIObjectInfo) : list GIFieldInfo :=
  match i with mkObjectInfo _ _ f _ _ _ _ _ => f end.
Definition info_properties (i : GIObjectInfo) : list GIPropertyInfo :=
  match i with mkObjectInfo _ _ _ p _ _ _ _ => p end.
Definition info_methods (i : GIObjectInfo) : list GIFunctionInfo :=
  match i with mkObjectInfo _ _ _ _ m _ _ _ => m end.
Definition info_vfuncs (i : GIObjectInfo) : list GIVFuncInfo :=
  match i with mkObjectInfo _ _ _ _ _ v _ _ => v end.
Definition info_interfaces (i : GIObjectInfo) : list GIInterfaceInfo :=
  match i with mkObjectInfo _ _ _ _ _ _ x _ => x end.
Definition g_object_info_get_parent (i : GIObjectInfo) : option GIObjectInfo :=
  match i with mkObjectInfo _ _ _ _ _ _ _ p => p end.

(** A [GParamSpec]; [pspec_custom_property] is the qdata that
    [custom_property_quark] names. *)
Record GParamSpec : Type := mkParamSpec {
  pspec_name : string;
  pspec_flags : Z;
  pspec_value_type : GType;
  pspec_custom_property : bool
}.

Record GSignalQuery : Type := mkSignalQuery {
  param_types : list (GType * bool);              (* type, G_SIGNAL_TYPE_STATIC_SCOPE *)
  return_type : option GType                      (* G_TYPE_NONE is [None] *)
}.

(** [n_params] is the length of the [param_types] array. *)
Definition n_params (q : GSignalQuery) : Z := Z.of_nat (length (param_types q)).

(** The GType system, the repository and the signal system: external
    and read-only. *)
Record TypeSystem : Type := mkTypeSystem {
  g_type_parent : GType -> option GType;
  g_type_interfaces : GType -> list GType;
  g_irepository_find_by_gtype : GType -> option GIInterfaceInfo;
  g_object_class_find_property : GType -> string -> option GParamSpec;
  (* [None]: the call set its GError *)
  g_vfunc_info_get_address : GIVFuncInfo -> option GType -> option Z;
  g_signal_parse_name : string -> GType -> option (positive * Z);
  g_signal_query : positive -> GSignalQuery;
  (* what the handlers run by g_signal_emitv leave in the return value *)
  g_signal_emitv_return : positive -> list GValue -> GValue;
  (* gjs_hyphen_from_camel of the string utilities, not among the sources *)
  gjs_hyphen_from_camel : string -> string
}.

(** The value marshaller: external; [None] is a failed conversion. *)
Record Marshaller : Type := mkMarshaller {
  gjs_value_to_g_value : JSValue -> GType -> option GValue;
  gjs_value_to_g_value_no_copy : JSValue -> GType -> option GValue;
  gjs_value_from_g_value : GValue -> option JSValue;
  gjs_value_from_g_argument : GITypeTag -> GValue -> option JSValue
}.

(** ** Prototypes and the properties defined on their objects *)

Record ObjectPrototype : Type := mkPrototype {
  p_gtype : GType;
  m_info : option GIObjectInfo;                   (* null for a class defined in JS *)
  m_property_cache : gmap string GParamSpec;
  m_field_cache : gmap string GIFieldInfo
}.

Definition with_property_cache (c : gmap string GParamSpec) (p : ObjectPrototype)
  : ObjectPrototype :=
  mkPrototype (p_gtype p) (m_info p) c (m_field_cache p).
Definition with_field_cache (c : gmap string GIFieldInfo) (p : ObjectPrototype)
  : ObjectPrototype :=
  mkPrototype (p_gtype p) (m_info p) (m_property_cache p) c.

(** Modelled from the spec: [is_custom_js_class()] of
    [gi/wrapperutils.h]; a type registered at run time has no
    introspection metadata. *)
Definition is_custom_js_class (p : ObjectPrototype) : bool :=
  match m_info p with Some _ => false | None => true end.

(** What the bridge defines on a prototype object. *)
Inductive JSProperty : Type :=
| DefinedFunction (info : GIFunctionInfo)
| DefinedVFunc (info : GIVFuncInfo)
| DynamicProperty (func_namespace : string) (private_id : string) (flags : Z)
| OrdinaryProperty (v : JSValue).

Definition JSPROP_ENUMERATE : Z := 1.
Definition JSPROP_READONLY : Z := 2.
Definition JSPROP_PERMANENT : Z := 4.
Definition GJS_MODULE_PROP_FLAGS : Z := Z.lor JSPROP_PERMANENT JSPROP_ENUMERATE.

Record World : Type := mkWorld {
  mem_counters : Mem.Counters;
  destroying : bool;                              (* GjsContextPrivate::destroying() *)
  toggle_queue : ToggleQueue.t;                   (* ToggleQueue::get_default()      *)
  object_qdata : gmap GObjectPtr InstancePtr;     (* the gjs::private qdata          *)
  instances : gmap InstancePtr ObjectInstance;    (* the live ObjectInstance structs *)
  wrapped_gobject_list : option InstancePtr;
  s_weak_pointer_callback : bool;
  gobjects : gmap GObjectPtr GObject;             (* the native heap                 *)
  prototypes : gmap GType ObjectPrototype;        (* the gjs::private qdata of types *)
  js_objects : gmap JSObjectPtr (gmap string JSProperty);
  trace : list event
}.

Definition with_counters (c : Mem.Counters) (w : World) : World :=
  mkWorld c (destroying w) (toggle_queue w) (object_qdata w) (instances w)
          (wrapped_gobject_list w) (s_weak_pointer_callback w) (gobjects w)
          (prototypes w) (js_objects w) (trace w).
Definition with_toggle_queue (t : ToggleQueue.t) (w : World) : World :=
  mkWorld (mem_counters w) (destroying w) t (object_qdata w) (instances w)
          (wrapped_gobject_list w) (s_weak_pointer_callback w) (gobjects w)
          (prototypes w) (js_objects w) (trace w).
Definition with_object_qdata (m : gmap GObjectPtr InstancePtr) (w : World) : World :=
  mkWorld (mem_counters w) (destroying w) (toggle_queue w) m (instances w)
          (wrapped_gobject_list w) (s_weak_pointer_callback w) (gobjects w)
          (prototypes w) (js_objects w) (trace w).
Definition with_instances (m : gmap InstancePtr ObjectInstance) (w : World) : World :=
  mkWorld (mem_counters w) (destroying w) (toggle_queue w) (object_qdata w) m
          (wrapped_gobject_list w) (s_weak_pointer_callback w) (gobjects w)
          (prototypes w) (js_objects w) (trace w).
Definition with_list_head (h : option InstancePtr) (w : World) : World :=
  mkWorld (mem_counters w) (destroying w) (toggle_queue w) (object_qdata w) (instances w)
          h (s_weak_pointer_callback w) (gobjects w)
          (prototypes w) (js_objects w) (trace w).
Definition with_weak_pointer_callback (b : bool) (w : World) : World :=
  mkWorld (mem_counters w) (destroying w) (toggle_queue w) (object_qdata w) (instances w)
          (wrapped_gobject_list w) b (gobjects w)
          (prototypes w) (js_objects w) (trace w).
Definition with_gobjects (m : gmap GObjectPtr GObject) (w : World) : World :=
  mkWorld (mem_counters w) (destroying w) (toggle_queue w) (object_qdata w) (instances w)
          (wrapped_gobject_list w) (s_weak_pointer_callback w) m
          (prototypes w) (js_objects w) (trace w).
Definition with_prototypes (m : gmap GType ObjectPrototype) (w : World) : World :=
  mkWorld (mem_counters w) (destroying w) (toggle_queue w) (object_qdata w) (instances w)
          (wrapped_gobject_list w) (s_weak_pointer_callback w) (gobjects w)
          m (js_objects w) (trace w).
Definition with_js_objects (m : gmap JSObjectPtr (gmap string JSProperty)) (w : World)
  : World :=
  mkWorld (mem_counters w) (destroying w) (toggle_queue w) (object_qdata w) (instances w)
          (wrapped_gobject_list w) (s_weak_pointer_callback w) (gobjects w)
          (prototypes w) m (trace w).
Definition with_trace (t : list event) (w : World) : World :=
  mkWorld (mem_counters w) (destroying w) (toggle_queue w) (object_qdata w) (instances w)
          (wrapped_gobject_list w) (s_weak_pointer_callback w) (gobjects w)
          (prototypes w) (js_objects w) t.

Definition emit_event (e : event) (w : World) : World :=
  with_trace (trace w ++ [e]) w.

Definition emit_events (es : list event) (w : World) : World :=
  with_trace (trace w ++ es) w.

(** Modelled from the spec: [gjs_throw] of [gjs/jsapi-util-error.cpp]
    and the wrappers around it ([gjs_wrapper_throw_readonly_field],
    [gjs_wrapper_throw_nonexistent_field] of [gi/wrapperutils.cpp]), not
    among the sources: they raise a user-visible error through the
    engine's exception channel. *)
Definition gjs_throw (e : JSError) (w : World) : World :=
  emit_event (Call_gjs_throw e) w.

(** Reading a field through an [ObjectInstance*]. *)
Definition deref (w : World) (this : InstancePtr) : result ObjectInstance :=
  match instances w !! this with
  | Some i => Done i
  | None => Abort NullDeref
  end.

(** Writing fields through an [ObjectInstance*]. *)
Definition update (this : InstancePtr) (f : ObjectInstance -> ObjectInstance)
    (w : World) : World :=
  with_instances (alter f this (instances w)) w.

(** ** The scripting engine as the bridge sees it

    The [JSContext* cx] that the methods are handed: what the engine
    answers to the calls the bridge makes into it.  Every one of these
    calls can fail. *)

Record JSContext : Type := mkContext {
  (* gjs_lookup_object_prototype(cx, gtype) *)
  cx_lookup_object_prototype : GType -> option JSObjectPtr;
  (* JS_NewObjectWithGivenProto(cx, JS_GetClass(proto), proto) *)
  cx_new_object : World -> JSObjectPtr -> option JSObjectPtr;
  (* JS_AlreadyHasOwnPropertyById can report an exception *)
  cx_has_own_property_fails : bool;
  (* gjs_define_function / gjs_define_property_dynamic can fail *)
  cx_define_fails : bool;
  (* HashMap::add / putNew can run out of memory *)
  cx_cache_insert_fails : bool;
  (* JS_EncodeStringToUTF8 can fail *)
  cx_encode_fails : bool
}.

(** ** Accessors of the wrapper reference

    The inline members of [GIWrapperInstance] ([gi/wrapperutils.h], not
    among the sources) that forward to the wrapper reference. *)

(** Modelled from the spec: [wrapper_is_rooted()], whether the wrapper
    reference is a GC root. *)
Definition wrapper_is_rooted (i : ObjectInstance) : bool := m_rooted (m_wrapper i).

(** Modelled from the spec: [wrapper()], the wrapper or null. *)
Definition wrapper (i : ObjectInstance) : option JSObjectPtr := m_thing (m_wrapper i).

(** Modelled from the spec: [has_wrapper()], whether a wrapper still
    exists. *)
Definition has_wrapper (i : ObjectInstance) : bool :=
  match wrapper i with Some _ => true | None => false end.

(** Modelled from the spec: [discard_wrapper()], which clears the
    wrapper reference. *)
Definition discard_wrapper (i : ObjectInstance) : ObjectInstance :=
  with_wrapper (maybe_owned_reset (m_wrapper i)) i.

(** Modelled from the spec: [switch_to_rooted()], the transition from
    Unrooted to Rooted; the reference must not be rooted already. *)
Definition switch_to_rooted (i : ObjectInstance) : result ObjectInstance :=
  _ ← g_assert "!m_rooted" (negb (wrapper_is_rooted i));
  Done (with_wrapper (mkMaybeOwned (wrapper i) true) i).

(** Modelled from the spec: [switch_to_unrooted()], the transition from
    Rooted to Unrooted; the reference must be rooted. *)
Definition switch_to_unrooted (i : ObjectInstance) : result ObjectInstance :=
  _ ← g_assert "m_rooted" (wrapper_is_rooted i);
  Done (with_wrapper (mkMaybeOwned (wrapper i) false) i).

(** Modelled from the spec: the assignment [m_wrapper = object] of
    [GjsMaybeOwned]; only an unrooted reference is assigned to. *)
Definition assign_wrapper (o : JSObjectPtr) (i : ObjectInstance) : result ObjectInstance :=
  _ ← g_assert "!m_rooted" (negb (wrapper_is_rooted i));
  Done (with_wrapper (mkMaybeOwned (Some o) false) i).

(** Modelled from the spec: the assignment [m_wrapper = nullptr] of
    [GjsMaybeOwned]. *)
Definition clear_wrapper (i : ObjectInstance) : result ObjectInstance :=
  _ ← g_assert "!m_rooted" (negb (wrapper_is_rooted i));
  Done (with_wrapper (mkMaybeOwned None false) i).

(** Modelled from the spec: [update_after_gc()]; a weak reference whose
    target the collector is about to finalize is cleared, and the call
    says so. *)
Definition update_after_gc (dying : JSObjectPtr -> bool) (i : ObjectInstance)
  : bool * ObjectInstance :=
  match wrapper i with
  | Some o =>
      if dying o then (true, with_wrapper (mkMaybeOwned None false) i)
      else (false, i)
  | None => (true, i)
  end.

(** ** Calls into GObject that change what the bridge reads back

    A call into GObject is modelled by what the call itself does to the
    native object, and it is recorded in the trace.  What GObject runs
    from inside such a call is not part of it: the toggle notification
    at the drop from two references to one under a toggle reference,
    the dispose notification and the finalizers at the drop of the last
    reference, the handlers of a signal, the setter of a property.  The
    two notifications enter the bridge through
    [wrapped_gobj_toggle_notify] and [gobj_dispose_notify], which are
    entry points of their own below and run on the world that the call
    leaves. *)

Definition adjust_ref_count (d : Z) (o : option GObjectPtr) (w : World) : World :=
  match o with
  | Some p =>
      with_gobjects
        (alter (fun g => mkGObject (ref_count g + d) (g_type_instance g)
                           (g_properties g) (g_fields g))
               p (gobjects w)) w
  | None => w
  end.

(** [g_object_unref]: one reference less.  When the count drops to one
    under a toggle reference, or to zero, the notification that is then
    due is not run here. *)
Definition g_object_unref (o : option GObjectPtr) (w : World) : World :=
  adjust_ref_count (-1) o (emit_event (Call_g_object_unref o) w).

(** [g_object_add_toggle_ref]: one reference more; the notifier is
    always [wrapped_gobj_toggle_notify]. *)
Definition g_object_add_toggle_ref (o : option GObjectPtr) (w : World) : World :=
  adjust_ref_count 1 o (emit_event (Call_g_object_add_toggle_ref o) w).

(** [g_object_remove_toggle_ref]: one reference less.  When it was the
    last one, the finalization of the native object is not run here. *)
Definition g_object_remove_toggle_ref (o : option GObjectPtr) (w : World) : World :=
  adjust_ref_count (-1) o (emit_event (Call_g_object_remove_toggle_ref o) w).

Definition g_object_set_qdata (o : option GObjectPtr) (data : option InstancePtr)
    (w : World) : World :=
  match o with
  | Some p =>
      match data with
      | Some d => with_object_qdata (<[p := d]> (object_qdata w)) w
      | None => with_object_qdata (delete p (object_qdata w)) w
      end
  | None =>
      emit_event
        (Log_g_critical "g_object_set_qdata: assertion 'G_IS_OBJECT (object)' failed") w
  end.

Definition g_object_get_qdata (o : GObjectPtr) (w : World) : option InstancePtr :=
  object_qdata w !! o.

(** ** The registry of wrapped objects *)

Module GjsListLink.

Definition set_next (p : InstancePtr) (n : option InstancePtr) : World -> World :=
  update p (fun i => with_link (mkLink (m_prev (m_instance_link i)) n) i).

Definition set_prev (p : InstancePtr) (n : option InstancePtr) : World -> World :=
  update p (fun i => with_link (mkLink n (m_next (m_instance_link i))) i).

Definition prepend (this_instance head : InstancePtr) (w : World) : result World :=
  elem ← deref w head;
  _ ← deref w this_instance;
  w1 ← match m_prev (m_instance_link elem) with
       | Some prev =>
           _ ← deref w prev;
           Done (set_prev this_instance (Some prev)
                   (set_next prev (Some this_instance) w))
       | None => Done w
       end;
  Done (set_next this_instance (Some head)
          (set_prev head (Some this_instance) w1)).

Definition unlink (this : InstancePtr) (w : World) : result World :=
  l ← deref w this;
  w1 ← match m_prev (m_instance_link l) with
       | Some prev =>
           _ ← deref w prev;
           Done (set_next prev (m_next (m_instance_link l)) w)
       | None => Done w
       end;
  l1 ← deref w1 this;
  w2 ← match m_next (m_instance_link l1) with
       | Some next =>
           _ ← deref w1 next;
           Done (set_prev next (m_prev (m_instance_link l1)) w1)
       | None => Done w1
       end;
  Done (update this (with_link (mkLink None None)) w2).

End GjsListLink.

Definition link (this : InstancePtr) (w : World) : result World :=
  w1 ← match wrapped_gobject_list w with
       | Some head => GjsListLink.prepend this head w
       | None => Done w
       end;
  Done (with_list_head (Some this) w1).

Definition unlink (this : InstancePtr) (w : World) : result World :=
  i ← deref w this;
  let w1 :=
    if decide (wrapped_gobject_list w = Some this)
    then with_list_head (m_next (m_instance_link i)) w
    else w in
  GjsListLink.unlink this w1.

(** ** Reverse lookup from a native object *)

Definition check_js_object_finalized (this : InstancePtr) (w : World) : result World :=
  i ← deref w this;
  if negb (m_uses_toggle_ref i) then Done w
  else if m_wrapper_finalized i then
    let w1 := emit_event
                (Log_g_critical "Object resurfaced after the JS wrapper was finalized") w in
    let w2 := update this (with_wrapper_finalized false) w1 in
    _ ← g_assert "!m_wrapper" (negb (has_wrapper i));
    Done w2
  else Done w.

Definition for_gobject (gobj : GObjectPtr) (w : World)
  : result (option InstancePtr * World) :=
  match g_object_get_qdata gobj w with
  | Some priv =>
      w1 ← check_js_object_finalized priv w;
      Done (Some priv, w1)
  | None => Done (None, w)
  end.

Definition set_object_qdata (this : InstancePtr) (w : World) : result World :=
  i ← deref w this;
  Done (g_object_set_qdata (m_ptr i) (Some this) w).

Definition unset_object_qdata (this : InstancePtr) (w : World) : result World :=
  i ← deref w this;
  Done (g_object_set_qdata (m_ptr i) None w).

Definition gobj_dispose_notify (this : InstancePtr) (w : World) : result World :=
  _ ← deref w this;
  unlink this (update this (with_gobj_disposed true) w).

(** ** Toggle notifications *)

Definition toggle_down (this : InstancePtr) (w : World) : result World :=
  i ← deref w this;
  if wrapper_is_rooted i then
    i1 ← switch_to_unrooted i;
    let w1 := update this (fun _ => i1) w in
    if negb (destroying w1) then Done (emit_event Call_schedule_gc w1)
    else Done w1
  else Done w.

Definition toggle_up (this : InstancePtr) (w : World) : result World :=
  i ← deref w this;
  if negb (has_wrapper i) then Done w
  else if negb (wrapper_is_rooted i) then
    i1 ← switch_to_rooted i;
    Done (update this (fun _ => i1) w)
  else Done w.

(** Calling a method on the result of [for_gobject]; the source does not
    test it for null. *)
Definition on_instance_of (gobj : GObjectPtr)
    (method : InstancePtr -> World -> result World) (w : World) : result World :=
  '(priv, w1) ← for_gobject gobj w;
  match priv with
  | Some this => method this w1
  | None => Abort NullDeref
  end.

Definition toggle_handler (gobj : GObjectPtr) (direction : ToggleQueue.Direction)
    (w : World) : result World :=
  match direction with
  | ToggleQueue.UP => on_instance_of gobj toggle_up w
  | ToggleQueue.DOWN => on_instance_of gobj toggle_down w
  end.

Definition toggling_down_msg (toggle_up_queued toggle_down_queued : bool) : string :=
  "toggling down object that's already queued to toggle " +:+
  (if toggle_up_queued && toggle_down_queued then "up and down"
   else if toggle_up_queued then "up" else "down").

(** [is_owner_thread] is [gjs->is_owner_thread()] for the thread the
    notification arrives on. *)
Definition wrapped_gobj_toggle_notify (is_owner_thread : bool)
    (gobj : GObjectPtr) (is_last_ref : bool) (w : World) : result World :=
  if destroying w then Done w
  else
    let is_main_thread := is_owner_thread in
    let '(toggle_down_queued, toggle_up_queued) :=
      ToggleQueue.is_queued (toggle_queue w) gobj in
    if is_last_ref then
      if is_main_thread then
        if toggle_up_queued || toggle_down_queued then
          Abort (GError (toggling_down_msg toggle_up_queued toggle_down_queued))
        else on_instance_of gobj toggle_down w
      else
        Done (with_toggle_queue
                (ToggleQueue.enqueue (toggle_queue w) gobj ToggleQueue.DOWN) w)
    else
      if is_main_thread && negb toggle_down_queued then
        if toggle_up_queued then
          Abort (GError "toggling up object that's already queued to toggle up")
        else on_instance_of gobj toggle_up w
      else
        Done (with_toggle_queue
                (ToggleQueue.enqueue (toggle_queue w) gobj ToggleQueue.UP) w).

(** ** Releasing the native object and the closures *)

Definition release_native_object (this : InstancePtr) (w : World) : result World :=
  _ ← deref w this;
  let w1 := update this discard_wrapper w in
  i ← deref w1 this;
  let w2 :=
    if m_uses_toggle_ref i then g_object_remove_toggle_ref (m_ptr i) w1
    else g_object_unref (m_ptr i) w1 in
  Done (update this (with_ptr None) w2).

(** [std::forward_list::remove]: every element equal to [c] goes. *)
Definition forward_list_remove (c : GClosurePtr) (l : list GClosurePtr)
  : list GClosurePtr :=
  filter (fun x => x <> c) l.

(** [closure_invalidated_notify], the notifier that
    [associate_closure] installs on every closure of the set and that
    [g_closure_invalidate] runs. *)
Definition closure_invalidated_notify (c : GClosurePtr) (l : list GClosurePtr)
  : list GClosurePtr :=
  forward_list_remove c l.

(** The loop of [invalidate_all_closures]: the closures invalidated, in
    order, and the set left when the loop exits. *)
Equations? invalidate_loop (closures : list GClosurePtr)
  : list GClosurePtr * list GClosurePtr by wf (length closures) lt :=
  invalidate_loop [] := ([], []);
  invalidate_loop (closure :: rest) :=
    let after_notify := closure_invalidated_notify closure (closure :: rest) in
    let after_remove := forward_list_remove closure after_notify in
    let '(invalidated, remaining) := invalidate_loop after_remove in
    (closure :: invalidated, remaining).
Proof.
  subst after_remove after_notify.
  unfold closure_invalidated_notify, forward_list_remove.
  rewrite (filter_cons_False _ closure rest) by tauto.
  pose proof (length_filter (fun x => x <> closure)
                (filter (fun x => x <> closure) rest)).
  pose proof (length_filter (fun x => x <> closure) rest).
  simpl. lia.
Qed.

Definition invalidate_all_closures (this : InstancePtr) (w : World) : result World :=
  i ← deref w this;
  let '(invalidated, remaining) := invalidate_loop (m_closures i) in
  Done (update this (with_closures remaining)
          (emit_events (map Call_g_closure_invalidate invalidated) w)).

Definition pending_toggle_msg : string :=
  "JS object wrapper for GObject is being released while toggle references are still pending.".

Definition already_freed_msg : string :=
  "Finalizing wrapper for an already freed object".

Definition scheduled_unroot_msg : string :=
  "Finalizing wrapper for an object that's scheduled to be unrooted".

(** [toggle_queue.cancel(m_ptr)]; a null pointer names no entry. *)
Definition cancel_toggles (o : option GObjectPtr) (w : World) : (bool * bool) * World :=
  match o with
  | Some p =>
      let '(had, tq) := ToggleQueue.cancel (toggle_queue w) p in
      (had, with_toggle_queue tq w)
  | None => ((false, false), w)
  end.

Definition disassociate_js_gobject (this : InstancePtr) (w : World) : result World :=
  i ← deref w this;
  let w1 :=
    if negb (m_gobj_disposed i)
    then emit_event (Call_g_object_weak_unref (m_ptr i) this) w else w in
  let '((had_toggle_down, had_toggle_up), w2) := cancel_toggles (m_ptr i) w1 in
  if negb (eqb had_toggle_down had_toggle_up) then
    Abort (GError pending_toggle_msg)
  else
    w3 ← unset_object_qdata this w2;
    w4 ← invalidate_all_closures this w3;
    w5 ← release_native_object this w4;
    let w6 := update this (with_wrapper_finalized true) w5 in
    i6 ← deref w6 this;
    i7 ← clear_wrapper i6;
    Done (update this (fun _ => i7) w6).

(** [~ObjectInstance], run when the wrapper is finalized. *)
Definition ObjectInstance_destructor (this : InstancePtr) (w : World) : result World :=
  w1 ← invalidate_all_closures this w;
  i ← deref w1 this;
  w2 ← match m_ptr i with
       | Some p =>
           g ← match gobjects w1 !! p with
               | Some g => Done g
               | None => Abort NullDeref
               end;
           if decide (ref_count g <= 0) then Abort (GError already_freed_msg)
           else
             let '((had_toggle_down, had_toggle_up), wq) := cancel_toggles (Some p) w1 in
             if negb had_toggle_up && had_toggle_down then
               Abort (GError scheduled_unroot_msg)
             else
               let wu :=
                 if negb (m_gobj_disposed i)
                 then emit_event (Call_g_object_weak_unref (Some p) this) wq else wq in
               release_native_object this wu
       | None => Done w1
       end;
  i2 ← deref w2 this;
  let w3 := if wrapper_is_rooted i2 then update this discard_wrapper w2 else w2 in
  w4 ← unlink this w3;
  Done (with_counters (Mem.GJS_DEC_COUNTER Mem.object_instance (mem_counters w4)) w4).

(** The predicate and the actions of the sweeps over the registry. *)
Definition weak_pointer_was_finalized (dying : JSObjectPtr -> bool)
    (this : InstancePtr) (w : World) : result (bool * World) :=
  i ← deref w this;
  if has_wrapper i && negb (wrapper_is_rooted i) then
    let '(dead, i1) := update_after_gc dying i in
    Done (dead, update this (fun _ => i1) w)
  else Done (false, w).

Definition handle_context_dispose (this : InstancePtr) (w : World) : result World :=
  i ← deref w this;
  if wrapper_is_rooted i then unlink this (update this discard_wrapper w)
  else Done w.

(** ** Associating a wrapper with a native object *)

Definition ensure_weak_pointer_callback (w : World) : World :=
  if negb (s_weak_pointer_callback w)
  then with_weak_pointer_callback true
         (emit_event Call_JS_AddWeakPointerCompartmentCallback w)
  else w.

Definition associate_js_gobject (this : InstancePtr) (object : JSObjectPtr)
    (gobj : GObjectPtr) (w : World) : result World :=
  i ← deref w this;
  _ ← g_assert "!wrapper_is_rooted()" (negb (wrapper_is_rooted i));
  let w1 := update this (fun i => with_ptr (Some gobj) (with_uses_toggle_ref false i)) w in
  w2 ← set_object_qdata this w1;
  i2 ← deref w2 this;
  i3 ← assign_wrapper object i2;
  let w3 := update this (fun _ => i3) w2 in
  let w4 := ensure_weak_pointer_callback w3 in
  w5 ← link this w4;
  Done (emit_event (Call_g_object_weak_ref gobj this) w5).

(** [ensure_uses_toggle_ref].  When nobody else holds the native object,
    the final [g_object_unref] drops the count to one, and GObject
    delivers the toggle notification that takes away the root just
    added; that notification is [wrapped_gobj_toggle_notify], to be run
    on the world returned here. *)
Definition ensure_uses_toggle_ref (this : InstancePtr) (w : World) : result World :=
  i ← deref w this;
  if m_uses_toggle_ref i then Done w
  else
    _ ← g_assert "!wrapper_is_rooted()" (negb (wrapper_is_rooted i));
    i1 ← switch_to_rooted (with_uses_toggle_ref true i);
    let w1 := update this (fun _ => i1) w in
    Done (g_object_unref (m_ptr i1) (g_object_add_toggle_ref (m_ptr i1) w1)).

(** Modelled from the spec: [ObjectInstance::new_for_js_object] of
    [gi/wrapperutils.h], not among the sources, which allocates the
    instance for a new wrapper; the constructor [ObjectInstance(cx,
    object)] that it runs is in the source and counts the instance.  A
    new instance holds no native pointer and no wrapper reference yet. *)
Definition new_for_js_object (gtype : GType) (w : World) : InstancePtr * World :=
  let this := fresh (dom (instances w)) in
  let i := mkInstance gtype None (mkMaybeOwned None false) (mkLink None None)
                      [] false false false in
  (this,
   with_counters (Mem.GJS_INC_COUNTER Mem.object_instance (mem_counters w))
     (with_instances (<[this := i]> (instances w)) w)).

(** [new_for_gobject].  [g_object_ref_sink] is recorded in the trace;
    whether it raises the reference count depends on the floating flag
    of the native object, which the model does not hold, so the count
    is left as it is. *)
Definition new_for_gobject (cx : JSContext) (gobj : GObjectPtr) (w : World)
  : result (option InstancePtr * World) :=
  g ← match gobjects w !! gobj with
      | Some g => Done g
      | None => Abort NullDeref
      end;
  let gtype := g_type_instance g in
  match cx_lookup_object_prototype cx gtype with
  | None => Done (None, w)
  | Some proto =>
      match cx_new_object cx w proto with
      | None => Done (None, w)
      | Some obj =>
          let '(priv, w1) := new_for_js_object gtype w in
          let w2 := emit_event (Call_g_object_ref_sink gobj) w1 in
          w3 ← associate_js_gobject priv obj gobj w2;
          i ← deref w3 priv;
          _ ← g_assert "priv->wrapper() == obj.get()"
                (bool_decide (wrapper i = Some obj));
          Done (Some priv, w3)
      end
  end.

(** [wrapper_from_gobject]: the wrapper, or null when none could be
    created. *)
Definition wrapper_from_gobject (cx : JSContext) (gobj : GObjectPtr) (w : World)
  : result (option JSObjectPtr * World) :=
  '(found, w1) ← for_gobject gobj w;
  match found with
  | Some priv =>
      i ← deref w1 priv;
      Done (wrapper i, w1)
  | None =>
      '(created, w2) ← new_for_gobject cx gobj w1;
      match created with
      | None => Done (None, w2)
      | Some priv =>
          i ← deref w2 priv;
          Done (wrapper i, w2)
      end
  end.

(** ** Looking members up in the metadata *)

Definition streq (a b : string) : bool := bool_decide (a = b).

(** [g_object_info_find_vfunc]: the type's own virtual functions. *)
Definition g_object_info_find_vfunc (info : GIObjectInfo) (name : string)
  : option GIVFuncInfo :=
  find (fun v => streq (vfunc_name v) name) (info_vfuncs info).

Definition g_interface_info_find_vfunc (info : GIInterfaceInfo) (name : string)
  : option GIVFuncInfo :=
  find (fun v => streq (vfunc_name v) name) (iface_vfuncs info).

Definition g_interface_info_find_method (info : GIInterfaceInfo) (name : string)
  : option GIFunctionInfo :=
  find (fun m => streq (function_name m) name) (iface_methods info).

Fixpoint first_some {A B} (f : A -> option B) (l : list A) : option B :=
  match l with
  | [] => None
  | x :: rest =>
      match f x with
      | Some y => Some y
      | None => first_some f rest
      end
  end.

(** [..._using_interfaces]: the type's own members, then those of the
    interfaces it implements, in declaration order. *)
Definition g_object_info_find_vfunc_using_interfaces (info : GIObjectInfo)
    (name : string) : option GIVFuncInfo :=
  match g_object_info_find_vfunc info name with
  | Some v => Some v
  | None => first_some (fun i => g_interface_info_find_vfunc i name)
                       (info_interfaces info)
  end.

Definition g_object_info_find_method_using_interfaces (info : GIObjectInfo)
    (name : string) : option GIFunctionInfo :=
  match find (fun m => streq (function_name m) name) (info_methods info) with
  | Some m => Some m
  | None => first_some (fun i => g_interface_info_find_method i name)
                       (info_interfaces info)
  end.

(** The [while (!vfunc && parent)] loop of [find_vfunc_on_parents],
    entered with [vfunc] null and [parent] not null. *)
Fixpoint find_vfunc_loop (parent : GIObjectInfo) (name : string)
  : option GIVFuncInfo :=
  match parent with
  | mkObjectInfo _ _ _ _ _ _ _ (Some p) =>
      match g_object_info_find_vfunc p name with
      | Some v => Some v
      | None => find_vfunc_loop p name
      end
  | mkObjectInfo _ _ _ _ _ _ _ None => None
  end.

(** [find_vfunc_on_parents]: the vfunc, and [*out_defined_by_parent]. *)
Definition find_vfunc_on_parents (info : GIObjectInfo) (name : string)
  : option GIVFuncInfo * bool :=
  match g_object_info_find_vfunc_using_interfaces info name with
  | Some v => (Some v, false)
  | None => (find_vfunc_loop info name, true)
  end.

Definition is_vfunc_unchanged (T : TypeSystem) (this : ObjectPrototype)
    (info : GIVFuncInfo) : bool :=
  let ptype := g_type_parent T (p_gtype this) in
  match g_vfunc_info_get_address T info (Some (p_gtype this)) with
  | None => false
  | Some addr1 =>
      match g_vfunc_info_get_address T info ptype with
      | None => false
      | Some addr2 => Z.eqb addr1 addr2
      end
  end.

Definition in_range (lo hi : string) (c : ascii) : bool :=
  match lo, hi with
  | String l EmptyString, String h EmptyString =>
      (nat_of_ascii l <=? nat_of_ascii c)%nat && (nat_of_ascii c <=? nat_of_ascii h)%nat
  | _, _ => false
  end.

(** [canonicalize_key]: every byte outside [A-Za-z0-9-] becomes a hyphen. *)
Fixpoint canonicalize_key (key : string) : string :=
  match key with
  | EmptyString => EmptyString
  | String c rest =>
      let c' :=
        if negb (Ascii.eqb c "-") && negb (in_range "0" "9" c)
           && negb (in_range "A" "Z" c) && negb (in_range "a" "z" c)
        then "-"%char else c in
      String c' (canonicalize_key rest)
  end.

Definition is_ginterface_property_name (info : GIInterfaceInfo) (name : string)
  : bool :=
  match find (fun p => streq name (property_name p)) (iface_properties info) with
  | Some _ => true
  | None => false
  end.

Definition is_gobject_property_name (T : TypeSystem) (info : GIObjectInfo)
    (name : string) : bool :=
  let canonical_name := canonicalize_key (gjs_hyphen_from_camel T name) in
  match find (fun p => streq canonical_name (property_name p)) (info_properties info) with
  | Some _ => true
  | None =>
      existsb (fun iface => is_ginterface_property_name iface canonical_name)
              (info_interfaces info)
  end.

(** [lookup_field_info]: the first field of that name, if readable. *)
Definition lookup_field_info (info : GIObjectInfo) (name : string)
  : option GIFieldInfo :=
  match find (fun f => streq name (field_name f)) (info_fields info) with
  | Some f =>
      if has_flag (field_flags f) GI_FIELD_IS_READABLE then Some f else None
  | None => None
  end.

(** ** Defining members on a prototype object *)

Definition own_properties (obj : JSObjectPtr) (w : World) : gmap string JSProperty :=
  default ∅ (js_objects w !! obj).

Definition define_own_property (obj : JSObjectPtr) (name : string) (p : JSProperty)
    (w : World) : World :=
  with_js_objects (<[obj := <[name := p]> (own_properties obj w)]> (js_objects w)) w.

(** [JS_AlreadyHasOwnPropertyById]: [None] when the call fails. *)
Definition JS_AlreadyHasOwnPropertyById (cx : JSContext) (obj : JSObjectPtr)
    (id : string) (w : World) : option bool :=
  if cx_has_own_property_fails cx then None
  else Some (bool_decide (is_Some (own_properties obj w !! id))).

(** Modelled from the spec: [gjs_define_function] of [gi/function.cpp],
    not among the sources, for a method: it defines one concrete
    accessor on the object. *)
Definition gjs_define_function (cx : JSContext) (obj : JSObjectPtr)
    (info : GIFunctionInfo) (w : World) : option World :=
  if cx_define_fails cx then None
  else Some (define_own_property obj (function_name info) (DefinedFunction info) w).

(** Modelled from the spec: [gjs_define_function] of [gi/function.cpp]
    for a virtual function, which it defines under its [vfunc_] name. *)
Definition gjs_define_vfunc (cx : JSContext) (obj : JSObjectPtr)
    (info : GIVFuncInfo) (w : World) : option World :=
  if cx_define_fails cx then None
  else Some (define_own_property obj ("vfunc_" +:+ vfunc_name info) (DefinedVFunc info) w).

(** Modelled from the spec: [gjs_define_property_dynamic] of
    [gjs/jsapi-dynamic-class.cpp], not among the sources: it defines a
    lazily-backed accessor pair that carries [private_id]. *)
Definition gjs_define_property_dynamic (cx : JSContext) (obj : JSObjectPtr)
    (name func_namespace private_id : string) (flags : Z) (w : World) : option World :=
  if cx_define_fails cx then None
  else Some (define_own_property obj name
               (DynamicProperty func_namespace private_id flags) w).

(** The resolver's answer: [None] when it returns false, [Some r] when it
    returns true having set [*resolved] to [r]. *)
Definition lazy_define_gobject_property (cx : JSContext) (obj : JSObjectPtr)
    (id name : string) (w : World) : option bool * World :=
  match JS_AlreadyHasOwnPropertyById cx obj id w with
  | None => (None, w)
  | Some true => (Some false, w)
  | Some false =>
      match gjs_define_property_dynamic cx obj name "gobject_prop" id
              (Z.land GJS_MODULE_PROP_FLAGS (Z.lnot JSPROP_PERMANENT)) w with
      | None => (None, w)
      | Some w1 => (Some true, w1)
      end
  end.

Inductive ResolveWhat : Type := ConsiderOnlyMethods | ConsiderMethodsAndProperties.

(** The [for] loop of [resolve_no_info] over the interfaces of the type. *)
Fixpoint resolve_no_info_loop (T : TypeSystem) (cx : JSContext) (obj : JSObjectPtr)
    (id name canonical_name : string) (resolve_props : ResolveWhat)
    (interfaces : list GType) (w : World) : option bool * World :=
  match interfaces with
  | [] => (Some false, w)
  | iface :: rest =>
      match g_irepository_find_by_gtype T iface with
      | None => resolve_no_info_loop T cx obj id name canonical_name resolve_props rest w
      | Some iface_info =>
          let continue_ :=
            match resolve_props with
            | ConsiderOnlyMethods =>
                resolve_no_info_loop T cx obj id name canonical_name resolve_props rest w
            | ConsiderMethodsAndProperties =>
                if is_ginterface_property_name iface_info canonical_name
                then lazy_define_gobject_property cx obj id name w
                else resolve_no_info_loop T cx obj id name canonical_name
                       resolve_props rest w
            end in
          match g_interface_info_find_method iface_info name with
          | Some method_info =>
              if has_flag (function_flags method_info) GI_FUNCTION_IS_METHOD then
                match gjs_define_function cx obj method_info w with
                | None => (None, w)
                | Some w1 => (Some true, w1)
                end
              else continue_
          | None => continue_
          end
      end
  end.

Definition resolve_no_info (T : TypeSystem) (cx : JSContext) (this : ObjectPrototype)
    (obj : JSObjectPtr) (id name : string) (resolve_props : ResolveWhat) (w : World)
  : option bool * World :=
  let canonical_name :=
    match resolve_props with
    | ConsiderMethodsAndProperties => canonicalize_key (gjs_hyphen_from_camel T name)
    | ConsiderOnlyMethods => ""
    end in
  resolve_no_info_loop T cx obj id name canonical_name resolve_props
    (g_type_interfaces T (p_gtype this)) w.

(** ** The resolve hook of a prototype *)

Definition deref_proto (w : World) (this : GType) : result ObjectPrototype :=
  match prototypes w !! this with
  | Some p => Done p
  | None => Abort NullDeref
  end.

Definition update_proto (this : GType) (f : ObjectPrototype -> ObjectPrototype)
    (w : World) : World :=
  with_prototypes (alter f this (prototypes w)) w.

(** [&(name[6])]: the name behind the [vfunc_] prefix. *)
Definition name_without_vfunc_ (name : string) : string :=
  String.substring 6 (String.length name - 6) name.

(** The part of [resolve_impl] that looks for a virtual function;
    [None] when control falls through to normal resolution. *)
Definition resolve_vfunc (T : TypeSystem) (cx : JSContext) (this : ObjectPrototype)
    (info : GIObjectInfo) (obj : JSObjectPtr) (name : string) (w : World)
  : option (option bool * World) :=
  if String.prefix "vfunc_" name then
    let '(vfunc, defined_by_parent) :=
      find_vfunc_on_parents info (name_without_vfunc_ name) in
    match vfunc with
    | Some vfunc =>
        if defined_by_parent && is_vfunc_unchanged T this vfunc then
          Some (Some false, w)
        else
          match gjs_define_vfunc cx obj vfunc w with
          | None => Some (None, w)
          | Some w1 => Some (Some true, w1)
          end
    | None => None
    end
  else None.

(** The part of [resolve_impl] that exposes a readable field. *)
Definition resolve_field (cx : JSContext) (this : GType) (field_info : GIFieldInfo)
    (obj : JSObjectPtr) (id name : string) (w : World) : option bool * World :=
  match JS_AlreadyHasOwnPropertyById cx obj id w with
  | None => (None, w)
  | Some true => (Some false, w)
  | Some false =>
      let flags :=
        if negb (has_flag (field_flags field_info) GI_FIELD_IS_WRITABLE)
        then Z.lor GJS_MODULE_PROP_FLAGS JSPROP_READONLY
        else GJS_MODULE_PROP_FLAGS in
      if cx_cache_insert_fails cx then (None, gjs_throw OutOfMemory w)
      else
        let w1 := update_proto this
                    (fun p => with_field_cache (<[id := field_info]> (m_field_cache p)) p)
                    w in
        match gjs_define_property_dynamic cx obj name "gobject_field" id flags w1 with
        | None => (None, w1)
        | Some w2 => (Some true, w2)
        end
  end.

(** [resolve_impl]; [id] is the property key and [name] its UTF-8 form.
    [m_info] is null exactly for a class defined in JS
    ([is_custom_js_class]). *)
Definition resolve_impl (T : TypeSystem) (cx : JSContext) (this : GType)
    (obj : JSObjectPtr) (id name : string) (w : World)
  : result (option bool * World) :=
  proto ← deref_proto w this;
  match m_info proto with
  | None =>
      Done (resolve_no_info T cx proto obj id name ConsiderMethodsAndProperties w)
  | Some info =>
      match resolve_vfunc T cx proto info obj name w with
      | Some answer => Done answer
      | None =>
          if is_gobject_property_name T info name then
            Done (lazy_define_gobject_property cx obj id name w)
          else
            match lookup_field_info info name with
            | Some field_info => Done (resolve_field cx this field_info obj id name w)
            | None =>
                match g_object_info_find_method_using_interfaces info name with
                | None =>
                    Done (resolve_no_info T cx proto obj id name ConsiderOnlyMethods w)
                | Some method_info =>
                    if has_flag (function_flags method_info) GI_FUNCTION_IS_METHOD then
                      match gjs_define_function cx obj method_info w with
                      | None => Done (None, w)
                      | Some w1 => Done (Some true, w1)
                      end
                    else Done (Some false, w)
                end
            end
      end
  end.

(** ** Cached descriptors *)

Definition find_param_spec_from_id (T : TypeSystem) (cx : JSContext) (this : GType)
    (key : string) (w : World) : result (option GParamSpec * World) :=
  proto ← deref_proto w this;
  match m_property_cache proto !! key with
  | Some pspec => Done (Some pspec, w)
  | None =>
      if cx_encode_fails cx then Done (None, w)
      else
        let gname := gjs_hyphen_from_camel T key in
        match g_object_class_find_property T (p_gtype proto) gname with
        | None => Done (None, gjs_throw (NonexistentField (p_gtype proto) key) w)
        | Some pspec =>
            if cx_cache_insert_fails cx then Done (None, gjs_throw OutOfMemory w)
            else
              Done (Some pspec,
                    update_proto this
                      (fun p => with_property_cache
                                  (<[key := pspec]> (m_property_cache p)) p) w)
        end
  end.

(** [lookup_cached_field_info]; [depth] is the room left on the stack
    for its recursion through the parent prototypes. *)
Fixpoint lookup_cached_field_info (depth : nat) (T : TypeSystem) (this : GType)
    (key : string) (w : World) : result GIFieldInfo :=
  match depth with
  | O => Abort StackOverflow
  | S depth' =>
      proto ← deref_proto w this;
      match m_info proto with
      | None =>
          match g_type_parent T (p_gtype proto) with
          | None => Abort (AssertFailed "Custom JS class must have parent")
          | Some parent_gtype =>
              match prototypes w !! parent_gtype with
              | None =>
                  Abort (AssertFailed
                           "Custom JS class's parent must have been accessed in JS")
              | Some _ => lookup_cached_field_info depth' T parent_gtype key w
              end
          end
      | Some info =>
          match m_field_cache proto !! key with
          | Some field => Done field
          | None =>
              match g_object_info_get_parent info with
              | None => Abort NullDeref
              | Some parent_info =>
                  match prototypes w !! info_gtype parent_info with
                  | None => Abort NullDeref
                  | Some _ =>
                      lookup_cached_field_info depth' T (info_gtype parent_info) key w
                  end
              end
          end
      end
  end.

(** ** Accessors of an instance

    Each returns what the C++ function returns, the value left in
    [rval], and the world. *)

Definition check_gobject_disposed (i : ObjectInstance) (for_what : string) (w : World)
  : bool * World :=
  if negb (m_gobj_disposed i) then (true, w)
  else (false,
        emit_event (Log_g_critical
                      ("Object has been already deallocated - impossible to "
                       +:+ for_what +:+ " it.")) w).

Definition native_property (o : option GObjectPtr) (name : string) (w : World) : GValue :=
  match o with
  | Some p =>
      match gobjects w !! p with
      | Some g => default (GVInt 0) (g_properties g !! name)
      | None => GVInt 0
      end
  | None => GVInt 0
  end.

Definition g_object_get_property (o : option GObjectPtr) (name : string) (w : World)
  : GValue * World :=
  (native_property o name w, emit_event (Call_g_object_get_property o name) w).

(** [g_object_set_property]: the call is recorded with the value handed
    over, and the native object of the model holds that value
    afterwards.  A native object may refuse or coerce the value in its
    own setter; the bridge does not look at the outcome. *)
Definition g_object_set_property (o : option GObjectPtr) (name : string) (v : GValue)
    (w : World) : World :=
  let w1 := emit_event (Call_g_object_set_property o name v) w in
  match o with
  | Some p =>
      with_gobjects
        (alter (fun g => mkGObject (ref_count g) (g_type_instance g)
                           (<[name := v]> (g_properties g)) (g_fields g))
               p (gobjects w1)) w1
  | None => w1
  end.

Definition prop_getter_impl (T : TypeSystem) (M : Marshaller) (cx : JSContext)
    (this : InstancePtr) (name : string) (rval : JSValue) (w : World)
  : result (bool * JSValue * World) :=
  i ← deref w this;
  let '(alive, w0) := check_gobject_disposed i "get any property from" w in
  if negb alive then Done (true, rval, w0)
  else
    '(param, w1) ← find_param_spec_from_id T cx (m_gtype i) name w0;
    match param with
    | None => Abort (AssertFailed "param")
    | Some param =>
        if pspec_custom_property param then Done (true, rval, w1)
        else if negb (has_flag (pspec_flags param) G_PARAM_READABLE) then
          Done (true, JSUndefined, w1)
        else
          let '(gvalue, w2) := g_object_get_property (m_ptr i) (pspec_name param) w1 in
          let w3 := emit_event (Call_gjs_value_from_g_value gvalue) w2 in
          match gjs_value_from_g_value M gvalue with
          | None => Done (false, rval, w3)
          | Some v => Done (true, v, w3)
          end
    end.

Definition prop_setter_impl (T : TypeSystem) (M : Marshaller) (cx : JSContext)
    (this : InstancePtr) (name : string) (value : JSValue) (w : World)
  : result (bool * World) :=
  i ← deref w this;
  let '(alive, w0) := check_gobject_disposed i "set any property on" w in
  if negb alive then Done (true, w0)
  else
    '(param_spec, w1) ← find_param_spec_from_id T cx (m_gtype i) name w0;
    match param_spec with
    | None => Done (false, w1)
    | Some param_spec =>
        if pspec_custom_property param_spec then Done (true, w1)
        else if negb (has_flag (pspec_flags param_spec) G_PARAM_WRITABLE) then
          Done (false, gjs_throw (ReadOnlyField (m_gtype i) (pspec_name param_spec)) w1)
        else
          let w2 := emit_event (Call_gjs_value_to_g_value value) w1 in
          match gjs_value_to_g_value M value (pspec_value_type param_spec) with
          | None => Done (false, w2)
          | Some gvalue =>
              Done (true, g_object_set_property (m_ptr i) (pspec_name param_spec) gvalue w2)
          end
    end.

Definition is_complex_tag (tag : GITypeTag) : bool :=
  match tag with
  | GI_TYPE_TAG_ARRAY | GI_TYPE_TAG_INTERFACE | GI_TYPE_TAG_GLIST
  | GI_TYPE_TAG_GSLIST | GI_TYPE_TAG_GHASH | GI_TYPE_TAG_ERROR => true
  | _ => false
  end.

(** [g_field_info_get_field]: the bytes of the field; [None] when it
    cannot be read. *)
Definition g_field_info_get_field (field : GIFieldInfo) (o : option GObjectPtr)
    (w : World) : option GValue * World :=
  (match o with
   | Some p =>
       match gobjects w !! p with
       | Some g => g_fields g !! field_name field
       | None => None
       end
   | None => None
   end,
   emit_event (Call_g_field_info_get_field o (field_name field)) w).

Definition field_getter_impl (depth : nat) (T : TypeSystem) (M : Marshaller)
    (this : InstancePtr) (name : string) (rval : JSValue) (w : World)
  : result (bool * JSValue * World) :=
  i ← deref w this;
  let '(alive, w0) := check_gobject_disposed i "get any property from" w in
  if negb alive then Done (true, rval, w0)
  else
    field ← lookup_cached_field_info depth T (m_gtype i) name w0;
    let tag := field_type_tag field in
    if is_complex_tag tag then
      Done (false, rval, gjs_throw (UnsupportedFieldType name) w0)
    else
      let '(arg, w1) := g_field_info_get_field field (m_ptr i) w0 in
      match arg with
      | None => Done (false, rval, gjs_throw (FieldGetFailed name) w1)
      | Some arg =>
          match gjs_value_from_g_argument M tag arg with
          | None => Done (false, rval, w1)
          | Some v => Done (true, v, w1)
          end
      end.

Definition field_setter_not_impl (depth : nat) (T : TypeSystem)
    (this : InstancePtr) (name : string) (w : World) : result (bool * World) :=
  i ← deref w this;
  let '(alive, w0) := check_gobject_disposed i "set GObject field on" w in
  if negb alive then Done (true, w0)
  else
    field ← lookup_cached_field_info depth T (m_gtype i) name w0;
    if has_flag (field_flags field) GI_FIELD_IS_WRITABLE then
      Done (true,
            emit_event (Log_g_message
                          ("Field " +:+ name +:+
                           " of a GObject is writable, but setting it is not implemented"))
                       w0)
    else Done (false, gjs_throw (ReadOnlyField (m_gtype i) (field_name field)) w0).

(** ** Emitting a signal *)

(** Modelled from the spec: [gjs_parse_call_args] of
    [gjs/jsapi-util-args.h], not among the sources, with the format
    ["!s"] that [emit_impl] gives it: the call parses the signal name,
    a string, from the first argument and ignores the others. *)
Definition gjs_parse_call_args_s (argv : list JSValue) : option string :=
  match argv with
  | JSString s :: _ => Some s
  | _ => None
  end.

(** The [for] loop that converts the arguments: the values converted so
    far, whether a conversion failed, and the world. *)
Fixpoint convert_signal_args (M : Marshaller) (params : list (GType * bool))
    (args : list JSValue) (w : World) : list GValue * bool * World :=
  match params with
  | [] => ([], false, w)
  | (type, static_scope) :: params' =>
      let arg := default JSUndefined (head args) in
      let w1 := emit_event (Call_gjs_value_to_g_value arg) w in
      let converted :=
        if static_scope then gjs_value_to_g_value_no_copy M arg type
        else gjs_value_to_g_value M arg type in
      match converted with
      | None => ([], true, w1)
      | Some v =>
          let '(vs, failed, w2) := convert_signal_args M params' (tail args) w1 in
          (v :: vs, failed, w2)
      end
  end.

(** [emit_impl].  [g_signal_emitv] is recorded with the values handed
    over, and what it returns is what the type system says the signal
    returns; the handlers connected to the signal run inside GObject
    and are not part of the model. *)
Definition emit_impl (T : TypeSystem) (M : Marshaller) (this : InstancePtr)
    (argv : list JSValue) (rval : JSValue) (w : World)
  : result (bool * JSValue * World) :=
  i ← deref w this;
  let '(alive, w0) := check_gobject_disposed i "emit any signal on" w in
  if negb alive then Done (true, rval, w0)
  else
    match gjs_parse_call_args_s argv with
    | None => Done (false, rval, gjs_throw (BadCallArgs "emit") w0)
    | Some signal_name =>
        match g_signal_parse_name T signal_name (m_gtype i) with
        | None => Done (false, rval, gjs_throw (NoSuchSignal signal_name) w0)
        | Some (signal_id, signal_detail) =>
            let signal_query := g_signal_query T signal_id in
            let argc := Z.of_nat (length argv) in
            if negb (Z.eqb (uint_sub argc 1) (n_params signal_query)) then
              Done (false, rval,
                    gjs_throw (WrongArgumentCount signal_name (n_params signal_query)
                                 (uint_sub argc 1)) w0)
            else
              let '(args, failed, w1) :=
                convert_signal_args M (param_types signal_query) (tail argv) w0 in
              let instance_and_args := GVObject (m_ptr i) :: args in
              let '(rvalue, w2) :=
                if negb failed then
                  (g_signal_emitv_return T signal_id instance_and_args,
                   emit_event (Call_g_signal_emitv (m_ptr i) signal_id instance_and_args) w1)
                else (GVInt 0, w1) in
              match return_type signal_query with
              | Some _ =>
                  let w3 := emit_event (Call_gjs_value_from_g_value rvalue) w2 in
                  match gjs_value_from_g_value M rvalue with
                  | None => Done (false, rval, w3)
                  | Some v => Done (negb failed, v, w3)
                  end
              | None => Done (negb failed, JSUndefined, w2)
              end
        end
    end.


(** ** Predicates and reference states used in the properties *)

(** The neighbours an instance names in the registry are live. *)
Definition links_valid (w : World) (i : ObjectInstance) : Prop :=
  (forall p, m_prev (m_instance_link i) = Some p -> is_Some (instances w !! p)) /\
  (forall n, m_next (m_instance_link i) = Some n -> is_Some (instances w !! n)).

(** What a call leaves alone outside the instances and the registry head. *)
Definition same_outside_registry (w w' : World) : Prop :=
  trace w' = trace w /\ gobjects w' = gobjects w /\
  toggle_queue w' = toggle_queue w /\ object_qdata w' = object_qdata w /\
  mem_counters w' = mem_counters w.

(** The fields of an instance once [disassociate_js_gobject] has run. *)
Definition disassociated (i : ObjectInstance) : ObjectInstance :=
  mkInstance (m_gtype i) None (mkMaybeOwned None false) (m_instance_link i) []
             (m_gobj_disposed i) true (m_uses_toggle_ref i).

(** The proper ancestors of a type in the metadata, nearest first. *)
Fixpoint ancestors (info : GIObjectInfo) : list GIObjectInfo :=
  match info with
  | mkObjectInfo _ _ _ _ _ _ _ (Some p) => p :: ancestors p
  | mkObjectInfo _ _ _ _ _ _ _ None => []
  end.

(** An instance with its registry link left out: what [link] and
    [unlink] do not touch. *)
Definition forget_link (i : ObjectInstance) : ObjectInstance :=
  with_link (mkLink None None) i.

(** * More of the bridge

    The rest of the registry (its size and its sweeps), the closures an
    instance is associated with, the draining of the toggle queue and the
    construction properties. *)

(** ** Size and sweeps of the registry *)

(** [GjsListLink::size], started at the link of [elem]: the loop follows
    the [m_next] pointers and stops at the first null one.  [fuel] bounds
    the number of iterations; [None] when it does not suffice. *)
Fixpoint list_link_size (fuel : nat) (elem : InstancePtr) (count : nat) (w : World)
  : option (result nat) :=
  match fuel with
  | O => None
  | S fuel' =>
      match deref w elem with
      | Abort f => Some (Abort f)
      | Done i =>
          match m_next (m_instance_link i) with
          | None => Some (Done (S count))
          | Some next => list_link_size fuel' next (S count) w
          end
      end
  end.

(** [iterate_wrapped_gobjects]: the [while (link)] loop, which reads
    [link->next()] before it runs the action on [link].  The action works
    on a state [S] that holds the world (for the lambda of
    [remove_wrapped_gobjects_if], the world and the vector [removed]).
    [fuel] bounds the number of iterations. *)
Fixpoint iterate_from {S : Type} (world_of : S -> World)
    (action : InstancePtr -> S -> result S) (fuel : nat)
    (link : option InstancePtr) (s : S) : option (result S) :=
  match link with
  | None => Some (Done s)
  | Some l =>
      match fuel with
      | O => None
      | S fuel' =>
          match deref (world_of s) l with
          | Abort f => Some (Abort f)
          | Done i =>
              let next := m_next (m_instance_link i) in
              match action l s with
              | Abort f => Some (Abort f)
              | Done s' => iterate_from world_of action fuel' next s'
              end
          end
      end
  end.

Definition iterate_wrapped_gobjects {S : Type} (world_of : S -> World)
    (action : InstancePtr -> S -> result S) (fuel : nat) (s : S)
  : option (result S) :=
  iterate_from world_of action fuel (wrapped_gobject_list (world_of s)) s.

(** The lambda of [remove_wrapped_gobjects_if]: an instance the
    predicate accepts is noted in [removed] and unlinked. *)
Definition remove_if_step (predicate : InstancePtr -> World -> result (bool * World))
    (link : InstancePtr) (s : list InstancePtr * World)
  : result (list InstancePtr * World) :=
  let '(removed, w) := s in
  '(accepted, w1) ← predicate link w;
  if accepted : bool then
    w2 ← unlink link w1;
    Done (removed ++ [link], w2)
  else Done (removed, w1).

(** The second loop of [remove_wrapped_gobjects_if]:
    [for (priv : removed) action(priv)]. *)
Fixpoint run_actions (action : InstancePtr -> World -> result World)
    (removed : list InstancePtr) (w : World) : result World :=
  match removed with
  | [] => Done w
  | priv :: rest =>
      w1 ← action priv w;
      run_actions action rest w1
  end.

Definition remove_wrapped_gobjects_if
    (predicate : InstancePtr -> World -> result (bool * World))
    (action : InstancePtr -> World -> result World) (fuel : nat) (w : World)
  : option (result World) :=
  match iterate_wrapped_gobjects snd (remove_if_step predicate) fuel ([], w) with
  | None => None
  | Some (Abort f) => Some (Abort f)
  | Some (Done (removed, w1)) => Some (run_actions action removed w1)
  end.

(** [std::mem_fn(&ObjectInstance::wrapper_is_rooted)] as a predicate of
    the sweep. *)
Definition wrapper_is_rooted_pred (this : InstancePtr) (w : World)
  : result (bool * World) :=
  i ← deref w this;
  Done (wrapper_is_rooted i, w).

Definition prepare_shutdown (fuel : nat) (w : World) : option (result World) :=
  remove_wrapped_gobjects_if wrapper_is_rooted_pred release_native_object fuel w.

Definition update_heap_wrapper_weak_pointers (dying : JSObjectPtr -> bool)
    (fuel : nat) (w : World) : option (result World) :=
  remove_wrapped_gobjects_if (weak_pointer_was_finalized dying)
    disassociate_js_gobject fuel w.

Definition context_dispose_notify (fuel : nat) (w : World) : option (result World) :=
  iterate_wrapped_gobjects (fun w => w) handle_context_dispose fuel w.

(** ** What the registry represents

    The intrusive list, read off the [m_prev] and [m_next] pointers: a
    segment [l] entered from [prev] and left towards [next]. *)

Definition head_or {A} (next : option A) (l : list A) : option A :=
  match l with
  | [] => next
  | x :: _ => Some x
  end.

Fixpoint last_or {A} (prev : option A) (l : list A) : option A :=
  match l with
  | [] => prev
  | x :: rest => last_or (Some x) rest
  end.

Fixpoint segment (m : gmap InstancePtr ObjectInstance) (prev : option InstancePtr)
    (l : list InstancePtr) (next : option InstancePtr) : Prop :=
  match l with
  | [] => True
  | x :: rest =>
      (exists i, m !! x = Some i /\
                 m_prev (m_instance_link i) = prev /\
                 m_next (m_instance_link i) = head_or next rest) /\
      segment m (Some x) rest next
  end.

(** The registry of [w] is the list [l], head first. *)
Definition registry (w : World) (l : list InstancePtr) : Prop :=
  wrapped_gobject_list w = head l /\ NoDup l /\ segment (instances w) None l None.

(** The instance is in no list. *)
Definition unlinked (i : ObjectInstance) : Prop :=
  m_instance_link i = mkLink None None.

(** What [GjsListLink::prepend] and [GjsListLink::unlink] write into a
    neighbour's link. *)
Definition set_next_of (n : option InstancePtr) (i : ObjectInstance) : ObjectInstance :=
  with_link (mkLink (m_prev (m_instance_link i)) n) i.
Definition set_prev_of (p : option InstancePtr) (i : ObjectInstance) : ObjectInstance :=
  with_link (mkLink p (m_next (m_instance_link i))) i.

(** A write through a pointer that may be null. *)
Definition opt_alter (f : ObjectInstance -> ObjectInstance) (o : option InstancePtr)
    (m : gmap InstancePtr ObjectInstance) : gmap InstancePtr ObjectInstance :=
  match o with
  | Some k => alter f k m
  | None => m
  end.

(** The instances after [GjsListLink::unlink] of the instance [x], whose
    fields before the call are [i]. *)
Definition unlinked_map (x : InstancePtr) (i : ObjectInstance)
    (m : gmap InstancePtr ObjectInstance) : gmap InstancePtr ObjectInstance :=
  alter (with_link (mkLink None None)) x
    (opt_alter (set_prev_of (m_prev (m_instance_link i))) (m_next (m_instance_link i))
       (opt_alter (set_next_of (m_next (m_instance_link i))) (m_prev (m_instance_link i)) m)).

(** ** What a sweep of the registry does to an instance

    [selected dec m x]: the sweep unlinks [x], by the test [dec] on its
    fields in [m].  [visited g c i]: the fields of [i], links apart, once
    the sweep has (for [c]) gone over it with [g]. *)
Definition selected (dec : ObjectInstance -> bool)
    (m : gmap InstancePtr ObjectInstance) (x : InstancePtr) : bool :=
  match m !! x with
  | Some i => dec i
  | None => false
  end.

Definition visited (g : ObjectInstance -> ObjectInstance) (c : bool)
    (i : ObjectInstance) : ObjectInstance :=
  forget_link (if c then g i else i).

(** The fields [release_native_object] leaves: no wrapper, no native
    object. *)
Definition released (i : ObjectInstance) : ObjectInstance :=
  with_ptr None (discard_wrapper i).

(** What [handle_context_dispose] does to the fields of an instance. *)
Definition unrooted_by_dispose (i : ObjectInstance) : ObjectInstance :=
  if wrapper_is_rooted i then discard_wrapper i else i.

(** The verdict of [weak_pointer_was_finalized] on the fields of an
    instance, and what the call leaves in them. *)
Definition swept_by_gc (dying : JSObjectPtr -> bool) (i : ObjectInstance) : bool :=
  has_wrapper i && negb (wrapper_is_rooted i) && fst (update_after_gc dying i).

Definition updated_by_gc (dying : JSObjectPtr -> bool) (i : ObjectInstance)
  : ObjectInstance :=
  if has_wrapper i && negb (wrapper_is_rooted i) then snd (update_after_gc dying i)
  else i.

(** ** Closures of an instance *)

(** [associate_closure], for an instance.  The invalidation notifier it
    installs on the closure is run by [g_closure_invalidate]
    ([closure_invalidated_notify]). *)
Definition associate_closure (this : InstancePtr) (closure : GClosurePtr) (w : World)
  : result World :=
  w1 ← ensure_uses_toggle_ref this w;
  i ← deref w1 this;
  _ ← g_assert "This closure was already associated with this object"
        (negb (existsb (Pos.eqb closure) (m_closures i)));
  Done (update this (with_closures (closure :: m_closures i)) w1).

(** ** Draining the toggle queue *)

Definition inspect {A} (a : A) : {b : A | a = b} := exist _ a eq_refl.

(** [gjs_object_clear_toggles]: [while
    (toggle_queue.handle_toggle(toggle_handler));]. *)
Equations? gjs_object_clear_toggles (w : World) : result World
  by wf (length (ToggleQueue.q (toggle_queue w))) lt :=
  gjs_object_clear_toggles w
    with inspect (ToggleQueue.handle_toggle (toggle_queue w)) := {
    | exist _ None _ => Done w
    | exist _ (Some (item, tq)) Hpop
        with inspect (toggle_handler (ToggleQueue.gobj item)
                        (ToggleQueue.direction item) (with_toggle_queue tq w)) := {
        | exist _ (Abort f) _ => Abort f
        | exist _ (Done w1) Hrun => gjs_object_clear_toggles w1 } }.
Proof.
  assert (Hq : toggle_queue w1 = tq).
  { revert Hrun. unfold toggle_handler, on_instance_of, for_gobject,
      check_js_object_finalized, toggle_up, toggle_down, deref,
      switch_to_rooted, switch_to_unrooted, g_object_get_qdata, g_assert.
    intros Hrun. cbn [mbind result_bind] in Hrun.
    repeat match type of Hrun with
           | context [match ?x with _ => _ end] => destruct x eqn:?; simpl in Hrun
           end.
    all: try discriminate Hrun.
    all: injection Hrun as <-; reflexivity. }
  rewrite Hq. clear Hrun Hq.
  unfold ToggleQueue.handle_toggle in Hpop.
  destruct (ToggleQueue.q (toggle_queue w)) as [|first rest]; [discriminate|].
  injection Hpop as _ <-. simpl. lia.
Qed.

Definition gjs_object_shutdown_toggle_queue (w : World) : World :=
  with_toggle_queue (ToggleQueue.shutdown (toggle_queue w)) w.

(** ** Construction properties *)

(** A property key: a string, or something else (a symbol, an index). *)
Inductive jsid : Type :=
| JSID_String (s : string)
| JSID_Other (shown : string).

(** The [for] loop of [props_to_g_parameters].  Each enumerated key
    comes with what [JS_GetPropertyById] gives for it, [None] when that
    call fails. *)
Fixpoint props_to_g_parameters_loop (T : TypeSystem) (M : Marshaller) (cx : JSContext)
    (this : GType) (ids : list (jsid * option JSValue))
    (names : list string) (values : list GValue) (w : World)
  : result (bool * list string * list GValue * World) :=
  match ids with
  | [] => Done (true, names, values, w)
  | (prop_id, got) :: rest =>
      proto ← deref_proto w this;
      match prop_id with
      | JSID_Other shown =>
          Done (false, names, values,
                gjs_throw (NonexistentField (p_gtype proto) shown) w)
      | JSID_String js_prop_name =>
          '(param_spec, w1) ← find_param_spec_from_id T cx this js_prop_name w;
          match param_spec with
          | None => Done (false, names, values, w1)
          | Some param_spec =>
              match got with
              | None => Done (false, names, values, w1)
              | Some JSUndefined =>
                  Done (false, names, values,
                        gjs_throw (OtherError
                                     ("Invalid value 'undefined' for property "
                                      +:+ pspec_name param_spec
                                      +:+ " in object initializer.")) w1)
              | Some value =>
                  if negb (has_flag (pspec_flags param_spec) G_PARAM_WRITABLE) then
                    Done (false, names, values,
                          gjs_throw (ReadOnlyField (p_gtype proto)
                                       (pspec_name param_spec)) w1)
                  else
                    let w2 := emit_event (Call_gjs_value_to_g_value value) w1 in
                    match gjs_value_to_g_value M value (pspec_value_type param_spec) with
                    | None => Done (false, names, values, w2)
                    | Some gvalue =>
                        props_to_g_parameters_loop T M cx this rest
                          (names ++ [pspec_name param_spec]) (values ++ [gvalue]) w2
                    end
              end
          end
      end
  end.

(** [props_to_g_parameters]; [enumerate] is [JS_Enumerate] on the
    object given as first argument, [None] when it fails. *)
Definition props_to_g_parameters (T : TypeSystem) (M : Marshaller) (cx : JSContext)
    (enumerate : JSObjectPtr -> option (list (jsid * option JSValue)))
    (this : GType) (args : list JSValue)
    (names : list string) (values : list GValue) (w : World)
  : result (bool * list string * list GValue * World) :=
  match args with
  | [] => Done (true, names, values, w)
  | JSUndefined :: _ => Done (true, names, values, w)
  | JSObject props :: _ =>
      match enumerate props with
      | None =>
          Done (false, names, values,
                gjs_throw (OtherError
                             "Failed to create property iterator for object props hash") w)
      | Some ids => props_to_g_parameters_loop T M cx this ids names values w
      end
  | _ :: _ =>
      Done (false, names, values,
            gjs_throw (OtherError "argument should be a hash with props to set") w)
  end.

(** ** Predicates used in the properties *)

(** A byte of [A-Za-z0-9-]. *)
Definition is_canonical_char (c : ascii) : bool :=
  Ascii.eqb c "-" || in_range "0" "9" c || in_range "A" "Z" c || in_range "a" "z" c.

(** Every byte of the string passes the test. *)
Fixpoint string_forallb (p : ascii -> bool) (s : string) : bool :=
  match s with
  | EmptyString => true
  | String c rest => p c && string_forallb p rest
  end.

(** The calls of [g_signal_emitv] in a trace. *)
Definition is_emitv (e : event) : bool :=
  match e with
  | Call_g_signal_emitv _ _ _ => true
  | _ => false
  end.

(** The signal arguments converted one by one with the converter that
    the loop of [emit_impl] picks for each parameter ([_no_copy] for a
    static-scope parameter); [None] when one of them does not convert. *)
Fixpoint convert_all (M : Marshaller) (params : list (GType * bool))
    (args : list JSValue) : option (list GValue) :=
  match params with
  | [] => Some []
  | (type, static_scope) :: params' =>
      let arg := default JSUndefined (head args) in
      match (if static_scope : bool then gjs_value_to_g_value_no_copy M arg type
             else gjs_value_to_g_value M arg type) with
      | None => None
      | Some v =>
          match convert_all M params' (tail args) with
          | None => None
          | Some vs => Some (v :: vs)
          end
      end
  end.

(** What a resolution may do to the world: nothing, or define the one
    property [name] on [obj]. *)
Definition defines_at_most (obj : JSObjectPtr) (name : string) (r : option bool)
    (w w' : World) : Prop :=
  instances w' = instances w /\ gobjects w' = gobjects w /\
  (forall o, o <> obj -> js_objects w' !! o = js_objects w !! o) /\
  match r with
  | Some true =>
      exists p, own_properties obj w' = <[name := p]> (own_properties obj w)
  | Some false => w' = w
  | None => js_objects w' = js_objects w
  end.

(** What a run of the loop of [props_to_g_parameters] over [n_ids] keys
    may leave in the two vectors. *)
Definition props_outcome (n_ids : nat) (names : list string) (values : list GValue)
    (w : World) (r : bool * list string * list GValue * World) : Prop :=
  let '(ok, names', values', w') := r in
  exists added_names added_values,
    names' = names ++ added_names /\ values' = values ++ added_values /\
    length added_names = length added_values /\
    (length added_names <= n_ids)%nat /\
    (ok = true <-> length added_names = n_ids) /\
    instances w' = instances w /\ gobjects w' = gobjects w.

(** The prototype of [this] hands a lookup of [key] on to the prototype
    of [next]: it belongs to a class defined in JS whose parent type is
    [next], or to an introspected class that has not cached [key] and
    whose parent in the metadata has the type [next]. *)
Definition defers (T : TypeSystem) (w : World) (key : string) (this next : GType)
  : Prop :=
  exists proto,
    prototypes w !! this = Some proto /\ is_Some (prototypes w !! next) /\
    ((m_info proto = None /\ g_type_parent T (p_gtype proto) = Some next) \/
     (exists info declared_parent,
        m_info proto = Some info /\ m_field_cache proto !! key = None /\
        g_object_info_get_parent info = Some declared_parent /\
        info_gtype declared_parent = next)).

Fixpoint defers_along (T : TypeSystem) (w : World) (key : string) (this : GType)
    (chain : list GType) (holder : GType) : Prop :=
  match chain with
  | [] => this = holder
  | next :: rest => defers T w key this next /\ defers_along T w key next rest holder
  end.

(** * Example states

    Concrete counters, worlds and metadata on which the properties
    below are exercised. *)

(** A report on three live objects that add up, with no request to die. *)
Definition three_objects : Mem.Counters :=
  fun c =>
    match c with
    | Mem.everything => 3
    | Mem.object_instance => 2
    | Mem.closure => 1
    | _ => 0
    end.


(** An instance that wraps native object 5 through a toggle reference
    and is rooted, alone in the registry. *)
Definition rooted_instance : ObjectInstance :=
  mkInstance 7%positive (Some 5%positive)
    (mkMaybeOwned (Some 200%positive) true) (mkLink None None)
    [] false false true.

Definition world_with_queue (items : list ToggleQueue.Item) : World :=
  mkWorld (fun _ => 0) false (ToggleQueue.mk items false)
    {[ 5%positive := 1%positive ]}
    {[ 1%positive := rooted_instance ]}
    (Some 1%positive) true
    {[ 5%positive := mkGObject 2 7%positive ∅ ∅ ]}
    ∅ ∅ [].

(** The same world with a DOWN, respectively an UP, queued for object 5
    from another thread. *)
Definition down_queued_world : World :=
  world_with_queue [ToggleQueue.mkItem 5%positive ToggleQueue.DOWN].

Definition up_queued_world : World :=
  world_with_queue [ToggleQueue.mkItem 5%positive ToggleQueue.UP].

(** A world that holds native object 5 of type 7 and no wrapper yet, and
    an engine that knows the prototype of every type. *)
Definition unwrapped_world : World :=
  mkWorld (fun _ => 0) false (ToggleQueue.mk [] false) ∅ ∅ None false
    {[ 5%positive := mkGObject 1 7%positive ∅ ∅ ]} ∅ ∅ [].

Definition obliging_context : JSContext :=
  mkContext (fun _ => Some 100%positive) (fun _ _ => Some 200%positive)
            false false false false.

(** Metadata of a small hierarchy: Widget declares the virtual function
    show; Button derives from it and has a readable array field, a
    readable scalar field that is also writable, and a read-only one. *)
Definition widget_info : GIObjectInfo :=
  mkObjectInfo "Widget" 10%positive [] [mkProperty "name"] []
    [mkVFunc "show" "Widget"] [] None.

Definition items_field : GIFieldInfo :=
  mkField "items" GI_FIELD_IS_READABLE GI_TYPE_TAG_ARRAY.
Definition flags_field : GIFieldInfo :=
  mkField "flags" (Z.lor GI_FIELD_IS_READABLE GI_FIELD_IS_WRITABLE) GI_TYPE_TAG_UINT32.
Definition serial_field : GIFieldInfo :=
  mkField "serial" GI_FIELD_IS_READABLE GI_TYPE_TAG_UINT32.

Definition button_info : GIObjectInfo :=
  mkObjectInfo "Button" 11%positive [items_field; flags_field; serial_field]
    [mkProperty "label"] [mkFunction "click" GI_FUNCTION_IS_METHOD] [] []
    (Some widget_info).

Definition label_pspec : GParamSpec :=
  mkParamSpec "label" (Z.lor G_PARAM_READABLE G_PARAM_WRITABLE) 64%positive false.
Definition name_pspec : GParamSpec :=
  mkParamSpec "name" G_PARAM_READABLE 64%positive false.
Definition overridden_pspec : GParamSpec :=
  mkParamSpec "overridden" (Z.lor G_PARAM_READABLE G_PARAM_WRITABLE) 64%positive true.

(** A type system in which Button inherits show unchanged, has the three
    properties above and the signal clicked with two parameters. *)
Definition example_types : TypeSystem :=
  mkTypeSystem
    (fun t => if decide (t = 11%positive) then Some 10%positive else None)
    (fun _ => [])
    (fun _ => None)
    (fun _ name =>
       if streq name "label" then Some label_pspec
       else if streq name "name" then Some name_pspec
       else if streq name "overridden" then Some overridden_pspec
       else None)
    (fun _ _ => Some 4096)
    (fun name _ => if streq name "clicked" then Some (1%positive, 0) else None)
    (fun _ => mkSignalQuery [(24%positive, false); (64%positive, false)] None)
    (fun _ _ => GVInt 0)
    (fun s => s).

(** The same, with Button overriding show. *)
Definition overriding_types : TypeSystem :=
  mkTypeSystem
    (g_type_parent example_types) (g_type_interfaces example_types)
    (g_irepository_find_by_gtype example_types)
    (g_object_class_find_property example_types)
    (fun _ t => if decide (t = Some 11%positive) then Some 8192 else Some 4096)
    (g_signal_parse_name example_types) (g_signal_query example_types)
    (g_signal_emitv_return example_types) (gjs_hyphen_from_camel example_types).

Definition example_marshaller : Marshaller :=
  mkMarshaller
    (fun v _ => match v with
                | JSNumber z => Some (GVInt z)
                | JSString s => Some (GVString s)
                | JSBoolean b => Some (GVBoolean b)
                | _ => None
                end)
    (fun v _ => match v with
                | JSNumber z => Some (GVInt z)
                | JSString s => Some (GVString s)
                | JSBoolean b => Some (GVBoolean b)
                | _ => None
                end)
    (fun g => match g with
              | GVInt z => Some (JSNumber z)
              | GVString s => Some (JSString s)
              | GVBoolean b => Some (JSBoolean b)
              | GVObject _ => None
              end)
    (fun _ g => match g with
                | GVInt z => Some (JSNumber z)
                | GVString s => Some (JSString s)
                | GVBoolean b => Some (JSBoolean b)
                | GVObject _ => None
                end).

(** A Button (native object 5) wrapped by instance 1; the prototype
    objects of Button and Widget are 300 and 301, with nothing defined on
    them yet. *)
Definition button_instance : ObjectInstance :=
  mkInstance 11%positive (Some 5%positive)
    (mkMaybeOwned (Some 200%positive) false) (mkLink None None)
    [] false false false.

Definition button_world : World :=
  mkWorld (fun _ => 0) false (ToggleQueue.mk [] false)
    {[ 5%positive := 1%positive ]}
    {[ 1%positive := button_instance ]}
    (Some 1%positive) true
    {[ 5%positive :=
         mkGObject 1 11%positive
           {[ "label" := GVString "ok"; "name" := GVString "b1";
              "overridden" := GVInt 0 ]}
           {[ "flags" := GVInt 3; "serial" := GVInt 42 ]} ]}
    {[ 11%positive := mkPrototype 11%positive (Some button_info) ∅ ∅;
       10%positive := mkPrototype 10%positive (Some widget_info) ∅ ∅ ]}
    {[ 300%positive := ∅; 301%positive := ∅ ]}
    [].

(** The world once the three fields of Button have been resolved. *)
Definition button_world_resolved : World :=
  with_prototypes
    (<[ 11%positive :=
          mkPrototype 11%positive (Some button_info) ∅
            {[ "items" := items_field; "flags" := flags_field;
               "serial" := serial_field ]} ]> (prototypes button_world))
    button_world.
(** ** A registry of three

    Instances 3, 2 and 1 are registered in this order, 3 at the head.
    Instances 1 and 3 hold their native objects by a toggle reference and
    root their wrappers; instance 2 holds a weak wrapper.  Instance 1 has
    two closures.  Instance 4 is new (no native object, no wrapper, in
    no list), and instance 9 wraps a native object that has been
    disposed. *)
Definition first_registered : ObjectInstance :=
  mkInstance 7%positive (Some 5%positive)
    (mkMaybeOwned (Some 201%positive) true) (mkLink (Some 2%positive) None)
    [41%positive; 42%positive] false false true.

Definition second_registered : ObjectInstance :=
  mkInstance 7%positive (Some 6%positive)
    (mkMaybeOwned (Some 202%positive) false) (mkLink (Some 3%positive) (Some 1%positive))
    [] false false false.

Definition third_registered : ObjectInstance :=
  mkInstance 7%positive (Some 7%positive)
    (mkMaybeOwned (Some 203%positive) true) (mkLink None (Some 2%positive))
    [] false false true.

Definition new_instance : ObjectInstance :=
  mkInstance 7%positive None (mkMaybeOwned None false) (mkLink None None)
    [] false false false.

Definition disposed_instance : ObjectInstance :=
  mkInstance 11%positive (Some 9%positive)
    (mkMaybeOwned (Some 209%positive) false) (mkLink None None)
    [] true false false.

Definition registry_world : World :=
  mkWorld (fun _ => 0) false (ToggleQueue.mk [] false)
    {[ 5%positive := 1%positive; 6%positive := 2%positive; 7%positive := 3%positive ]}
    {[ 1%positive := first_registered; 2%positive := second_registered;
       3%positive := third_registered; 4%positive := new_instance;
       9%positive := disposed_instance ]}
    (Some 3%positive) false
    {[ 5%positive := mkGObject 2 7%positive ∅ ∅;
       6%positive := mkGObject 1 7%positive ∅ ∅;
       7%positive := mkGObject 2 7%positive ∅ ∅;
       8%positive := mkGObject 1 7%positive ∅ ∅ ]}
    ∅ ∅ [].

(** The same registry when native code holds the native object of the
    second instance as well: its reference count is 2, so the reference
    of the instance is not the last one. *)
Definition shared_registry_world : World :=
  with_gobjects
    (<[ 6%positive := mkGObject 2 7%positive ∅ ∅ ]> (gobjects registry_world))
    registry_world.

(** A collection in which every weakly held wrapper dies. *)
Definition all_dying : JSObjectPtr -> bool := fun _ => true.

(** A native object (5) whose instance outlived its wrapper: the wrapper
    was finalized while the instance held a toggle reference. *)
Definition outlived_instance : ObjectInstance :=
  mkInstance 7%positive (Some 5%positive) (mkMaybeOwned None false) (mkLink None None)
    [] false true true.

Definition resurfacing_world : World :=
  mkWorld (fun _ => 0) false (ToggleQueue.mk [] false)
    {[ 5%positive := 1%positive ]}
    {[ 1%positive := outlived_instance ]}
    None true
    {[ 5%positive := mkGObject 1 7%positive ∅ ∅ ]}
    ∅ ∅ [].

(** The hash [{ label: "go" }] given to a constructor, as the engine
    enumerates it. *)
Definition label_hash (props : JSObjectPtr) : option (list (jsid * option JSValue)) :=
  Some [(JSID_String "label", Some (JSString "go"))].

(** The world of the Button in which the prototype of Widget has cached
    the descriptor of a field named serial. *)
Definition inherited_world : World :=
  with_prototypes
    (<[ 10%positive :=
          mkPrototype 10%positive (Some widget_info) ∅ {[ "serial" := serial_field ]} ]>
       (prototypes button_world))
    button_world.

(** A world in which the native object of the button holds [held] as
    its label, whatever was handed to it. *)
Definition button_labelled (held : GValue) (w : World) : World :=
  with_gobjects
    (alter (fun g => mkGObject (ref_count g) (g_type_instance g)
                       (<[ "label" := held ]> (g_properties g)) (g_fields g))
           5%positive (gobjects w)) w.
(** * Properties *)

(** ** The memory report *)

Section MemoryReport.

Import Mem.

Lemma wrap_int_in_range (z : Z) : in_int z -> wrap_int z = z.
Proof.
  unfold in_int, wrap_int, INT_MIN, INT_MAX. intros H.
  rewrite Z.mod_small; lia.
Qed.

Lemma sum_counters_exact (v : Counters) (cs : list Counter) (total : Z) :
  no_overflow v cs total ->
  sum_counters v cs total = total + fold_right (fun c acc => v c + acc) 0 cs.
Proof.
  revert total. induction cs as [|c cs IH]; intros total H; simpl.
  - lia.
  - destruct H as [Hc Hrest]. unfold int_add.
    rewrite (wrap_int_in_range _ Hc), (IH _ Hrest). lia.
Qed.

Lemma counter_lines_no_warning (v : Counters) (cs : list Counter) :
  ~ In CountsDontAddUp (map (fun c => CounterLine (counter_name c) (v c)) cs).
Proof.
  intros H. apply in_map_iff in H. destruct H as [c [Hc _]]. discriminate.
Qed.

(** C9: the report warns exactly when the category counters do not sum
    to the "everything" counter, aborts exactly when asked to die on
    leaks while "everything" is positive, and returns normally in every
    other case.  The counters are C ints; the sum is taken where the
    additions of the loop do not overflow. *)
Theorem gjs_memory_report_outcome (v : Counters) (where_ : string) (die_if_leaks : bool) :
  no_overflow v counters 0 ->
  (In CountsDontAddUp (fst (gjs_memory_report v where_ die_if_leaks))
     <-> category_sum v <> v everything) /\
  (is_fatal (snd (gjs_memory_report v where_ die_if_leaks)) = true
     <-> die_if_leaks = true /\ v everything > 0) /\
  (~ (die_if_leaks = true /\ v everything > 0) ->
     snd (gjs_memory_report v where_ die_if_leaks) = Done tt).
Proof.
  intros Hno.
  pose proof (sum_counters_exact v counters 0 Hno) as Hsum.
  change (fold_right _ 0 counters) with (category_sum v) in Hsum.
  rewrite Z.add_0_l in Hsum.
  unfold gjs_memory_report, GJS_GET_COUNTER. rewrite Hsum.
  pose proof (counter_lines_no_warning v counters) as Hlines.
  split; [|split].
  - destruct (decide (category_sum v <> v everything)) as [Hne|Heq];
      destruct (decide (v everything > 0)); destruct die_if_leaks; simpl;
      rewrite ?in_app_iff; simpl; split; intros H; try tauto;
      try (exfalso; apply Heq; exact H);
      repeat (destruct H as [H|H]; try discriminate H; try tauto).
  - destruct (decide (v everything > 0)); destruct die_if_leaks; simpl;
      split; intros H; try discriminate H; try tauto; destruct H; try discriminate; tauto.
  - intros Hnot.
    destruct (decide (v everything > 0)); destruct die_if_leaks; simpl;
      try reflexivity; exfalso; apply Hnot; tauto.
Qed.

End MemoryReport.

Lemma gjs_memory_report_outcome_witness :
  Mem.no_overflow three_objects Mem.counters 0 /\
  (In Mem.CountsDontAddUp (fst (Mem.gjs_memory_report three_objects "shutdown" false))
     <-> Mem.category_sum three_objects <> three_objects Mem.everything) /\
  (is_fatal (snd (Mem.gjs_memory_report three_objects "shutdown" false)) = true
     <-> false = true /\ three_objects Mem.everything > 0) /\
  (~ (false = true /\ three_objects Mem.everything > 0) ->
     snd (Mem.gjs_memory_report three_objects "shutdown" false) = Done tt).
Proof.
  assert (H : Mem.no_overflow three_objects Mem.counters 0).
  { simpl. unfold in_int, INT_MIN, INT_MAX. repeat split; lia. }
  split; [exact H|].
  apply (gjs_memory_report_outcome three_objects "shutdown" false H).
Defined.

(** ** Toggle notifications on the owning thread *)

Section ToggleNotify.

Import ToggleQueue.

Lemma enqueue_appends (tq : ToggleQueue.t) (o : GObjectPtr) (d : Direction) :
  m_shutdown tq = false -> q (enqueue tq o d) = q tq ++ [mkItem o d].
Proof. intros H. unfold enqueue. rewrite H. reflexivity. Qed.

Lemma is_queued_enqueue (tq : ToggleQueue.t) (o : GObjectPtr) (d : Direction) :
  m_shutdown tq = false ->
  is_queued (enqueue tq o d) o =
    (fst (is_queued tq o) || bool_decide (d = DOWN),
     snd (is_queued tq o) || bool_decide (d = UP)).
Proof.
  intros H. unfold is_queued. rewrite (enqueue_appends _ _ _ H).
  rewrite !existsb_app. simpl. unfold item_is. simpl.
  rewrite bool_decide_eq_true_2 by reflexivity.
  rewrite !orb_false_r. reflexivity.
Qed.

(** C1, as the code has it: on the owning thread, outside context
    teardown, an UP notification for an object with a DOWN already queued
    is put on the queue behind it and nothing is applied inline; a DOWN
    notification for an object with anything queued, and an UP
    notification for an object with only an UP queued, abort the process
    with the double-queue diagnostic. *)
Theorem toggle_notify_while_queued (w : World) (gobj : GObjectPtr) :
  destroying w = false ->
  (fst (is_queued (toggle_queue w) gobj) = true ->
     wrapped_gobj_toggle_notify true gobj false w
       = Done (with_toggle_queue (enqueue (toggle_queue w) gobj UP) w)
     /\ (m_shutdown (toggle_queue w) = false ->
           q (enqueue (toggle_queue w) gobj UP) = q (toggle_queue w) ++ [mkItem gobj UP]))
  /\ (fst (is_queued (toggle_queue w) gobj) = false ->
      snd (is_queued (toggle_queue w) gobj) = true ->
        wrapped_gobj_toggle_notify true gobj false w
          = Abort (GError "toggling up object that's already queued to toggle up"))
  /\ (fst (is_queued (toggle_queue w) gobj) || snd (is_queued (toggle_queue w) gobj) = true ->
        wrapped_gobj_toggle_notify true gobj true w
          = Abort (GError (toggling_down_msg (snd (is_queued (toggle_queue w) gobj))
                                             (fst (is_queued (toggle_queue w) gobj))))).
Proof.
  intros Hd. unfold wrapped_gobj_toggle_notify. rewrite Hd.
  destruct (is_queued (toggle_queue w) gobj) as [down_queued up_queued]. simpl.
  split; [|split].
  - intros ->. simpl. split; [reflexivity|]. apply enqueue_appends.
  - intros -> ->. reflexivity.
  - intros H. rewrite orb_comm in H. rewrite H. reflexivity.
Qed.

End ToggleNotify.

(** C1 as stated fails: a DOWN notification on the owning thread for an
    object with a DOWN already queued is not enqueued; the process
    aborts. *)
Lemma toggle_notify_down_while_queued_aborts :
  destroying down_queued_world = false /\
  ToggleQueue.is_queued (toggle_queue down_queued_world) 5%positive = (true, false) /\
  wrapped_gobj_toggle_notify true 5%positive true down_queued_world
    = Abort (GError "toggling down object that's already queued to toggle down") /\
  wrapped_gobj_toggle_notify true 5%positive true down_queued_world
    <> Done (with_toggle_queue
               (ToggleQueue.enqueue (toggle_queue down_queued_world) 5%positive
                  ToggleQueue.DOWN) down_queued_world).
Proof.
  repeat split; try reflexivity.
  vm_compute. discriminate.
Qed.

Lemma toggle_notify_while_queued_witness :
  wrapped_gobj_toggle_notify true 5%positive false down_queued_world
    = Done (with_toggle_queue
              (ToggleQueue.enqueue (toggle_queue down_queued_world) 5%positive
                 ToggleQueue.UP) down_queued_world) /\
  wrapped_gobj_toggle_notify true 5%positive false up_queued_world
    = Abort (GError "toggling up object that's already queued to toggle up") /\
  wrapped_gobj_toggle_notify true 5%positive true up_queued_world
    = Abort (GError (toggling_down_msg true false)).
Proof.
  split; [|split].
  - apply (toggle_notify_while_queued down_queued_world 5%positive); reflexivity.
  - apply (toggle_notify_while_queued up_queued_world 5%positive); reflexivity.
  - apply (toggle_notify_while_queued up_queued_world 5%positive); reflexivity.
Defined.

(** ** Reading and writing instances *)

Section Heap.

Lemma deref_Some (w : World) (this : InstancePtr) (i : ObjectInstance) :
  instances w !! this = Some i -> deref w this = Done i.
Proof. intros H. unfold deref. rewrite H. reflexivity. Qed.

Lemma deref_Done (w : World) (this : InstancePtr) (i : ObjectInstance) :
  deref w this = Done i -> instances w !! this = Some i.
Proof. unfold deref. destruct (instances w !! this); congruence. Qed.

Lemma update_lookup (w : World) (this : InstancePtr) (f : ObjectInstance -> ObjectInstance)
    (i : ObjectInstance) :
  instances w !! this = Some i -> instances (update this f w) !! this = Some (f i).
Proof.
  intros H. unfold update. simpl. rewrite lookup_alter_eq, H. reflexivity.
Qed.

Lemma update_lookup_ne (w : World) (this other : InstancePtr)
    (f : ObjectInstance -> ObjectInstance) :
  this <> other -> instances (update this f w) !! other = instances w !! other.
Proof. intros H. unfold update. simpl. apply lookup_alter_ne. exact H. Qed.

Lemma update_is_Some (w : World) (this k : InstancePtr)
    (f : ObjectInstance -> ObjectInstance) :
  is_Some (instances (update this f w) !! k) <-> is_Some (instances w !! k).
Proof.
  destruct (decide (this = k)) as [->|Hne].
  - unfold update. simpl. rewrite lookup_alter_eq. apply fmap_is_Some.
  - rewrite update_lookup_ne by exact Hne. reflexivity.
Qed.


End Heap.

(** Running a dereference whose target is known. *)
Ltac run_deref H :=
  rewrite (deref_Some _ _ _ H); cbn [mbind result_bind].

(** ** Disassociation and finalization *)

Section Disassociation.

Lemma invalidate_loop_empties (l : list GClosurePtr) : snd (invalidate_loop l) = [].
Proof.
  funelim (invalidate_loop l).
  - reflexivity.
  - simp invalidate_loop.
    destruct (invalidate_loop _) as [invalidated remaining]. exact H.
Qed.

Lemma invalidate_all_closures_result (w : World) (this : InstancePtr) (i : ObjectInstance) :
  instances w !! this = Some i ->
  invalidate_all_closures this w =
    Done (update this (with_closures [])
            (emit_events (map Call_g_closure_invalidate (fst (invalidate_loop (m_closures i)))) w)).
Proof.
  intros H. unfold invalidate_all_closures. rewrite (deref_Some _ _ _ H). simpl.
  pose proof (invalidate_loop_empties (m_closures i)) as He.
  destruct (invalidate_loop (m_closures i)) as [inv rem]. simpl in *. subst rem. reflexivity.
Qed.



Lemma alter_as_insert {A} (m : gmap positive A) (k : positive) (f : A -> A) (x : A) :
  m !! k = Some x -> alter f k m = <[k := f x]> m.
Proof.
  intros H. apply map_eq. intros j.
  destruct (decide (k = j)) as [->|Hne].
  - rewrite lookup_alter_eq, lookup_insert_eq, H. reflexivity.
  - rewrite lookup_alter_ne, lookup_insert_ne by exact Hne. reflexivity.
Qed.

Lemma update_instances (w : World) (this : InstancePtr)
    (f : ObjectInstance -> ObjectInstance) (i : ObjectInstance) :
  instances w !! this = Some i ->
  instances (update this f w) = <[this := f i]> (instances w).
Proof. intros H. unfold update. simpl. apply alter_as_insert. exact H. Qed.

Lemma cancel_toggles_instances (o : option GObjectPtr) (w : World) :
  instances (snd (cancel_toggles o w)) = instances w.
Proof. destruct o; reflexivity. Qed.

Lemma cancel_toggles_gobjects (o : option GObjectPtr) (w : World) :
  gobjects (snd (cancel_toggles o w)) = gobjects w.
Proof. destruct o; reflexivity. Qed.

Lemma cancel_toggles_same_queue (o : option GObjectPtr) (w w0 : World) :
  toggle_queue w0 = toggle_queue w ->
  fst (cancel_toggles o w0) = fst (cancel_toggles o w).
Proof. intros H. destruct o; simpl; [rewrite H|]; reflexivity. Qed.

Lemma unset_object_qdata_spec (w : World) (this : InstancePtr) (i : ObjectInstance) :
  instances w !! this = Some i ->
  exists w', unset_object_qdata this w = Done w' /\ instances w' = instances w /\
             gobjects w' = gobjects w.
Proof.
  intros H. unfold unset_object_qdata. rewrite (deref_Some _ _ _ H). simpl.
  eexists. split; [reflexivity|]. destruct (m_ptr i); split; reflexivity.
Qed.

Lemma invalidate_all_closures_spec (w : World) (this : InstancePtr) (i : ObjectInstance) :
  instances w !! this = Some i ->
  exists w', invalidate_all_closures this w = Done w' /\
             instances w' = <[this := with_closures [] i]> (instances w) /\
             gobjects w' = gobjects w.
Proof.
  intros H. rewrite (invalidate_all_closures_result _ _ _ H).
  eexists. split; [reflexivity|]. split; [|reflexivity].
  rewrite (update_instances _ _ _ i) by exact H. reflexivity.
Qed.

Lemma g_object_unref_instances (o : option GObjectPtr) (w : World) :
  instances (g_object_unref o w) = instances w.
Proof. destruct o; reflexivity. Qed.

Lemma g_object_remove_toggle_ref_instances (o : option GObjectPtr) (w : World) :
  instances (g_object_remove_toggle_ref o w) = instances w.
Proof. destruct o; reflexivity. Qed.

Lemma release_native_object_spec (w : World) (this : InstancePtr) (i : ObjectInstance) :
  instances w !! this = Some i ->
  exists w', release_native_object this w = Done w' /\
             instances w' = <[this := with_ptr None (discard_wrapper i)]> (instances w) /\
             (m_ptr i = None -> gobjects w' = gobjects w).
Proof.
  intros H. unfold release_native_object. run_deref H.
  rewrite (deref_Some _ _ (discard_wrapper i)) by (apply update_lookup; exact H).
  cbn [mbind result_bind].
  eexists. split; [reflexivity|].
  split;
    [|intros Hnull; change (m_ptr (discard_wrapper i)) with (m_ptr i); rewrite Hnull;
      destruct (m_uses_toggle_ref (discard_wrapper i)); reflexivity].
  set (w2 := if m_uses_toggle_ref (discard_wrapper i) then _ else _).
  assert (Hw2 : instances w2 = <[this := discard_wrapper i]> (instances w)).
  { subst w2. destruct (m_uses_toggle_ref (discard_wrapper i));
      rewrite ?g_object_unref_instances, ?g_object_remove_toggle_ref_instances;
      apply update_instances; exact H. }
  rewrite (update_instances w2 this _ (discard_wrapper i))
    by (rewrite Hw2; apply lookup_insert_eq).
  rewrite Hw2. apply insert_insert_eq.
Qed.

Lemma disassociate_result (w : World) (this : InstancePtr) (i : ObjectInstance) :
  instances w !! this = Some i ->
  fst (fst (cancel_toggles (m_ptr i) w)) = snd (fst (cancel_toggles (m_ptr i) w)) ->
  exists w',
    disassociate_js_gobject this w = Done w' /\
    instances w' = <[this := disassociated i]> (instances w) /\
    (m_ptr i = None -> gobjects w' = gobjects w).
Proof.
  intros H Hsym. unfold disassociate_js_gobject.
  rewrite (deref_Some _ _ _ H). simpl.
  set (w0 := if negb (m_gobj_disposed i) then _ else w).
  assert (Hi0 : instances w0 = instances w)
    by (subst w0; destruct (m_gobj_disposed i); reflexivity).
  assert (Hq0 : toggle_queue w0 = toggle_queue w)
    by (subst w0; destruct (m_gobj_disposed i); reflexivity).
  assert (Hg0 : gobjects w0 = gobjects w)
    by (subst w0; destruct (m_gobj_disposed i); reflexivity).
  pose proof (cancel_toggles_same_queue (m_ptr i) w w0 Hq0) as Hf.
  pose proof (cancel_toggles_instances (m_ptr i) w0) as Hci.
  pose proof (cancel_toggles_gobjects (m_ptr i) w0) as Hcg.
  destruct (cancel_toggles (m_ptr i) w0) as [[hd hu] w2]. simpl in Hf, Hci, Hcg.
  rewrite <- Hf in Hsym. simpl in Hsym. subst hu.
  rewrite eqb_reflx. simpl.
  assert (H2 : instances w2 !! this = Some i) by (rewrite Hci, Hi0; exact H).
  destruct (unset_object_qdata_spec w2 this i H2) as (w3 & -> & Hi3 & Hg3). simpl.
  assert (H3 : instances w3 !! this = Some i) by (rewrite Hi3; exact H2).
  destruct (invalidate_all_closures_spec w3 this i H3) as (w4 & -> & Hi4 & Hg4). simpl.
  assert (H4 : instances w4 !! this = Some (with_closures [] i))
    by (rewrite Hi4; apply lookup_insert_eq).
  destruct (release_native_object_spec w4 this _ H4) as (w5 & -> & Hi5 & Hg5). simpl.
  assert (H5 : instances w5 !! this = Some (with_ptr None (discard_wrapper (with_closures [] i))))
    by (rewrite Hi5; apply lookup_insert_eq).
  rewrite (deref_Some _ _ _ (update_lookup _ _ _ _ H5)). simpl.
  eexists. split; [reflexivity|]. split.
  - rewrite (update_instances _ _ _ _ (update_lookup _ _ _ _ H5)).
    rewrite (update_instances _ _ _ _ H5).
    rewrite Hi5, Hi4, Hi3, Hci, Hi0.
    rewrite !insert_insert_eq. reflexivity.
  - intros Hnull. simpl. rewrite (Hg5 Hnull), Hg4, Hg3, Hcg, Hg0. reflexivity.
Qed.

Lemma same_outside_registry_refl (w : World) : same_outside_registry w w.
Proof. repeat split. Qed.

Lemma link_eta (l : GjsListLink) : mkLink (m_prev l) (m_next l) = l.
Proof. destruct l; reflexivity. Qed.

Lemma with_link_same (i : ObjectInstance) : with_link (m_instance_link i) i = i.
Proof. destruct i; reflexivity. Qed.

Lemma list_unlink_spec (w : World) (this : InstancePtr) (i : ObjectInstance) :
  instances w !! this = Some i -> links_valid w i ->
  exists w', GjsListLink.unlink this w = Done w' /\ same_outside_registry w w' /\
             wrapped_gobject_list w' = wrapped_gobject_list w.
Proof.
  intros H [Hp Hn]. unfold GjsListLink.unlink.
  run_deref H.
  set (w1r := match m_prev (m_instance_link i) with Some _ => _ | None => _ end).
  assert (H1 : exists w1, w1r = Done w1 /\ same_outside_registry w w1 /\
                wrapped_gobject_list w1 = wrapped_gobject_list w /\
                (forall k, is_Some (instances w1 !! k) <-> is_Some (instances w !! k)) /\
                exists i1, instances w1 !! this = Some i1 /\
                           m_instance_link i1 = m_instance_link i).
  { subst w1r. destruct (m_prev (m_instance_link i)) as [prev|] eqn:Eprev.
    - destruct (Hp prev eq_refl) as [ip Hip]. run_deref Hip. eexists. split; [reflexivity|].
      split; [repeat split|]. split; [reflexivity|].
      split; [intros k; apply update_is_Some|].
      destruct (decide (prev = this)) as [->|Hne].
      + eexists. split; [apply update_lookup; exact H|].
        simpl. rewrite Eprev. rewrite <- Eprev. apply link_eta.
      + exists i. split; [|reflexivity].
        unfold GjsListLink.set_next. rewrite update_lookup_ne by exact Hne. exact H.
    - eexists. split; [reflexivity|]. split; [apply same_outside_registry_refl|].
      split; [reflexivity|]. split; [reflexivity|]. exists i. split; [exact H|reflexivity]. }
  destruct H1 as (w1 & -> & Hs1 & Hh1 & Hdom & i1 & Hi1 & Hl1).
  cbn [mbind result_bind]. run_deref Hi1.
  rewrite Hl1.
  destruct (m_next (m_instance_link i)) as [next|] eqn:Enext.
  - destruct (proj2 (Hdom next) (Hn next eq_refl)) as [inx Hinx].
    run_deref Hinx.
    eexists. split; [reflexivity|]. split; [exact Hs1|exact Hh1].
  - cbn [mbind result_bind]. eexists. split; [reflexivity|]. split; [exact Hs1|exact Hh1].
Qed.

Lemma unlink_spec (w : World) (this : InstancePtr) (i : ObjectInstance) :
  instances w !! this = Some i -> links_valid w i ->
  exists w', unlink this w = Done w' /\ same_outside_registry w w'.
Proof.
  intros H Hv. unfold unlink. run_deref H.
  destruct (decide (wrapped_gobject_list w = Some this)).
  - destruct (list_unlink_spec (with_list_head (m_next (m_instance_link i)) w) this i H Hv)
      as (w' & Hu & Hs & _).
    exists w'. split; [exact Hu|exact Hs].
  - destruct (list_unlink_spec w this i H Hv) as (w' & Hu & Hs & _).
    exists w'. split; [exact Hu|exact Hs].
Qed.

Lemma links_valid_after (w w' : World) (this : InstancePtr) (i i' : ObjectInstance) :
  instances w !! this = Some i ->
  instances w' = <[this := i']> (instances w) ->
  m_instance_link i' = m_instance_link i ->
  links_valid w i -> links_valid w' i'.
Proof.
  intros H Hi Hl [Hp Hn]. unfold links_valid. rewrite Hi, Hl.
  split; intros k Hk; rewrite lookup_insert_is_Some';
    [specialize (Hp k Hk)|specialize (Hn k Hk)]; tauto.
Qed.

Lemma destructor_tail_spec (w : World) (this : InstancePtr) (i : ObjectInstance) :
  instances w !! this = Some i -> wrapper_is_rooted i = false -> links_valid w i ->
  exists w',
    (i2 ← deref w this;
     let w3 := if wrapper_is_rooted i2 then update this discard_wrapper w else w in
     w4 ← unlink this w3;
     Done (with_counters (Mem.GJS_DEC_COUNTER Mem.object_instance (mem_counters w4)) w4))
      = Done w' /\ trace w' = trace w /\ gobjects w' = gobjects w.
Proof.
  intros H Hr Hv. run_deref H. rewrite Hr.
  destruct (unlink_spec w this i H Hv) as (w4 & -> & Ht & Hg & _).
  cbn [mbind result_bind]. eexists. split; [reflexivity|]. split; [exact Ht|exact Hg].
Qed.

Lemma destructor_of_released (w : World) (this : InstancePtr) (i : ObjectInstance) :
  instances w !! this = Some i ->
  m_ptr i = None -> m_closures i = [] -> wrapper_is_rooted i = false ->
  links_valid w i ->
  exists w', ObjectInstance_destructor this w = Done w' /\
             trace w' = trace w /\ gobjects w' = gobjects w.
Proof.
  intros H Hptr Hcl Hr Hv. unfold ObjectInstance_destructor.
  rewrite (invalidate_all_closures_result _ _ _ H). rewrite Hcl.
  simp invalidate_loop. cbn [fst map mbind result_bind].
  set (w1 := update this (with_closures []) (emit_events [] w)).
  assert (H1 : instances w1 !! this = Some (with_closures [] i))
    by (subst w1; apply update_lookup; exact H).
  assert (Hi1 : instances w1 = <[this := with_closures [] i]> (instances w))
    by (subst w1; rewrite (update_instances (emit_events [] w) this _ i H); reflexivity).
  run_deref H1.
  change (m_ptr (with_closures [] i)) with (m_ptr i). rewrite Hptr.
  cbn [mbind result_bind].
  destruct (destructor_tail_spec w1 this (with_closures [] i) H1 Hr) as (w' & Hd & Ht & Hg).
  { apply (links_valid_after w w1 this i _ H Hi1 eq_refl Hv). }
  exists w'. split; [exact Hd|].
  split; [rewrite Ht|rewrite Hg]; subst w1; simpl; [apply app_nil_r|reflexivity].
Qed.

(** C3: once [disassociate_js_gobject] has run on an instance, its
    native pointer is null and its closure set empty, and finalizing the
    wrapper afterwards makes no call at all: no reference is released a
    second time, no closure is invalidated a second time, and the
    reference counts of the native heap are untouched. *)
Theorem disassociation_is_idempotent (w w1 : World) (this : InstancePtr)
    (i : ObjectInstance) :
  instances w !! this = Some i -> links_valid w i ->
  disassociate_js_gobject this w = Done w1 ->
  exists i1 w2,
    instances w1 !! this = Some i1 /\ m_ptr i1 = None /\ m_closures i1 = [] /\
    ObjectInstance_destructor this w1 = Done w2 /\
    trace w2 = trace w1 /\ gobjects w2 = gobjects w1.
Proof.
  intros H Hv Hd.
  destruct (decide (fst (fst (cancel_toggles (m_ptr i) w))
                    = snd (fst (cancel_toggles (m_ptr i) w)))) as [Hsym|Hasym].
  - destruct (disassociate_result w this i H Hsym) as (w1' & Hd' & Hi1 & _).
    rewrite Hd in Hd'. injection Hd' as <-.
    assert (H1 : instances w1 !! this = Some (disassociated i))
      by (rewrite Hi1; apply lookup_insert_eq).
    destruct (destructor_of_released w1 this (disassociated i) H1 eq_refl eq_refl eq_refl)
      as (w2 & Hd2 & Ht & Hg).
    { apply (links_valid_after w w1 this i _ H Hi1 eq_refl Hv). }
    exists (disassociated i), w2. repeat split; assumption.
  - exfalso. revert Hd. unfold disassociate_js_gobject.
    run_deref H.
    set (w0 := if negb (m_gobj_disposed i) then _ else w).
    assert (Hq0 : toggle_queue w0 = toggle_queue w)
      by (subst w0; destruct (m_gobj_disposed i); reflexivity).
    pose proof (cancel_toggles_same_queue (m_ptr i) w w0 Hq0) as Hf.
    destruct (cancel_toggles (m_ptr i) w0) as [[hd hu] w2]. simpl in Hf.
    rewrite <- Hf in Hasym. simpl in Hasym.
    destruct hd, hu; simpl; try discriminate; contradiction.
Qed.

Lemma disassociate_asymmetric (w : World) (this : InstancePtr) (i : ObjectInstance) :
  instances w !! this = Some i ->
  fst (fst (cancel_toggles (m_ptr i) w)) <> snd (fst (cancel_toggles (m_ptr i) w)) ->
  disassociate_js_gobject this w = Abort (GError pending_toggle_msg).
Proof.
  intros H Hasym. unfold disassociate_js_gobject.
  run_deref H.
  set (w0 := if negb (m_gobj_disposed i) then _ else w).
  assert (Hq0 : toggle_queue w0 = toggle_queue w)
    by (subst w0; destruct (m_gobj_disposed i); reflexivity).
  pose proof (cancel_toggles_same_queue (m_ptr i) w w0 Hq0) as Hf.
  destruct (cancel_toggles (m_ptr i) w0) as [[hd hu] w2]. simpl in Hf.
  rewrite <- Hf in Hasym. simpl in Hasym.
  destruct hd, hu; simpl; try reflexivity; contradiction.
Qed.

Lemma destructor_with_native_object (w : World) (this : InstancePtr) (i : ObjectInstance)
    (p : GObjectPtr) (g : GObject) :
  instances w !! this = Some i -> m_ptr i = Some p ->
  gobjects w !! p = Some g -> ref_count g > 0 ->
  let had := fst (cancel_toggles (Some p) w) in
  (fst had = true /\ snd had = false ->
     ObjectInstance_destructor this w = Abort (GError scheduled_unroot_msg)) /\
  (~ (fst had = true /\ snd had = false) -> links_valid w i ->
     exists w', ObjectInstance_destructor this w = Done w').
Proof.
  intros H Hptr Hg Hrc had.
  unfold ObjectInstance_destructor.
  rewrite (invalidate_all_closures_result _ _ _ H). cbn [mbind result_bind].
  set (w1 := update this (with_closures []) _).
  assert (H1 : instances w1 !! this = Some (with_closures [] i))
    by (subst w1; apply update_lookup; exact H).
  assert (Hi1 : instances w1 = <[this := with_closures [] i]> (instances w))
    by (subst w1; unfold update; simpl; apply alter_as_insert; exact H).
  run_deref H1.
  change (m_ptr (with_closures [] i)) with (m_ptr i). rewrite Hptr.
  change (gobjects w1) with (gobjects w). rewrite Hg. cbn [mbind result_bind].
  destruct (decide (ref_count g <= 0)) as [Hle|_]; [lia|].
  assert (Hf : fst (cancel_toggles (Some p) w1) = had) by reflexivity.
  pose proof (cancel_toggles_instances (Some p) w1) as Hci.
  destruct (cancel_toggles (Some p) w1) as [[hd hu] wq]. cbn [fst snd] in Hf, Hci.
  subst had. rewrite <- Hf. simpl. clear Hf.
  split.
  - intros [-> ->]. reflexivity.
  - intros Hnot Hv.
    assert (Hb : negb hu && hd = false) by (destruct hd, hu; try reflexivity; tauto).
    rewrite Hb.
    set (wu := if negb (m_gobj_disposed i) then _ else wq).
    assert (Hiu : instances wu = instances w1)
      by (subst wu; destruct (m_gobj_disposed i); simpl; exact Hci).
    assert (Hu : instances wu !! this = Some (with_closures [] i))
      by (rewrite Hiu; exact H1).
    destruct (release_native_object_spec wu this _ Hu) as (w2 & -> & Hi2 & _).
    cbn [mbind result_bind].
    assert (H2 : instances w2 !! this
                 = Some (with_ptr None (discard_wrapper (with_closures [] i))))
      by (rewrite Hi2; apply lookup_insert_eq).
    destruct (destructor_tail_spec w2 this _ H2 eq_refl) as (w' & Hd & _).
    { apply (links_valid_after w w2 this i _ H); [|reflexivity|exact Hv].
      rewrite Hi2, Hiu, Hi1. apply insert_insert_eq. }
    exists w'. exact Hd.
Qed.

(** C2, as the code has it: [disassociate_js_gobject] aborts exactly when
    one of (had_down, had_up) is true without the other.  The finalizer
    of a wrapper that still holds a live native object aborts when a DOWN
    was pending without an UP, and goes on with the teardown in every
    other case, a pending UP alone included. *)
Theorem toggle_cancel_consistency (w : World) (this : InstancePtr) (i : ObjectInstance) :
  instances w !! this = Some i ->
  let had := fst (cancel_toggles (m_ptr i) w) in
  (fst had <> snd had ->
     disassociate_js_gobject this w = Abort (GError pending_toggle_msg)) /\
  (fst had = snd had -> exists w', disassociate_js_gobject this w = Done w') /\
  (forall p g, m_ptr i = Some p -> gobjects w !! p = Some g -> ref_count g > 0 ->
     (fst had = true /\ snd had = false ->
        ObjectInstance_destructor this w = Abort (GError scheduled_unroot_msg)) /\
     (~ (fst had = true /\ snd had = false) -> links_valid w i ->
        exists w', ObjectInstance_destructor this w = Done w')).
Proof.
  intros H had. split; [|split].
  - apply disassociate_asymmetric. exact H.
  - intros Hsym. destruct (disassociate_result w this i H Hsym) as (w' & Hd & _).
    exists w'. exact Hd.
  - intros p g Hptr Hg Hrc. subst had. rewrite Hptr.
    apply (destructor_with_native_object w this i p g H Hptr Hg Hrc).
Qed.

End Disassociation.

(** Running [disassociate_js_gobject] itself a second time releases
    nothing either: the instance and the native heap stay as the first
    run left them. *)
Lemma second_disassociation_releases_nothing (w : World) (this : InstancePtr)
    (i : ObjectInstance) :
  instances w !! this = Some (disassociated i) ->
  exists w2,
    disassociate_js_gobject this w = Done w2 /\
    instances w2 = instances w /\ gobjects w2 = gobjects w.
Proof.
  intros H.
  destruct (disassociate_result w this (disassociated i) H eq_refl) as (w2 & Hd & Hi & Hg).
  exists w2. split; [exact Hd|]. split.
  - rewrite Hi. apply insert_id. exact H.
  - apply Hg. reflexivity.
Qed.

(** After disassociation the sweep no longer selects the instance. *)
Lemma disassociated_not_swept (dying : JSObjectPtr -> bool) (w : World)
    (this : InstancePtr) (i : ObjectInstance) :
  instances w !! this = Some (disassociated i) ->
  weak_pointer_was_finalized dying this w = Done (false, w).
Proof.
  intros H. unfold weak_pointer_was_finalized. rewrite (deref_Some _ _ _ H). reflexivity.
Qed.

(** C2 as stated fails on the finalization path: with only an UP pending
    for the native object, exactly one of the two results is true, and
    the finalizer completes. *)
Lemma finalizer_tolerates_pending_up :
  fst (cancel_toggles (Some 5%positive) up_queued_world) = (false, true) /\
  instances up_queued_world !! 1%positive = Some rooted_instance /\
  is_fatal (ObjectInstance_destructor 1%positive up_queued_world) = false.
Proof. repeat split; vm_compute; reflexivity. Qed.

Lemma rooted_instance_links_valid (w : World) : links_valid w rooted_instance.
Proof. split; intros k Hk; discriminate Hk. Qed.

Lemma toggle_cancel_consistency_witness :
  disassociate_js_gobject 1%positive down_queued_world
    = Abort (GError pending_toggle_msg) /\
  (exists w', disassociate_js_gobject 1%positive (world_with_queue []) = Done w') /\
  ObjectInstance_destructor 1%positive down_queued_world
    = Abort (GError scheduled_unroot_msg) /\
  (exists w', ObjectInstance_destructor 1%positive up_queued_world = Done w').
Proof.
  pose proof (toggle_cancel_consistency down_queued_world 1%positive rooted_instance
                eq_refl) as Hdown.
  pose proof (toggle_cancel_consistency (world_with_queue []) 1%positive rooted_instance
                eq_refl) as Hnone.
  pose proof (toggle_cancel_consistency up_queued_world 1%positive rooted_instance
                eq_refl) as Hup.
  cbv zeta in Hdown, Hnone, Hup.
  destruct Hdown as (Hd1 & _ & Hd3).
  destruct Hnone as (_ & Hn2 & _).
  destruct Hup as (_ & _ & Hu3).
  split; [|split; [|split]].
  - apply Hd1. vm_compute. discriminate.
  - apply Hn2. reflexivity.
  - apply (Hd3 5%positive (mkGObject 2 7%positive ∅ ∅) eq_refl eq_refl).
    + reflexivity.
    + split; reflexivity.
  - apply (Hu3 5%positive (mkGObject 2 7%positive ∅ ∅) eq_refl eq_refl).
    + reflexivity.
    + vm_compute. intros [H _]. discriminate H.
    + apply rooted_instance_links_valid.
Defined.

Lemma disassociation_is_idempotent_witness :
  exists w1 i1 w2,
    disassociate_js_gobject 1%positive (world_with_queue []) = Done w1 /\
    instances w1 !! 1%positive = Some i1 /\ m_ptr i1 = None /\ m_closures i1 = [] /\
    ObjectInstance_destructor 1%positive w1 = Done w2 /\
    trace w2 = trace w1 /\ gobjects w2 = gobjects w1.
Proof.
  pose (w1 := match disassociate_js_gobject 1%positive (world_with_queue []) with
              | Done w => w
              | Abort _ => world_with_queue []
              end).
  assert (E : disassociate_js_gobject 1%positive (world_with_queue []) = Done w1)
    by (vm_compute; reflexivity).
  destruct (disassociation_is_idempotent (world_with_queue []) w1 1%positive
              rooted_instance eq_refl (rooted_instance_links_valid _) E)
    as (i1 & w2 & H).
  exists w1, i1, w2. split; [exact E|exact H].
Defined.

(** ** Getting the wrapper of a native object *)

Section WrapperLookup.

Lemma forget_link_with_link (l : GjsListLink) (i : ObjectInstance) :
  forget_link (with_link l i) = forget_link i.
Proof. reflexivity. Qed.

Lemma update_link_only (w : World) (k : InstancePtr)
    (f : ObjectInstance -> ObjectInstance) :
  (forall i, forget_link (f i) = forget_link i) ->
  forget_link <$> instances (update k f w) = forget_link <$> instances w.
Proof.
  intros Hf. unfold update. simpl. apply map_eq. intros j.
  rewrite !lookup_fmap.
  destruct (decide (k = j)) as [->|Hne].
  - rewrite lookup_alter_eq. destruct (instances w !! j); simpl; [rewrite Hf|]; reflexivity.
  - rewrite lookup_alter_ne by exact Hne. reflexivity.
Qed.

Lemma prepend_link_only (this head : InstancePtr) (w w' : World) :
  GjsListLink.prepend this head w = Done w' ->
  object_qdata w' = object_qdata w /\
  forget_link <$> instances w' = forget_link <$> instances w.
Proof.
  unfold GjsListLink.prepend.
  destruct (deref w head) as [elem|]; [|discriminate]. cbn [mbind result_bind].
  destruct (deref w this) as [it|]; [|discriminate]. cbn [mbind result_bind].
  destruct (m_prev (m_instance_link elem)) as [prev|].
  - destruct (deref w prev) as [ip|]; [|discriminate]. cbn [mbind result_bind].
    intros [= <-]. split; [reflexivity|].
    unfold GjsListLink.set_next, GjsListLink.set_prev.
    rewrite !update_link_only by (intros; reflexivity). reflexivity.
  - cbn [mbind result_bind]. intros [= <-]. split; [reflexivity|].
    unfold GjsListLink.set_next, GjsListLink.set_prev.
    rewrite !update_link_only by (intros; reflexivity). reflexivity.
Qed.

Lemma link_link_only (this : InstancePtr) (w w' : World) :
  link this w = Done w' ->
  object_qdata w' = object_qdata w /\
  forget_link <$> instances w' = forget_link <$> instances w.
Proof.
  unfold link. destruct (wrapped_gobject_list w) as [head|].
  - destruct (GjsListLink.prepend this head w) as [w1|] eqn:E; [|discriminate].
    cbn [mbind result_bind]. intros [= <-]. apply (prepend_link_only _ _ _ _ E).
  - cbn [mbind result_bind]. intros [= <-]. split; reflexivity.
Qed.

Lemma forget_link_lookup (m m' : gmap InstancePtr ObjectInstance) (k : InstancePtr)
    (i : ObjectInstance) :
  forget_link <$> m' = forget_link <$> m -> m !! k = Some i ->
  exists i', m' !! k = Some i' /\ forget_link i' = forget_link i.
Proof.
  intros Hm Hk. assert (H : (forget_link <$> m') !! k = (forget_link <$> m) !! k)
    by (rewrite Hm; reflexivity).
  rewrite !lookup_fmap, Hk in H. destruct (m' !! k) as [i'|]; [|discriminate].
  exists i'. split; [reflexivity|]. simpl in H. congruence.
Qed.

Lemma forget_link_fields (i i' : ObjectInstance) :
  forget_link i' = forget_link i ->
  wrapper i' = wrapper i /\ m_uses_toggle_ref i' = m_uses_toggle_ref i /\
  m_wrapper_finalized i' = m_wrapper_finalized i /\ m_ptr i' = m_ptr i.
Proof.
  destruct i, i'. unfold forget_link, with_link. simpl. intros [= -> -> -> -> -> -> ->].
  repeat split.
Qed.

Lemma associate_js_gobject_registers (this : InstancePtr) (object : JSObjectPtr)
    (gobj : GObjectPtr) (w w' : World) :
  associate_js_gobject this object gobj w = Done w' ->
  object_qdata w' !! gobj = Some this /\
  exists i', instances w' !! this = Some i' /\ wrapper i' = Some object /\
             m_uses_toggle_ref i' = false /\ m_ptr i' = Some gobj.
Proof.
  unfold associate_js_gobject.
  destruct (deref w this) as [i|] eqn:Ed; [|discriminate]. cbn [mbind result_bind].
  apply deref_Done in Ed.
  destruct (wrapper_is_rooted i) eqn:Er; [discriminate|]. cbn [negb g_assert mbind result_bind].
  unfold set_object_qdata.
  rewrite (deref_Some _ _ _ (update_lookup _ _ _ _ Ed)). cbn [mbind result_bind].
  set (i1 := with_ptr (Some gobj) (with_uses_toggle_ref false i)).
  change (m_ptr i1) with (Some gobj). cbn [g_object_set_qdata].
  set (w2 := with_object_qdata _ _).
  assert (H2 : instances w2 !! this = Some i1)
    by (subst w2 i1;
        apply (update_lookup w this
                 (fun i0 => with_ptr (Some gobj) (with_uses_toggle_ref false i0)) i Ed)).
  assert (Hq2 : object_qdata w2 !! gobj = Some this)
    by (subst w2; simpl; apply lookup_insert_eq).
  run_deref H2.
  unfold assign_wrapper. change (wrapper_is_rooted i1) with (wrapper_is_rooted i).
  rewrite Er. cbn [negb g_assert mbind result_bind].
  set (i3 := with_wrapper _ i1).
  set (w4 := ensure_weak_pointer_callback _).
  assert (H4 : instances w4 !! this = Some i3).
  { subst w4. unfold ensure_weak_pointer_callback.
    assert (H3 : instances (update this (fun _ => i3) w2) !! this = Some i3)
      by (apply (update_lookup w2 this (fun _ => i3) i1 H2)).
    destruct (negb (s_weak_pointer_callback _)); exact H3. }
  assert (Hq4 : object_qdata w4 !! gobj = Some this).
  { subst w4. unfold ensure_weak_pointer_callback.
    destruct (negb (s_weak_pointer_callback _)); exact Hq2. }
  destruct (link this w4) as [w5|] eqn:El; [|discriminate]. cbn [mbind result_bind].
  intros [= <-]. destruct (link_link_only _ _ _ El) as [Hq5 Hi5].
  destruct (forget_link_lookup _ _ _ _ Hi5 H4) as (i' & Hi' & Hf).
  destruct (forget_link_fields _ _ Hf) as (Hw & Hu & _ & Hp).
  split; [simpl; rewrite Hq5; exact Hq4|].
  exists i'. split; [exact Hi'|]. rewrite Hw, Hu, Hp. repeat split.
Qed.

Lemma check_js_object_finalized_qdata (this : InstancePtr) (w w1 : World) :
  check_js_object_finalized this w = Done w1 -> object_qdata w1 = object_qdata w.
Proof.
  unfold check_js_object_finalized.
  destruct (deref w this) as [i|]; [|discriminate]. cbn [mbind result_bind].
  destruct (m_uses_toggle_ref i); simpl; [|intros [= <-]; reflexivity].
  destruct (m_wrapper_finalized i); [|intros [= <-]; reflexivity].
  destruct (has_wrapper i); simpl; [discriminate|]. intros [= <-]. reflexivity.
Qed.

Lemma check_js_object_finalized_stable (this : InstancePtr) (w w1 : World)
    (i1 : ObjectInstance) :
  check_js_object_finalized this w = Done w1 ->
  instances w1 !! this = Some i1 -> has_wrapper i1 = true ->
  check_js_object_finalized this w1 = Done w1.
Proof.
  unfold check_js_object_finalized at 1.
  destruct (deref w this) as [i|] eqn:Ed; [|discriminate]. cbn [mbind result_bind].
  apply deref_Done in Ed.
  destruct (m_uses_toggle_ref i) eqn:Eu; simpl.
  - destruct (m_wrapper_finalized i) eqn:Ef.
    + destruct (has_wrapper i) eqn:Eh; simpl; [discriminate|].
      intros [= <-] H1 Hw. exfalso.
      rewrite (update_lookup _ _ _ i) in H1 by exact Ed.
      injection H1 as <-. change (has_wrapper i = true) in Hw. congruence.
    + intros [= <-] H1 _. unfold check_js_object_finalized.
      run_deref Ed. rewrite Eu, Ef. reflexivity.
  - intros [= <-] H1 _. unfold check_js_object_finalized.
    run_deref Ed. rewrite Eu. reflexivity.
Qed.

Lemma has_wrapper_Some (i : ObjectInstance) (o : JSObjectPtr) :
  wrapper i = Some o -> has_wrapper i = true.
Proof. unfold has_wrapper. intros ->. reflexivity. Qed.

Lemma found_instance_again (gobj : GObjectPtr) (priv : InstancePtr) (w : World)
    (i : ObjectInstance) (obj : JSObjectPtr) (cx : JSContext) :
  object_qdata w !! gobj = Some priv ->
  check_js_object_finalized priv w = Done w ->
  instances w !! priv = Some i -> wrapper i = Some obj ->
  wrapper_from_gobject cx gobj w = Done (Some obj, w).
Proof.
  intros Hq Hc Hi Hw. unfold wrapper_from_gobject, for_gobject, g_object_get_qdata.
  rewrite Hq, Hc. cbn [mbind result_bind]. run_deref Hi. rewrite Hw. reflexivity.
Qed.

Lemma new_instance_is_fresh (gtype : GType) (w : World) :
  instances w !! fst (new_for_js_object gtype w) = None.
Proof.
  unfold new_for_js_object. simpl. apply not_elem_of_dom. apply is_fresh.
Qed.

Lemma check_js_object_finalized_counters (this : InstancePtr) (w w1 : World) :
  check_js_object_finalized this w = Done w1 ->
  mem_counters w1 = mem_counters w /\ dom (instances w1) = dom (instances w).
Proof.
  unfold check_js_object_finalized.
  destruct (deref w this) as [i|] eqn:Ed; [|discriminate]. cbn [mbind result_bind].
  apply deref_Done in Ed.
  destruct (m_uses_toggle_ref i); simpl; [|intros [= <-]; split; reflexivity].
  destruct (m_wrapper_finalized i); [|intros [= <-]; split; reflexivity].
  destruct (has_wrapper i); simpl; [discriminate|]. intros [= <-]. split; [reflexivity|].
  simpl. apply set_eq. intros k. rewrite !elem_of_dom.
  destruct (decide (this = k)) as [->|Hne].
  - rewrite lookup_alter_eq, Ed. simpl. split; eauto.
  - rewrite lookup_alter_ne by exact Hne. reflexivity.
Qed.

(** C4: when a call of [wrapper_from_gobject] has returned a wrapper, the
    native object records an instance whose wrapper is the one returned;
    a second call for the same native object, with nothing in between,
    finds that recorded instance with [for_gobject] and returns its
    wrapper, creating nothing: the world is left as it was.  When the
    native object already recorded an instance before the first call,
    that is the instance, and the first call created none either; when
    it recorded none, the instance is the one the first call created for
    this native object. *)
Theorem wrapper_from_gobject_twice (cx cx' : JSContext) (gobj : GObjectPtr)
    (w w1 : World) (obj : JSObjectPtr) :
  wrapper_from_gobject cx gobj w = Done (Some obj, w1) ->
  exists priv i,
    g_object_get_qdata gobj w1 = Some priv /\
    instances w1 !! priv = Some i /\ wrapper i = Some obj /\
    for_gobject gobj w1 = Done (Some priv, w1) /\
    wrapper_from_gobject cx' gobj w1 = Done (Some obj, w1) /\
    match g_object_get_qdata gobj w with
    | Some recorded =>
        priv = recorded /\ dom (instances w1) = dom (instances w) /\
        mem_counters w1 = mem_counters w
    | None => instances w !! priv = None /\ m_ptr i = Some gobj
    end.
Proof.
  unfold wrapper_from_gobject at 1. unfold for_gobject at 1, g_object_get_qdata.
  destruct (object_qdata w !! gobj) as [priv|] eqn:Eq.
  - destruct (check_js_object_finalized priv w) as [wc|] eqn:Ec; [|discriminate].
    cbn [mbind result_bind].
    destruct (deref wc priv) as [i|] eqn:Ed; [|discriminate]. cbn [mbind result_bind].
    intros [= Hw <-]. apply deref_Done in Ed.
    assert (Hq : object_qdata wc !! gobj = Some priv)
      by (rewrite (check_js_object_finalized_qdata _ _ _ Ec); exact Eq).
    assert (Hc : check_js_object_finalized priv wc = Done wc)
      by (apply (check_js_object_finalized_stable priv w wc i Ec Ed);
          apply (has_wrapper_Some _ _ Hw)).
    exists priv, i. split; [exact Hq|]. split; [exact Ed|]. split; [exact Hw|].
    split; [unfold for_gobject, g_object_get_qdata; rewrite Hq, Hc; reflexivity|].
    split; [apply (found_instance_again gobj priv wc i obj cx' Hq Hc Ed Hw)|].
    destruct (check_js_object_finalized_counters _ _ _ Ec) as [Hcnt Hdom].
    split; [reflexivity|]. split; assumption.
  - cbn [mbind result_bind]. unfold new_for_gobject.
    destruct (gobjects w !! gobj) as [g|]; [|discriminate]. cbn [mbind result_bind].
    destruct (cx_lookup_object_prototype cx (g_type_instance g)) as [proto|];
      [|discriminate].
    destruct (cx_new_object cx w proto) as [newobj|]; [|discriminate].
    pose proof (new_instance_is_fresh (g_type_instance g) w) as Hfresh.
    destruct (new_for_js_object (g_type_instance g) w) as [priv w0]. simpl in Hfresh.
    destruct (associate_js_gobject priv newobj gobj _) as [w3|] eqn:Ea; [|discriminate].
    cbn [mbind result_bind].
    destruct (deref w3 priv) as [i|] eqn:Ed; [|discriminate]. cbn [mbind result_bind].
    destruct (bool_decide (wrapper i = Some newobj)); [|discriminate].
    cbn [g_assert mbind result_bind]. rewrite Ed. cbn [mbind result_bind].
    intros [= Hw <-]. apply deref_Done in Ed.
    destruct (associate_js_gobject_registers _ _ _ _ _ Ea)
      as (Hq3 & i' & Hi' & _ & Hu & Hp).
    rewrite Ed in Hi'. injection Hi' as <-.
    assert (Hc : check_js_object_finalized priv w3 = Done w3)
      by (unfold check_js_object_finalized; run_deref Ed; rewrite Hu; reflexivity).
    exists priv, i. split; [exact Hq3|]. split; [exact Ed|]. split; [exact Hw|].
    split; [unfold for_gobject, g_object_get_qdata; rewrite Hq3, Hc; reflexivity|].
    split; [apply (found_instance_again gobj priv w3 i obj cx' Hq3 Hc Ed Hw)|].
    split; [exact Hfresh|exact Hp].
Qed.

End WrapperLookup.

Lemma wrapper_from_gobject_twice_witness :
  exists w1 priv i,
    wrapper_from_gobject obliging_context 5%positive unwrapped_world
      = Done (Some 200%positive, w1) /\
    g_object_get_qdata 5%positive w1 = Some priv /\
    instances w1 !! priv = Some i /\ wrapper i = Some 200%positive /\
    for_gobject 5%positive w1 = Done (Some priv, w1) /\
    wrapper_from_gobject obliging_context 5%positive w1
      = Done (Some 200%positive, w1) /\
    instances unwrapped_world !! priv = None /\ m_ptr i = Some 5%positive.
Proof.
  pose (w1 := match wrapper_from_gobject obliging_context 5%positive unwrapped_world with
              | Done (_, w) => w
              | Abort _ => unwrapped_world
              end).
  assert (E : wrapper_from_gobject obliging_context 5%positive unwrapped_world
              = Done (Some 200%positive, w1)) by (vm_compute; reflexivity).
  destruct (wrapper_from_gobject_twice obliging_context obliging_context 5%positive
              unwrapped_world w1 200%positive E)
    as (priv & i & Hq & Hi & Hw & Hf & Hagain & Hnew).
  exists w1, priv, i.
  split; [exact E|]. split; [exact Hq|]. split; [exact Hi|]. split; [exact Hw|].
  split; [exact Hf|]. split; [exact Hagain|]. exact Hnew.
Defined.

(** ** Resolving virtual functions *)

Section VFuncResolution.

Lemma GIObjectInfo_parent_ind (P : GIObjectInfo -> Prop) :
  (forall n t f p m v x, P (mkObjectInfo n t f p m v x None)) ->
  (forall n t f p m v x parent,
      P parent -> P (mkObjectInfo n t f p m v x (Some parent))) ->
  forall info, P info.
Proof.
  intros Hroot Hsub. fix IH 1. intros [n t f p m v x [parent|]].
  - apply Hsub. apply IH.
  - apply Hroot.
Qed.

Lemma find_vfunc_loop_ancestors (info : GIObjectInfo) (name : string) :
  find_vfunc_loop info name
    = first_some (fun a => g_object_info_find_vfunc a name) (ancestors info).
Proof.
  induction info as [n t f p m v x|n t f p m v x parent IH] using GIObjectInfo_parent_ind.
  - reflexivity.
  - simpl. destruct (g_object_info_find_vfunc parent name); [reflexivity|exact IH].
Qed.

Lemma first_some_Some {A B} (f : A -> option B) (l : list A) (y : B) :
  first_some f l = Some y -> exists x, In x l /\ f x = Some y.
Proof.
  induction l as [|x l IH]; simpl; [discriminate|].
  destruct (f x) as [y'|] eqn:E.
  - intros [= <-]. exists x. split; [left; reflexivity|exact E].
  - intros H. destruct (IH H) as (x' & Hin & Hx'). exists x'. split; [right|]; assumption.
Qed.

(** A vfunc that [find_vfunc_on_parents] reports as defined by a parent
    is declared by a proper ancestor, and neither by the type itself nor
    by its interfaces. *)
Lemma defined_by_parent_sound (info : GIObjectInfo) (name : string) (vfunc : GIVFuncInfo) :
  find_vfunc_on_parents info name = (Some vfunc, true) ->
  g_object_info_find_vfunc_using_interfaces info name = None /\
  exists ancestor, In ancestor (ancestors info) /\
                   g_object_info_find_vfunc ancestor name = Some vfunc.
Proof.
  unfold find_vfunc_on_parents.
  destruct (g_object_info_find_vfunc_using_interfaces info name); [discriminate|].
  intros [= H]. split; [reflexivity|].
  rewrite find_vfunc_loop_ancestors in H. apply (first_some_Some _ _ _ H).
Qed.

Lemma is_vfunc_unchanged_iff (T : TypeSystem) (proto : ObjectPrototype)
    (vfunc : GIVFuncInfo) :
  is_vfunc_unchanged T proto vfunc = true <->
  exists addr,
    g_vfunc_info_get_address T vfunc (Some (p_gtype proto)) = Some addr /\
    g_vfunc_info_get_address T vfunc (g_type_parent T (p_gtype proto)) = Some addr.
Proof.
  unfold is_vfunc_unchanged.
  destruct (g_vfunc_info_get_address T vfunc (Some (p_gtype proto))) as [a1|].
  - destruct (g_vfunc_info_get_address T vfunc (g_type_parent T (p_gtype proto))) as [a2|].
    + rewrite Z.eqb_eq. split.
      * intros ->. exists a2. split; reflexivity.
      * intros (a & [= ->] & [= ->]). reflexivity.
    + split; [discriminate|]. intros (a & _ & H). discriminate H.
  - split; [discriminate|]. intros (a & H & _). discriminate H.
Qed.

(** C5: for a member named vfunc_<name> whose virtual function is
    defined by an ancestor, the resolver declines when the address
    resolved for this type equals the one resolved for its parent type:
    it reports not-resolved and leaves the world, the prototype object
    included, as it was.  When the two addresses differ the function is
    defined on the object under its vfunc_ name, and whenever the resolver
    does materialize such a function the unchanged test has failed. *)
Theorem unchanged_vfunc_not_resolved (T : TypeSystem) (cx : JSContext) (this : GType)
    (obj : JSObjectPtr) (id name : string) (w : World)
    (proto : ObjectPrototype) (info : GIObjectInfo) (vfunc : GIVFuncInfo) :
  prototypes w !! this = Some proto -> m_info proto = Some info ->
  String.prefix "vfunc_" name = true ->
  find_vfunc_on_parents info (name_without_vfunc_ name) = (Some vfunc, true) ->
  (forall addr,
      g_vfunc_info_get_address T vfunc (Some (p_gtype proto)) = Some addr ->
      g_vfunc_info_get_address T vfunc (g_type_parent T (p_gtype proto)) = Some addr ->
      resolve_impl T cx this obj id name w = Done (Some false, w)) /\
  (forall addr1 addr2,
      g_vfunc_info_get_address T vfunc (Some (p_gtype proto)) = Some addr1 ->
      g_vfunc_info_get_address T vfunc (g_type_parent T (p_gtype proto)) = Some addr2 ->
      addr1 <> addr2 -> cx_define_fails cx = false ->
      resolve_impl T cx this obj id name w
        = Done (Some true,
                define_own_property obj ("vfunc_" +:+ vfunc_name vfunc)
                  (DefinedVFunc vfunc) w)) /\
  (forall w', resolve_impl T cx this obj id name w = Done (Some true, w') ->
      is_vfunc_unchanged T proto vfunc = false /\
      gjs_define_vfunc cx obj vfunc w = Some w').
Proof.
  intros Hp Hi Hpre Hfind. unfold resolve_impl, deref_proto. rewrite Hp.
  cbn [mbind result_bind]. rewrite Hi. unfold resolve_vfunc. rewrite Hpre.
  rewrite Hfind. cbn [andb].
  split; [|split].
  - intros addr H1 H2.
    assert (Hu : is_vfunc_unchanged T proto vfunc = true)
      by (apply is_vfunc_unchanged_iff; exists addr; split; assumption).
    rewrite Hu. reflexivity.
  - intros addr1 addr2 H1 H2 Hne Hdef.
    assert (Hu : is_vfunc_unchanged T proto vfunc = false).
    { unfold is_vfunc_unchanged. rewrite H1, H2. apply Z.eqb_neq. exact Hne. }
    rewrite Hu. unfold gjs_define_vfunc. rewrite Hdef. reflexivity.
  - intros w'. destruct (is_vfunc_unchanged T proto vfunc); [discriminate|].
    destruct (gjs_define_vfunc cx obj vfunc w) as [w1|]; [|discriminate].
    intros [= <-]. split; reflexivity.
Qed.

End VFuncResolution.

Lemma unchanged_vfunc_not_resolved_witness :
  resolve_impl example_types obliging_context 11%positive 300%positive
    "vfunc_show" "vfunc_show" button_world
    = Done (Some false, button_world) /\
  resolve_impl overriding_types obliging_context 11%positive 300%positive
    "vfunc_show" "vfunc_show" button_world
    = Done (Some true,
            define_own_property 300%positive "vfunc_show"
              (DefinedVFunc (mkVFunc "show" "Widget")) button_world).
Proof.
  pose proof (unchanged_vfunc_not_resolved example_types obliging_context 11%positive
                300%positive "vfunc_show" "vfunc_show" button_world
                (mkPrototype 11%positive (Some button_info) ∅ ∅) button_info
                (mkVFunc "show" "Widget") eq_refl eq_refl eq_refl eq_refl)
    as (Hsame & _ & _).
  pose proof (unchanged_vfunc_not_resolved overriding_types obliging_context 11%positive
                300%positive "vfunc_show" "vfunc_show" button_world
                (mkPrototype 11%positive (Some button_info) ∅ ∅) button_info
                (mkVFunc "show" "Widget") eq_refl eq_refl eq_refl eq_refl)
    as (_ & Hdiff & _).
  split.
  - apply (Hsame 4096); reflexivity.
  - apply (Hdiff 8192 4096); [reflexivity|reflexivity|lia|reflexivity].
Defined.

(** ** Accessors and signal emission *)

Section Accessors.

Lemma find_param_spec_found (T : TypeSystem) (cx : JSContext) (this : GType)
    (key : string) (w w1 : World) (pspec : GParamSpec) :
  find_param_spec_from_id T cx this key w = Done (Some pspec, w1) ->
  trace w1 = trace w /\ gobjects w1 = gobjects w /\ instances w1 = instances w.
Proof.
  unfold find_param_spec_from_id.
  destruct (deref_proto w this) as [proto|]; [|discriminate]. cbn [mbind result_bind].
  destruct (m_property_cache proto !! key).
  - intros [= _ <-]. repeat split.
  - destruct (cx_encode_fails cx); [discriminate|].
    destruct (g_object_class_find_property T (p_gtype proto) _); [|discriminate].
    destruct (cx_cache_insert_fails cx); [discriminate|].
    intros [= _ <-]. repeat split.
Qed.

Lemma check_gobject_disposed_alive (i : ObjectInstance) (for_what : string) (w : World) :
  m_gobj_disposed i = false -> check_gobject_disposed i for_what w = (true, w).
Proof. intros H. unfold check_gobject_disposed. rewrite H. reflexivity. Qed.

(** C10: for a property whose descriptor carries the custom-property
    marker, the getter and the setter of a live instance both return
    success; [rval] is left alone, the native heap is unchanged and no
    call is recorded, so nothing was read from or written to the native
    object. *)
Theorem custom_property_bypasses_native_object (T : TypeSystem) (M : Marshaller)
    (cx : JSContext) (this : InstancePtr) (name : string) (rval value : JSValue)
    (w w1 : World) (i : ObjectInstance) (pspec : GParamSpec) :
  instances w !! this = Some i -> m_gobj_disposed i = false ->
  find_param_spec_from_id T cx (m_gtype i) name w = Done (Some pspec, w1) ->
  pspec_custom_property pspec = true ->
  prop_getter_impl T M cx this name rval w = Done (true, rval, w1) /\
  prop_setter_impl T M cx this name value w = Done (true, w1) /\
  gobjects w1 = gobjects w /\ trace w1 = trace w.
Proof.
  intros Hi Hd Hf Hc.
  destruct (find_param_spec_found _ _ _ _ _ _ _ Hf) as (Ht & Hg & _).
  unfold prop_getter_impl, prop_setter_impl.
  run_deref Hi.
  rewrite !(check_gobject_disposed_alive _ _ _ Hd). cbn [negb].
  rewrite Hf. cbn [mbind result_bind]. rewrite Hc.
  repeat split; assumption.
Qed.

(** C6, as the code has it.  A property without the custom-property
    marker: when not writable the setter reports a read-only-field error;
    when writable it converts the value and writes it through.  A field:
    when not writable the setter reports a read-only-field error; when
    writable it logs that setting is not implemented and returns success,
    leaving the native object as it was. *)
Theorem setters_of_reflected_members (T : TypeSystem) (M : Marshaller) (cx : JSContext)
    (depth : nat) (this : InstancePtr) (name : string) (value : JSValue)
    (w : World) (i : ObjectInstance) :
  instances w !! this = Some i -> m_gobj_disposed i = false ->
  (forall pspec w1,
      find_param_spec_from_id T cx (m_gtype i) name w = Done (Some pspec, w1) ->
      pspec_custom_property pspec = false ->
      (has_flag (pspec_flags pspec) G_PARAM_WRITABLE = false ->
         prop_setter_impl T M cx this name value w
           = Done (false, gjs_throw (ReadOnlyField (m_gtype i) (pspec_name pspec)) w1)) /\
      (has_flag (pspec_flags pspec) G_PARAM_WRITABLE = true ->
         forall gvalue,
           gjs_value_to_g_value M value (pspec_value_type pspec) = Some gvalue ->
           prop_setter_impl T M cx this name value w
             = Done (true,
                     g_object_set_property (m_ptr i) (pspec_name pspec) gvalue
                       (emit_event (Call_gjs_value_to_g_value value) w1)))) /\
  (forall field,
      lookup_cached_field_info depth T (m_gtype i) name w = Done field ->
      (has_flag (field_flags field) GI_FIELD_IS_WRITABLE = false ->
         field_setter_not_impl depth T this name w
           = Done (false, gjs_throw (ReadOnlyField (m_gtype i) (field_name field)) w)) /\
      (has_flag (field_flags field) GI_FIELD_IS_WRITABLE = true ->
         exists w', field_setter_not_impl depth T this name w = Done (true, w') /\
                    gobjects w' = gobjects w /\
                    exists msg, trace w' = trace w ++ [Log_g_message msg])).
Proof.
  intros Hi Hd. split.
  - intros pspec w1 Hf Hc. unfold prop_setter_impl.
    run_deref Hi.
    rewrite (check_gobject_disposed_alive _ _ _ Hd). cbn [negb].
    rewrite Hf. cbn [mbind result_bind]. rewrite Hc.
    split.
    + intros ->. reflexivity.
    + intros -> gvalue ->. reflexivity.
  - intros field Hl. unfold field_setter_not_impl.
    run_deref Hi.
    rewrite (check_gobject_disposed_alive _ _ _ Hd). cbn [negb].
    rewrite Hl. cbn [mbind result_bind].
    split.
    + intros ->. reflexivity.
    + intros ->. eexists. split; [reflexivity|]. split; [reflexivity|].
      eexists. reflexivity.
Qed.

Lemma g_object_set_property_reads_back (p : GObjectPtr) (g : GObject) (name : string)
    (v : GValue) (w : World) :
  gobjects w !! p = Some g ->
  native_property (Some p) name (g_object_set_property (Some p) name v w) = v.
Proof.
  intros H. unfold native_property, g_object_set_property. simpl.
  rewrite lookup_alter_eq, H. simpl. rewrite lookup_insert_eq. reflexivity.
Qed.

(** C8: on a live instance, when the number of arguments after the
    signal name differs from the signal's parameter count, [emit_impl]
    returns false having reported the argument-count error and nothing
    else: the only call recorded is that report, so no argument was
    converted and no signal emitted. *)
Theorem wrong_argument_count_stops_emission (T : TypeSystem) (M : Marshaller)
    (this : InstancePtr) (argv : list JSValue) (rval : JSValue) (w : World)
    (i : ObjectInstance) (signal_name : string) (signal_id : positive) (detail : Z) :
  instances w !! this = Some i -> m_gobj_disposed i = false ->
  Z.of_nat (length argv) < UINT_MOD ->
  gjs_parse_call_args_s argv = Some signal_name ->
  g_signal_parse_name T signal_name (m_gtype i) = Some (signal_id, detail) ->
  Z.of_nat (length argv) - 1 <> n_params (g_signal_query T signal_id) ->
  emit_impl T M this argv rval w
    = Done (false, rval,
            gjs_throw (WrongArgumentCount signal_name
                         (n_params (g_signal_query T signal_id))
                         (Z.of_nat (length argv) - 1)) w).
Proof.
  intros Hi Hd Hlen Hparse Hsig Hne. unfold emit_impl.
  run_deref Hi.
  rewrite (check_gobject_disposed_alive _ _ _ Hd). cbn [negb].
  rewrite Hparse, Hsig.
  assert (Hpos : 1 <= Z.of_nat (length argv))
    by (destruct argv; [discriminate Hparse|simpl; lia]).
  assert (Hsub : uint_sub (Z.of_nat (length argv)) 1 = Z.of_nat (length argv) - 1)
    by (unfold uint_sub; apply Z.mod_small; unfold UINT_MOD in *; lia).
  rewrite Hsub.
  destruct (Z.eqb_spec (Z.of_nat (length argv) - 1) (n_params (g_signal_query T signal_id)))
    as [Heq|_]; [contradiction|].
  reflexivity.
Qed.

Lemma resolve_field_defines (cx : JSContext) (this : GType) (field : GIFieldInfo)
    (obj : JSObjectPtr) (name : string) (w : World) (proto : ObjectPrototype) :
  prototypes w !! this = Some proto ->
  JS_AlreadyHasOwnPropertyById cx obj name w = Some false ->
  cx_cache_insert_fails cx = false -> cx_define_fails cx = false ->
  exists w' flags,
    resolve_field cx this field obj name name w = (Some true, w') /\
    trace w' = trace w /\ instances w' = instances w /\
    own_properties obj w' !! name = Some (DynamicProperty "gobject_field" name flags) /\
    prototypes w' !! this
      = Some (with_field_cache (<[name := field]> (m_field_cache proto)) proto).
Proof.
  intros Hp Hown Hc Hd. unfold resolve_field. rewrite Hown, Hc.
  unfold gjs_define_property_dynamic. rewrite Hd.
  eexists. eexists. split; [reflexivity|].
  split; [reflexivity|]. split; [reflexivity|]. split.
  - unfold own_properties, define_own_property. simpl.
    rewrite lookup_insert_eq. simpl. apply lookup_insert_eq.
  - simpl. rewrite lookup_alter_eq, Hp. reflexivity.
Qed.

Lemma lookup_cached_field_info_hit (depth : nat) (T : TypeSystem) (this : GType)
    (key : string) (w : World) (proto : ObjectPrototype) (info : GIObjectInfo)
    (field : GIFieldInfo) :
  prototypes w !! this = Some proto -> m_info proto = Some info ->
  m_field_cache proto !! key = Some field ->
  lookup_cached_field_info (S depth) T this key w = Done field.
Proof.
  intros Hp Hi Hc. simpl. unfold deref_proto. rewrite Hp. cbn [mbind result_bind].
  rewrite Hi, Hc. reflexivity.
Qed.

Lemma field_getter_complex (depth : nat) (T : TypeSystem) (M : Marshaller)
    (this : InstancePtr) (name : string) (rval : JSValue) (w : World)
    (i : ObjectInstance) (field : GIFieldInfo) :
  instances w !! this = Some i -> m_gobj_disposed i = false ->
  lookup_cached_field_info depth T (m_gtype i) name w = Done field ->
  is_complex_tag (field_type_tag field) = true ->
  field_getter_impl depth T M this name rval w
    = Done (false, rval, gjs_throw (UnsupportedFieldType name) w).
Proof.
  intros Hi Hd Hl Hc. unfold field_getter_impl.
  run_deref Hi.
  rewrite (check_gobject_disposed_alive _ _ _ Hd). cbn [negb].
  rewrite Hl. cbn [mbind result_bind]. rewrite Hc. reflexivity.
Qed.

(** C7, as the code has it: a name that matches a readable field of a
    container or error type resolves like any other readable field (the
    accessor is defined, nothing is reported); the unsupported-type error
    is reported when the field getter runs on a live instance. *)
Theorem complex_field_error_is_deferred (T : TypeSystem) (M : Marshaller) (cx : JSContext)
    (this : GType) (obj : JSObjectPtr) (name : string) (w : World)
    (proto : ObjectPrototype) (info : GIObjectInfo) (field : GIFieldInfo) :
  prototypes w !! this = Some proto -> m_info proto = Some info ->
  resolve_vfunc T cx proto info obj name w = None ->
  is_gobject_property_name T info name = false ->
  lookup_field_info info name = Some field ->
  is_complex_tag (field_type_tag field) = true ->
  JS_AlreadyHasOwnPropertyById cx obj name w = Some false ->
  cx_cache_insert_fails cx = false -> cx_define_fails cx = false ->
  exists w' flags,
    resolve_impl T cx this obj name name w = Done (Some true, w') /\
    trace w' = trace w /\
    own_properties obj w' !! name = Some (DynamicProperty "gobject_field" name flags) /\
    forall depth inst i rval,
      instances w' !! inst = Some i -> m_gtype i = this -> m_gobj_disposed i = false ->
      field_getter_impl (S depth) T M inst name rval w'
        = Done (false, rval, gjs_throw (UnsupportedFieldType name) w').
Proof.
  intros Hp Hi Hv Hprop Hfield Hc Hown Hcache Hdef.
  destruct (resolve_field_defines cx this field obj name w proto Hp Hown Hcache Hdef)
    as (w' & flags & Hr & Ht & _ & Ho & Hp').
  exists w', flags.
  split.
  { unfold resolve_impl, deref_proto. rewrite Hp. cbn [mbind result_bind].
    rewrite Hi, Hv, Hprop, Hfield, Hr. reflexivity. }
  split; [exact Ht|]. split; [exact Ho|].
  intros depth inst i rval Hinst Hty Hd.
  apply (field_getter_complex (S depth) T M inst name rval w' i field Hinst Hd); [|exact Hc].
  rewrite Hty.
  apply (lookup_cached_field_info_hit depth T this name w' _ info field Hp').
  - exact Hi.
  - simpl. apply lookup_insert_eq.
Qed.

End Accessors.

(** C7 as stated fails: resolving the readable array field of Button
    succeeds, defines the accessor and reports nothing. *)
Lemma array_field_resolution_succeeds :
  lookup_field_info button_info "items" = Some items_field /\
  field_type_tag items_field = GI_TYPE_TAG_ARRAY /\
  exists w',
    resolve_impl example_types obliging_context 11%positive 300%positive
      "items" "items" button_world = Done (Some true, w') /\
    own_properties 300%positive w' !! "items"
      = Some (DynamicProperty "gobject_field" "items"
                (Z.lor GJS_MODULE_PROP_FLAGS JSPROP_READONLY)) /\
    trace w' = [].
Proof.
  split; [reflexivity|]. split; [reflexivity|].
  eexists. split; [vm_compute; reflexivity|]. split; vm_compute; reflexivity.
Qed.

Lemma complex_field_error_is_deferred_witness :
  exists w' flags,
    resolve_impl example_types obliging_context 11%positive 300%positive
      "items" "items" button_world = Done (Some true, w') /\
    trace w' = trace button_world /\
    own_properties 300%positive w' !! "items"
      = Some (DynamicProperty "gobject_field" "items" flags) /\
    field_getter_impl 1 example_types example_marshaller 1%positive "items" JSUndefined w'
      = Done (false, JSUndefined, gjs_throw (UnsupportedFieldType "items") w').
Proof.
  destruct (complex_field_error_is_deferred example_types example_marshaller
              obliging_context 11%positive 300%positive "items" button_world
              (mkPrototype 11%positive (Some button_info) ∅ ∅) button_info items_field
              eq_refl eq_refl eq_refl eq_refl eq_refl eq_refl eq_refl eq_refl eq_refl)
    as (w' & flags & Hr & Ht & Ho & Hg).
  exists w', flags. split; [exact Hr|]. split; [exact Ht|]. split; [exact Ho|].
  apply (Hg 0%nat 1%positive button_instance JSUndefined); [|reflexivity|reflexivity].
  injection Hr as <-. reflexivity.
Defined.

(** C6 as stated fails for a writable field: the setter returns success
    and the native object keeps its value. *)
Lemma writable_field_is_not_written :
  lookup_cached_field_info 1 example_types 11%positive "flags" button_world_resolved
    = Done flags_field /\
  has_flag (field_flags flags_field) GI_FIELD_IS_WRITABLE = true /\
  exists w',
    field_setter_not_impl 1 example_types 1%positive "flags" button_world_resolved
      = Done (true, w') /\
    gobjects w' = gobjects button_world_resolved /\
    trace w'
      = [Log_g_message
           "Field flags of a GObject is writable, but setting it is not implemented"].
Proof.
  split; [reflexivity|]. split; [reflexivity|].
  eexists. split; [vm_compute; reflexivity|]. split; reflexivity.
Qed.

Lemma setters_of_reflected_members_witness :
  (exists w1,
     prop_setter_impl example_types example_marshaller obliging_context 1%positive
       "name" (JSString "b2") button_world_resolved
       = Done (false, gjs_throw (ReadOnlyField 11%positive "name") w1)) /\
  (exists w1,
     prop_setter_impl example_types example_marshaller obliging_context 1%positive
       "label" (JSString "go") button_world_resolved
       = Done (true,
               g_object_set_property (Some 5%positive) "label" (GVString "go")
                 (emit_event (Call_gjs_value_to_g_value (JSString "go")) w1))) /\
  field_setter_not_impl 1 example_types 1%positive "serial" button_world_resolved
    = Done (false, gjs_throw (ReadOnlyField 11%positive "serial") button_world_resolved) /\
  (exists w',
     field_setter_not_impl 1 example_types 1%positive "flags" button_world_resolved
       = Done (true, w') /\ gobjects w' = gobjects button_world_resolved).
Proof.
  destruct (setters_of_reflected_members example_types example_marshaller
              obliging_context 1 1%positive "name" (JSString "b2")
              button_world_resolved button_instance eq_refl eq_refl) as (Hname & _).
  destruct (setters_of_reflected_members example_types example_marshaller
              obliging_context 1 1%positive "label" (JSString "go")
              button_world_resolved button_instance eq_refl eq_refl) as (Hlabel & _).
  destruct (setters_of_reflected_members example_types example_marshaller
              obliging_context 1 1%positive "serial" JSUndefined
              button_world_resolved button_instance eq_refl eq_refl) as (_ & Hserial).
  destruct (setters_of_reflected_members example_types example_marshaller
              obliging_context 1 1%positive "flags" JSUndefined
              button_world_resolved button_instance eq_refl eq_refl) as (_ & Hflags).
  split; [|split; [|split]].
  - eexists. apply (Hname name_pspec); [vm_compute; reflexivity|reflexivity|reflexivity].
  - eexists.
    apply (Hlabel label_pspec); [vm_compute; reflexivity|reflexivity|reflexivity|reflexivity].
  - apply (Hserial serial_field); reflexivity.
  - destruct (proj2 (Hflags flags_field eq_refl) eq_refl) as (w' & Hs & Hg & _).
    exists w'. split; assumption.
Defined.

Lemma custom_property_bypasses_native_object_witness :
  exists w1,
    prop_getter_impl example_types example_marshaller obliging_context 1%positive
      "overridden" JSUndefined button_world = Done (true, JSUndefined, w1) /\
    prop_setter_impl example_types example_marshaller obliging_context 1%positive
      "overridden" (JSNumber 7) button_world = Done (true, w1) /\
    gobjects w1 = gobjects button_world /\ trace w1 = trace button_world.
Proof.
  pose (w1 := match find_param_spec_from_id example_types obliging_context 11%positive
                      "overridden" button_world with
              | Done (_, w) => w
              | Abort _ => button_world
              end).
  assert (E : find_param_spec_from_id example_types obliging_context 11%positive
                "overridden" button_world = Done (Some overridden_pspec, w1))
    by (vm_compute; reflexivity).
  exists w1.
  apply (custom_property_bypasses_native_object example_types example_marshaller
           obliging_context 1%positive "overridden" JSUndefined (JSNumber 7)
           button_world w1 button_instance overridden_pspec eq_refl eq_refl E eq_refl).
Defined.

Lemma wrong_argument_count_stops_emission_witness :
  emit_impl example_types example_marshaller 1%positive
    [JSString "clicked"; JSNumber 1] JSUndefined button_world
    = Done (false, JSUndefined,
            gjs_throw (WrongArgumentCount "clicked" 2 1) button_world).
Proof.
  apply (wrong_argument_count_stops_emission example_types example_marshaller 1%positive
           [JSString "clicked"; JSNumber 1] JSUndefined button_world button_instance
           "clicked" 1%positive 0 eq_refl eq_refl).
  - reflexivity.
  - reflexivity.
  - reflexivity.
  - vm_compute. discriminate.
Defined.
(** * Further properties *)

(** ** The chain of registered instances *)

Section Registry.

Implicit Types (m : gmap InstancePtr ObjectInstance) (l : list InstancePtr).

Lemma segment_ext m m' prev l next :
  (forall x, elem_of x l -> m_instance_link <$> (m' !! x) = m_instance_link <$> (m !! x)) ->
  segment m prev l next -> segment m' prev l next.
Proof.
  revert prev. induction l as [|x rest IH]; intros prev Hext; simpl; [tauto|].
  intros [(i & Hi & Hp & Hn) Hrest]. split.
  - pose proof (Hext x (list_elem_of_here x rest)) as Hx. rewrite Hi in Hx. simpl in Hx.
    destruct (m' !! x) as [i'|]; [|discriminate]. injection Hx as Hx.
    exists i'. rewrite Hx. repeat split; assumption.
  - apply IH; [|exact Hrest]. intros y Hy. apply Hext. right. exact Hy.
Qed.

Lemma segment_alter_outside m prev l next (f : ObjectInstance -> ObjectInstance) x :
  ~ elem_of x l -> segment m prev l next -> segment (alter f x m) prev l next.
Proof.
  intros Hx. apply segment_ext. intros y Hy.
  rewrite lookup_alter_ne; [reflexivity|]. intros ->. contradiction.
Qed.

Lemma segment_alter_nonlink m prev l next (f : ObjectInstance -> ObjectInstance) x :
  (forall i, m_instance_link (f i) = m_instance_link i) ->
  segment m prev l next -> segment (alter f x m) prev l next.
Proof.
  intros Hf. apply segment_ext. intros y _.
  destruct (decide (x = y)) as [->|Hne].
  - rewrite lookup_alter_eq. destruct (m !! y); simpl; [rewrite Hf|]; reflexivity.
  - rewrite lookup_alter_ne by exact Hne. reflexivity.
Qed.

Lemma head_or_app {A} (next : option A) (l1 l2 : list A) :
  head_or next (l1 ++ l2) = head_or (head_or next l2) l1.
Proof. destruct l1; reflexivity. Qed.

Lemma segment_app m prev l1 l2 next :
  segment m prev (l1 ++ l2) next <->
  segment m prev l1 (head_or next l2) /\ segment m (last_or prev l1) l2 next.
Proof.
  revert prev. induction l1 as [|x rest IH]; intros prev; simpl; [tauto|].
  rewrite IH, head_or_app. tauto.
Qed.

Lemma last_or_in {A} (prev : option A) (l : list A) (p : A) :
  l <> [] -> last_or prev l = Some p -> elem_of p l.
Proof.
  revert prev. induction l as [|x rest IH]; intros prev Hne; [contradiction|].
  simpl. destruct rest as [|y rest'].
  - simpl. intros [= ->]. left.
  - intros H. right. apply (IH (Some x)); [discriminate|exact H].
Qed.

Lemma last_or_cons {A} (prev : option A) (l : list A) :
  l <> [] -> last_or prev l = last_or None l.
Proof. destruct l; [contradiction|]. reflexivity. Qed.

Lemma segment_lookup m prev l next x :
  segment m prev l next -> elem_of x l -> is_Some (m !! x).
Proof.
  revert prev. induction l as [|y rest IH]; intros prev; simpl;
    [intros _ Hin; inversion Hin|].
  intros [(i & Hi & _) Hrest] Hin. apply elem_of_cons in Hin as [->|Hin]; [eauto|].
  apply (IH _ Hrest Hin).
Qed.

Lemma segment_set_next_last m prev l next p n :
  NoDup l -> l <> [] -> last_or prev l = Some p ->
  segment m prev l next -> segment (alter (set_next_of n) p m) prev l n.
Proof.
  revert prev. induction l as [|x rest IH]; intros prev Hnd Hne Hlast; [contradiction|].
  inversion Hnd as [|? ? Hx Hnd']; subst.
  destruct rest as [|y rest'].
  - simpl in Hlast. injection Hlast as <-. simpl.
    intros [(i & Hi & Hp & _) _]. split; [|exact I].
    exists (set_next_of n i). rewrite lookup_alter_eq, Hi. repeat split. exact Hp.
  - intros [(i & Hi & Hp & Hn) Hrest]. split.
    + exists i. assert (p <> x).
      { intros ->. apply Hx.
        apply (last_or_in (Some x)); [discriminate|exact Hlast]. }
      rewrite lookup_alter_ne by assumption. repeat split; assumption.
    + apply (IH (Some x)); [exact Hnd'|discriminate|exact Hlast|exact Hrest].
Qed.

Lemma segment_set_prev_head m prev x rest next p' :
  NoDup (x :: rest) ->
  segment m prev (x :: rest) next ->
  segment (alter (set_prev_of p') x m) p' (x :: rest) next.
Proof.
  intros Hnd [(i & Hi & Hp & Hn) Hrest]. inversion Hnd as [|? ? Hx _]; subst.
  split.
  - exists (set_prev_of p' i). rewrite lookup_alter_eq, Hi. repeat split. exact Hn.
  - apply segment_alter_outside; [|exact Hrest].
    exact Hx.
Qed.

End Registry.

Section RegistryOps.

Implicit Types (m : gmap InstancePtr ObjectInstance) (l : list InstancePtr).

Lemma opt_alter_lookup_ne m f o x :
  o <> Some x -> opt_alter f o m !! x = m !! x.
Proof.
  destruct o as [k|]; simpl; [|reflexivity].
  intros H. apply lookup_alter_ne. congruence.
Qed.

Lemma opt_alter_is_Some m f o x :
  is_Some (opt_alter f o m !! x) <-> is_Some (m !! x).
Proof.
  destruct o as [k|]; simpl; [|reflexivity].
  destruct (decide (k = x)) as [->|Hne].
  - rewrite lookup_alter_eq. destruct (m !! x); simpl; split; intros [? H]; eauto; discriminate.
  - rewrite lookup_alter_ne by exact Hne. reflexivity.
Qed.

Lemma segment_opt_alter_outside m prev l next f o :
  (forall k, o = Some k -> ~ elem_of k l) ->
  segment m prev l next -> segment (opt_alter f o m) prev l next.
Proof.
  destruct o as [k|]; simpl; [|tauto].
  intros H. apply segment_alter_outside, H. reflexivity.
Qed.

Lemma list_unlink_result (w : World) (x : InstancePtr) (i : ObjectInstance) :
  instances w !! x = Some i ->
  (forall p, m_prev (m_instance_link i) = Some p -> p <> x /\ is_Some (instances w !! p)) ->
  (forall n, m_next (m_instance_link i) = Some n -> is_Some (instances w !! n)) ->
  exists w', GjsListLink.unlink x w = Done w' /\
             instances w' = unlinked_map x i (instances w) /\
             wrapped_gobject_list w' = wrapped_gobject_list w /\
             same_outside_registry w w'.
Proof.
  intros Hx Hp Hn. unfold GjsListLink.unlink, unlinked_map. run_deref Hx.
  destruct (m_prev (m_instance_link i)) as [p|] eqn:Ep.
  - destruct (Hp p eq_refl) as [Hne [ip Hip]]. run_deref Hip.
    assert (Hx1 : instances (GjsListLink.set_next p (m_next (m_instance_link i)) w) !! x
                  = Some i).
    { unfold GjsListLink.set_next. rewrite update_lookup_ne by exact Hne. exact Hx. }
    run_deref Hx1. destruct (m_next (m_instance_link i)) as [n|] eqn:En.
    + destruct (Hn n eq_refl) as [inx Hin].
      assert (Hn1 : is_Some (instances
                (GjsListLink.set_next p (Some n) w) !! n)).
      { apply update_is_Some. eauto. }
      destruct Hn1 as [in1 Hin1]. run_deref Hin1.
      eexists. split; [reflexivity|]. rewrite ?Ep, ?En. repeat split.
    + cbn [mbind result_bind]. eexists. split; [reflexivity|]. rewrite ?Ep, ?En. repeat split.
  - cbn [mbind result_bind]. run_deref Hx.
    destruct (m_next (m_instance_link i)) as [n|] eqn:En.
    + destruct (Hn n eq_refl) as [inx Hin]. run_deref Hin.
      eexists. split; [reflexivity|]. rewrite ?Ep, ?En. repeat split.
    + cbn [mbind result_bind]. eexists. split; [reflexivity|]. rewrite ?Ep, ?En. repeat split.
Qed.

Lemma last_or_is_Some {A} (prev : option A) (l : list A) :
  l <> [] -> exists p, last_or prev l = Some p /\ elem_of p l.
Proof.
  intros Hne. destruct (last_or prev l) as [p|] eqn:E.
  - exists p. split; [reflexivity|]. apply (last_or_in prev); assumption.
  - exfalso. revert prev E. induction l as [|x rest IH]; intros prev E; [contradiction|].
    simpl in E. destruct rest as [|y rest']; [discriminate|].
    apply (IH ltac:(discriminate) (Some x) E).
Qed.

Lemma last_or_elem {A} (l : list A) (p : A) :
  last_or None l = Some p -> elem_of p l.
Proof.
  destruct l as [|x rest]; [discriminate|]. apply last_or_in. discriminate.
Qed.

Lemma head_or_elem {A} (l : list A) (n : A) :
  head_or None l = Some n -> elem_of n l.
Proof. destruct l as [|x rest]; [discriminate|]. intros [= ->]. left. Qed.

(** The instance in the middle of a chain, and its two neighbours. *)
Lemma segment_middle m l1 x l2 :
  segment m None (l1 ++ x :: l2) None ->
  segment m None l1 (Some x) /\
  (exists i, m !! x = Some i /\ m_prev (m_instance_link i) = last_or None l1 /\
             m_next (m_instance_link i) = head_or None l2) /\
  segment m (Some x) l2 None.
Proof.
  intros H. apply segment_app in H as [H1 [H2 H3]]. auto.
Qed.

Lemma NoDup_middle l1 (x : InstancePtr) l2 :
  NoDup (l1 ++ x :: l2) ->
  NoDup l1 /\ NoDup l2 /\ ~ elem_of x l1 /\ ~ elem_of x l2 /\
  (forall y, elem_of y l1 -> ~ elem_of y l2) /\ NoDup (l1 ++ l2).
Proof.
  intros H. pose proof H as H0.
  apply NoDup_app in H as (H1 & H2 & H3). apply NoDup_cons in H3 as [H3 H4].
  repeat split; try assumption.
  - intros Hx. apply (H2 x Hx). left.
  - intros y Hy Hy2. apply (H2 y Hy). right. exact Hy2.
  - apply NoDup_app. repeat split; try assumption.
    intros y Hy Hy2. apply (H2 y Hy). right. exact Hy2.
Qed.

Lemma segment_unlink m l1 x l2 i :
  NoDup (l1 ++ x :: l2) -> segment m None (l1 ++ x :: l2) None -> m !! x = Some i ->
  segment (unlinked_map x i m) None (l1 ++ l2) None.
Proof.
  intros Hnd Hseg Hx.
  apply segment_middle in Hseg as (H1 & (i' & Hi' & Hp & Hn) & H3).
  assert (i' = i) by congruence. subst i'.
  apply NoDup_middle in Hnd as (Hnd1 & Hnd2 & Hx1 & Hx2 & Hdisj & _).
  unfold unlinked_map. rewrite Hp, Hn. apply segment_app. split.
  - apply segment_alter_outside; [exact Hx1|].
    apply segment_opt_alter_outside.
    { intros k Hk%head_or_elem Hk1. exact (Hdisj k Hk1 Hk). }
    destruct (decide (l1 = [])) as [->|Hne]; [exact I|].
    destruct (last_or_is_Some None l1 Hne) as (p & Ep & _). rewrite Ep. simpl.
    apply segment_set_next_last with (next := Some x); assumption.
  - apply segment_alter_outside; [exact Hx2|].
    destruct l2 as [|n l2']; [exact I|]. simpl.
    apply segment_set_prev_head with (prev := Some x); [exact Hnd2|].
    apply segment_opt_alter_outside; [|exact H3].
    intros k Hk%last_or_elem Hk2. exact (Hdisj k Hk Hk2).
Qed.

Lemma unlinked_map_self m l1 x l2 i :
  NoDup (l1 ++ x :: l2) -> segment m None (l1 ++ x :: l2) None -> m !! x = Some i ->
  unlinked_map x i m !! x = Some (with_link (mkLink None None) i).
Proof.
  intros Hnd Hseg Hx.
  apply segment_middle in Hseg as (H1 & (i' & Hi' & Hp & Hn) & H3).
  assert (i' = i) by congruence. subst i'.
  apply NoDup_middle in Hnd as (Hnd1 & Hnd2 & Hx1 & Hx2 & Hdisj & _).
  unfold unlinked_map. rewrite lookup_alter_eq, !opt_alter_lookup_ne, Hx; [reflexivity| |].
  - rewrite Hp. intros Hk%last_or_elem. contradiction.
  - rewrite Hn. intros Hk%head_or_elem. contradiction.
Qed.

Lemma unlinked_map_outside m l1 x l2 i z :
  segment m None (l1 ++ x :: l2) None -> m !! x = Some i ->
  ~ elem_of z (l1 ++ x :: l2) -> unlinked_map x i m !! z = m !! z.
Proof.
  intros Hseg Hx Hz.
  apply segment_middle in Hseg as (H1 & (i' & Hi' & Hp & Hn) & H3).
  assert (i' = i) by congruence. subst i'.
  rewrite elem_of_app, elem_of_cons in Hz.
  unfold unlinked_map. rewrite lookup_alter_ne, !opt_alter_lookup_ne; [reflexivity| | |].
  - rewrite Hp. intros Hk%last_or_elem. tauto.
  - rewrite Hn. intros Hk%head_or_elem. tauto.
  - intros ->. tauto.
Qed.

Lemma unlinked_map_forget m x i :
  forget_link <$> unlinked_map x i m = forget_link <$> m.
Proof.
  assert (Ha : forall f k m0, (forall j, forget_link (f j) = forget_link j) ->
            forget_link <$> alter f k m0 = forget_link <$> m0).
  { intros f k m0 Hf. apply map_eq. intros j. rewrite !lookup_fmap.
    destruct (decide (k = j)) as [->|Hne].
    - rewrite lookup_alter_eq. destruct (m0 !! j); simpl; [rewrite Hf|]; reflexivity.
    - rewrite lookup_alter_ne by exact Hne. reflexivity. }
  unfold unlinked_map. rewrite Ha by reflexivity.
  destruct (m_next (m_instance_link i)); simpl; [rewrite Ha by reflexivity|];
    (destruct (m_prev (m_instance_link i)); simpl; [rewrite Ha by reflexivity|]; reflexivity).
Qed.

(** Unlinking a registered instance, in full. *)
Lemma unlink_registered (w : World) l1 (x : InstancePtr) l2 :
  registry w (l1 ++ x :: l2) ->
  exists w' i, instances w !! x = Some i /\
    unlink x w = Done w' /\
    instances w' = unlinked_map x i (instances w) /\
    registry w' (l1 ++ l2) /\
    same_outside_registry w w'.
Proof.
  intros (Hhead & Hnd & Hseg).
  pose proof (segment_middle _ _ _ _ Hseg) as (H1 & (i & Hi & Hp & Hn) & H3).
  pose proof (NoDup_middle _ _ _ Hnd) as (Hnd1 & Hnd2 & Hx1 & Hx2 & Hdisj & Hnd').
  unfold unlink. run_deref Hi.
  set (w1 := if decide (wrapped_gobject_list w = Some x) then _ else w).
  assert (Hi1 : instances w1 = instances w) by (subst w1; destruct (decide _); reflexivity).
  assert (Hs1 : same_outside_registry w w1)
    by (subst w1; destruct (decide _); repeat split).
  assert (Hh1 : wrapped_gobject_list w1 = head (l1 ++ l2)).
  { subst w1. destruct (decide _) as [E|E].
    - simpl. rewrite Hn. rewrite Hhead in E.
      destruct l1 as [|a l1']; [destruct l2; reflexivity|].
      simpl in E. injection E as ->. exfalso. apply Hx1. left.
    - rewrite Hhead. rewrite Hhead in E.
      destruct l1 as [|a l1']; [exfalso; apply E; reflexivity|reflexivity]. }
  destruct (list_unlink_result w1 x i) as (w' & Hrun & Hinst & Hh & Hs).
  - rewrite Hi1. exact Hi.
  - intros p Ep. rewrite Hp in Ep. apply last_or_elem in Ep. rewrite Hi1. split.
    + intros ->. contradiction.
    + apply (segment_lookup _ _ _ _ _ H1 Ep).
  - intros n En. rewrite Hn in En. apply head_or_elem in En. rewrite Hi1.
    apply (segment_lookup _ _ _ _ _ H3 En).
  - exists w', i. split; [exact Hi|]. split; [exact Hrun|].
    rewrite Hi1 in Hinst. split; [exact Hinst|]. split.
    + split; [congruence|]. split; [exact Hnd'|]. rewrite Hinst.
      apply segment_unlink; assumption.
    + destruct Hs1 as (a1 & a2 & a3 & a4 & a5), Hs as (b1 & b2 & b3 & b4 & b5).
      repeat split; congruence.
Qed.

End RegistryOps.

Section RegistryLink.

Lemma link_registered (w : World) (l : list InstancePtr) (x : InstancePtr)
    (i : ObjectInstance) :
  registry w l -> ~ elem_of x l -> instances w !! x = Some i -> unlinked i ->
  exists w', link x w = Done w' /\ registry w' (x :: l) /\
    instances w' = alter (set_next_of (head l)) x
                     (opt_alter (set_prev_of (Some x)) (head l) (instances w)) /\
    same_outside_registry w w'.
Proof.
  intros (Hhead & Hnd & Hseg) Hx Hi Hu. unfold link. rewrite Hhead.
  destruct l as [|h rest]; simpl.
  - eexists. split; [reflexivity|]. split; [|split; [|repeat split]].
    + split; [reflexivity|]. split; [apply NoDup_singleton|]. simpl. split; [|exact I].
      exists i. rewrite Hu. auto.
    + change (instances w = alter (set_next_of None) x (instances w)).
      apply map_eq. intros k. destruct (decide (x = k)) as [->|Hne].
      * rewrite lookup_alter_eq, Hi. simpl. f_equal. unfold set_next_of.
        rewrite Hu. simpl. rewrite <- Hu. symmetry. apply with_link_same.
      * rewrite lookup_alter_ne by exact Hne. reflexivity.
  - pose proof Hseg as [(ih & Hih & Hph & Hnh) Hrest].
    assert (Hxh : x <> h) by (intros ->; apply Hx; left).
    unfold GjsListLink.prepend. run_deref Hih. run_deref Hi. rewrite Hph.
    cbn [mbind result_bind].
    eexists. split; [reflexivity|]. split; [|split; [reflexivity|repeat split]].
    split; [reflexivity|]. split; [apply NoDup_cons; split; assumption|].
    change (instances (with_list_head (Some x)
              (GjsListLink.set_next x (Some h) (GjsListLink.set_prev h (Some x) w))))
      with (alter (set_next_of (Some h)) x (alter (set_prev_of (Some x)) h (instances w))).
    split.
    + exists (set_next_of (Some h) i).
      rewrite lookup_alter_eq, lookup_alter_ne, Hi by congruence.
      repeat split. simpl. rewrite Hu. reflexivity.
    + apply segment_alter_outside; [exact Hx|].
      apply segment_set_prev_head with (prev := None); assumption.
Qed.

(** [GjsListLink::size] counts the instances from its starting point to
    the end of the chain. *)
Lemma list_link_size_segment (m_w : World) (prev : option InstancePtr)
    (x : InstancePtr) (rest : list InstancePtr) (fuel count : nat) :
  segment (instances m_w) prev (x :: rest) None ->
  (length (x :: rest) <= fuel)%nat ->
  list_link_size fuel x count m_w = Some (Done (count + length (x :: rest)))%nat.
Proof.
  revert prev x fuel count. induction rest as [|y rest' IH]; intros prev x fuel count.
  - intros [(i & Hi & _ & Hn) _] Hf. destruct fuel as [|fuel']; [simpl in Hf; lia|].
    simpl. rewrite (deref_Some _ _ _ Hi). simpl in Hn. rewrite Hn.
    do 2 f_equal. lia.
  - intros [(i & Hi & _ & Hn) Hrest] Hf. destruct fuel as [|fuel']; [simpl in Hf; lia|].
    cbn [list_link_size]. rewrite (deref_Some _ _ _ Hi). simpl in Hn. rewrite Hn.
    rewrite (IH (Some x) y fuel' (S count) Hrest) by (simpl in *; lia).
    do 2 f_equal. simpl. lia.
Qed.

End RegistryLink.

(** ** Sweeps of the registry *)

Lemma same_outside_registry_trans (w1 w2 w3 : World) :
  same_outside_registry w1 w2 -> same_outside_registry w2 w3 ->
  same_outside_registry w1 w3.
Proof.
  intros (a1 & a2 & a3 & a4 & a5) (b1 & b2 & b3 & b4 & b5). repeat split; congruence.
Qed.

Lemma head_or_None {A} (l : list A) : head_or None l = head l.
Proof. destruct l; reflexivity. Qed.

Lemma registry_ext (w w' : World) (l : list InstancePtr) :
  wrapped_gobject_list w' = wrapped_gobject_list w ->
  (forall x, elem_of x l ->
     m_instance_link <$> (instances w' !! x) = m_instance_link <$> (instances w !! x)) ->
  registry w l -> registry w' l.
Proof.
  intros Hh Hl (H1 & H2 & H3). split; [congruence|]. split; [exact H2|].
  apply (segment_ext (instances w)); assumption.
Qed.

(** One pass of [iterate_wrapped_gobjects] over the registry, for any
    action that works on a state holding the world: [acc] is what the
    action collects ([removed] in [remove_wrapped_gobjects_if]), when it
    [tracks] the instances it unlinks. *)
Section Sweep.

Variables (State : Type) (world_of : State -> World)
  (acc : State -> list InstancePtr)
  (tracks : bool) (step : InstancePtr -> State -> result State)
  (dec : ObjectInstance -> bool) (g : ObjectInstance -> ObjectInstance).

Hypothesis dec_link : forall l i, dec (with_link l i) = dec i.
Hypothesis g_link : forall l i, g (with_link l i) = with_link l (g i).

(** A step first rewrites the instance it visits with [g] (not its link)
    and then, for the instances [dec] selects, unlinks it. *)
Hypothesis step_visits : forall x s i,
  instances (world_of s) !! x = Some i ->
  exists wp, instances wp = <[x := g i]> (instances (world_of s)) /\
    wrapped_gobject_list wp = wrapped_gobject_list (world_of s) /\
    same_outside_registry (world_of s) wp /\
    if dec i then
      forall wu, unlink x wp = Done wu ->
        exists s', step x s = Done s' /\ world_of s' = wu /\
                   acc s' = acc s ++ (if tracks then [x] else [])
    else exists s', step x s = Done s' /\ world_of s' = wp /\ acc s' = acc s.

Lemma g_keeps_link (i : ObjectInstance) : m_instance_link (g i) = m_instance_link i.
Proof. rewrite <- (with_link_same i) at 1. rewrite g_link. reflexivity. Qed.

Lemma g_forget (a b : ObjectInstance) :
  forget_link a = forget_link b -> forget_link (g a) = forget_link (g b).
Proof.
  intros H. unfold forget_link in *. rewrite <- !g_link. rewrite H. reflexivity.
Qed.

Lemma dec_forget (a b : ObjectInstance) :
  forget_link a = forget_link b -> dec a = dec b.
Proof.
  intros H. rewrite <- (dec_link (mkLink None None) a), <- (dec_link (mkLink None None) b).
  unfold forget_link in H. rewrite H. reflexivity.
Qed.

Lemma visited_forget (c : bool) (oa ob : option ObjectInstance) :
  forget_link <$> oa = forget_link <$> ob -> visited g c <$> oa = visited g c <$> ob.
Proof.
  destruct oa as [a|], ob as [b|]; try discriminate; [|reflexivity].
  intros H. assert (H' : forget_link a = forget_link b) by (cbn in H; congruence).
  cbn. f_equal. unfold visited. destruct c; [|exact H'].
  apply g_forget in H'. exact H'.
Qed.

Lemma selected_forget (m m' : gmap InstancePtr ObjectInstance) (x : InstancePtr) :
  forget_link <$> (m' !! x) = forget_link <$> (m !! x) -> selected dec m' x = selected dec m x.
Proof.
  unfold selected. destruct (m' !! x) as [a|], (m !! x) as [b|];
    try discriminate; [|reflexivity].
  intros H. assert (H' : forget_link a = forget_link b) by (cbn in H; congruence).
  apply dec_forget, H'.
Qed.

Lemma sweep_from (rest : list InstancePtr) :
  forall (fuel : nat) (kept : list InstancePtr) (s : State),
  registry (world_of s) (kept ++ rest) -> (length rest <= fuel)%nat ->
  let m := instances (world_of s) in
  exists s', iterate_from world_of step fuel (head rest) s = Some (Done s') /\
    registry (world_of s') (kept ++ List.filter (fun x => negb (selected dec m x)) rest) /\
    acc s' = acc s ++ (if tracks then List.filter (selected dec m) rest else []) /\
    same_outside_registry (world_of s) (world_of s') /\
    (forall z, forget_link <$> (instances (world_of s') !! z)
               = visited g (bool_decide (elem_of z rest)) <$> (m !! z)) /\
    (forall z, ~ elem_of z (kept ++ rest) -> instances (world_of s') !! z = m !! z) /\
    (forall z, elem_of z rest -> selected dec m z = true ->
       exists i', instances (world_of s') !! z = Some i' /\ unlinked i').
Proof.
  induction rest as [|x rest' IH]; intros fuel kept s Hreg Hfuel m.
  - exists s. split; [destruct fuel; reflexivity|]. cbn [List.filter].
    rewrite app_nil_r in *.
    split; [exact Hreg|]. split; [destruct tracks; rewrite app_nil_r; reflexivity|].
    split; [apply same_outside_registry_refl|]. split; [|split].
    + intros z. rewrite bool_decide_eq_false_2 by (intros H; inversion H).
      unfold visited. reflexivity.
    + reflexivity.
    + intros z H. inversion H.
  - destruct fuel as [|fuel']; [simpl in Hfuel; lia|].
    pose proof Hreg as (Hhead & Hnd & Hseg).
    pose proof (segment_middle _ _ _ _ Hseg) as (_ & (i & Hi & _ & Hn) & _).
    pose proof (NoDup_middle _ _ _ Hnd) as (_ & _ & Hx1 & Hx2 & _ & _).
    rewrite head_or_None in Hn.
    cbn [head iterate_from]. rewrite (deref_Some _ _ _ Hi), Hn.
    destruct (step_visits x s i Hi) as (wp & Hmp & Hhp & Hsp & Hstep).
    assert (Hregp : registry wp (kept ++ x :: rest')).
    { apply (registry_ext (world_of s)); [exact Hhp| |exact Hreg].
      intros y _. rewrite Hmp. destruct (decide (x = y)) as [->|Hne].
      - rewrite lookup_insert_eq, Hi. simpl. rewrite g_keeps_link. reflexivity.
      - rewrite lookup_insert_ne by exact Hne. reflexivity. }
    assert (Hsel : selected dec m x = dec i) by (unfold selected, m; rewrite Hi; reflexivity).
    cbn [List.filter]. rewrite Hsel.
    destruct (dec i) eqn:Edec.
    + (* selected: unlinked *)
      destruct (unlink_registered wp kept x rest' Hregp)
        as (wu & ip & Hip & Hrun & Hmu & Hregu & Hsu).
      assert (ip = g i) by (rewrite Hmp, lookup_insert_eq in Hip; congruence). subst ip.
      destruct (Hstep wu Hrun) as (s1 & -> & Hw1 & Hacc1).
      rewrite <- Hw1 in Hregu, Hmu, Hsu.
      destruct (IH fuel' kept s1 Hregu ltac:(simpl in Hfuel; lia))
        as (s' & Hrun' & Hreg' & Hacc' & Hs' & Hvis' & Hframe' & Hun').
      assert (Hfu : forall z, forget_link <$> (instances (world_of s1) !! z)
                     = forget_link <$> (<[x := g i]> m !! z)).
      { intros z. rewrite Hmu, Hmp, <- !lookup_fmap, unlinked_map_forget. reflexivity. }
      assert (Hsel' : forall y, elem_of y rest' ->
                selected dec (instances (world_of s1)) y = selected dec m y).
      { intros y Hy. apply selected_forget. rewrite Hfu.
        rewrite lookup_insert_ne; [reflexivity|]. intros ->. contradiction. }
      exists s'. split; [exact Hrun'|]. simpl negb. cbv iota. split; [|split; [|split; [|split; [|split]]]].
      * erewrite filter_ext_in; [exact Hreg'|].
        intros y Hy%list_elem_of_In. simpl. rewrite Hsel'; [reflexivity|exact Hy].
      * rewrite Hacc', Hacc1. destruct tracks; [|rewrite !app_nil_r; reflexivity].
        rewrite <- app_assoc. simpl. do 2 f_equal.
        apply filter_ext_in. intros y Hy%list_elem_of_In. apply Hsel', Hy.
      * apply (same_outside_registry_trans _ wp); [exact Hsp|].
        apply (same_outside_registry_trans _ (world_of s1)); assumption.
      * intros z. rewrite Hvis'. destruct (decide (z = x)) as [->|Hne].
        -- rewrite bool_decide_eq_false_2 by exact Hx2.
           rewrite bool_decide_eq_true_2 by left.
           unfold m. rewrite Hi. change (visited g false) with forget_link.
           rewrite Hfu, lookup_insert_eq. reflexivity.
        -- rewrite (visited_forget _ _ (m !! z)).
           ++ do 2 f_equal. apply bool_decide_ext. rewrite elem_of_cons. tauto.
           ++ rewrite Hfu, lookup_insert_ne by congruence. reflexivity.
      * intros z Hz. rewrite elem_of_app, elem_of_cons in Hz.
        rewrite Hframe' by (rewrite elem_of_app; tauto).
        rewrite Hmu, (unlinked_map_outside _ kept x rest'), Hmp, lookup_insert_ne;
          [reflexivity|intros ->; tauto| | |].
        -- destruct Hregp as (_ & _ & H). exact H.
        -- rewrite Hmp, lookup_insert_eq. reflexivity.
        -- rewrite elem_of_app, elem_of_cons. tauto.
      * intros z Hz Hselz. apply elem_of_cons in Hz as [->|Hz].
        -- exists (with_link (mkLink None None) (g i)). split; [|reflexivity].
           rewrite Hframe' by (rewrite elem_of_app; tauto).
           rewrite Hmu. apply (unlinked_map_self _ kept x rest').
           ++ destruct Hregp as (_ & H & _). exact H.
           ++ destruct Hregp as (_ & _ & H). exact H.
           ++ rewrite Hmp, lookup_insert_eq. reflexivity.
        -- apply Hun'; [exact Hz|]. rewrite Hsel' by exact Hz. exact Hselz.
    + (* not selected: kept *)
      destruct Hstep as (s1 & -> & Hw1 & Hacc1).
      rewrite <- Hw1 in Hregp, Hmp, Hsp.
      assert (Hregp' : registry (world_of s1) ((kept ++ [x]) ++ rest'))
        by (rewrite <- app_assoc; exact Hregp).
      destruct (IH fuel' (kept ++ [x]) s1 Hregp' ltac:(simpl in Hfuel; lia))
        as (s' & Hrun' & Hreg' & Hacc' & Hs' & Hvis' & Hframe' & Hun').
      assert (Hsel' : forall y, elem_of y rest' ->
                selected dec (instances (world_of s1)) y = selected dec m y).
      { intros y Hy. unfold selected. rewrite Hmp, lookup_insert_ne; [reflexivity|].
        intros ->. contradiction. }
      exists s'. split; [exact Hrun'|]. simpl negb. cbv iota. split; [|split; [|split; [|split; [|split]]]].
      * rewrite <- app_assoc in Hreg'. simpl in Hreg'.
        erewrite filter_ext_in; [exact Hreg'|].
        intros y Hy%list_elem_of_In. simpl. rewrite Hsel'; [reflexivity|exact Hy].
      * rewrite Hacc', Hacc1. destruct tracks; [|reflexivity]. f_equal.
        apply filter_ext_in. intros y Hy%list_elem_of_In. apply Hsel', Hy.
      * apply (same_outside_registry_trans _ (world_of s1)); assumption.
      * intros z. rewrite Hvis', Hmp. destruct (decide (z = x)) as [->|Hne].
        -- rewrite bool_decide_eq_false_2 by exact Hx2.
           rewrite bool_decide_eq_true_2 by left.
           unfold m. rewrite Hi, lookup_insert_eq. reflexivity.
        -- rewrite lookup_insert_ne by congruence.
           do 2 f_equal. apply bool_decide_ext. rewrite elem_of_cons. tauto.
      * intros z Hz. rewrite elem_of_app, elem_of_cons in Hz.
        rewrite Hframe' by (rewrite !elem_of_app, list_elem_of_singleton; tauto).
        rewrite Hmp, lookup_insert_ne; [reflexivity|intros ->; tauto].
      * intros z Hz Hselz. apply elem_of_cons in Hz as [->|Hz].
        -- rewrite Hsel in Hselz. discriminate.
        -- apply Hun'; [exact Hz|]. rewrite Hsel' by exact Hz. exact Hselz.
Qed.

End Sweep.

(** The first loop of [remove_wrapped_gobjects_if], for a predicate that
    decides by [dec] and leaves [g] of the instance behind. *)
Section RemoveIf.

Variables (predicate : InstancePtr -> World -> result (bool * World))
  (dec : ObjectInstance -> bool) (g : ObjectInstance -> ObjectInstance).

Hypothesis dec_link : forall l i, dec (with_link l i) = dec i.
Hypothesis g_link : forall l i, g (with_link l i) = with_link l (g i).
Hypothesis predicate_spec : forall x w i,
  instances w !! x = Some i ->
  exists w1, predicate x w = Done (dec i, w1) /\
    instances w1 = <[x := g i]> (instances w) /\
    wrapped_gobject_list w1 = wrapped_gobject_list w /\
    same_outside_registry w w1.

Lemma remove_if_first_loop (fuel : nat) (w : World) (l : list InstancePtr) :
  registry w l -> (length l <= fuel)%nat ->
  let m := instances w in
  exists w1,
    iterate_wrapped_gobjects snd (remove_if_step predicate) fuel ([], w)
      = Some (Done (List.filter (selected dec m) l, w1)) /\
    registry w1 (List.filter (fun x => negb (selected dec m x)) l) /\
    same_outside_registry w w1 /\
    (forall z, forget_link <$> (instances w1 !! z)
               = visited g (bool_decide (elem_of z l)) <$> (m !! z)) /\
    (forall z, ~ elem_of z l -> instances w1 !! z = m !! z) /\
    (forall z, elem_of z l -> selected dec m z = true ->
       exists i', instances w1 !! z = Some i' /\ unlinked i').
Proof.
  intros Hreg Hfuel m.
  destruct (sweep_from (list InstancePtr * World) snd fst true
              (remove_if_step predicate) dec g dec_link g_link) with
    (rest := l) (fuel := fuel) (kept := @nil InstancePtr) (s := (@nil InstancePtr, w))
    as ([removed w1] & Hrun & Hreg1 & Hacc & Hs & Hvis & Hframe & Hun).
  - intros x [removed w0] i Hi. simpl in Hi.
    destruct (predicate_spec x w0 i Hi) as (wp & Hp & Hm & Hh & Hsp).
    exists wp. split; [exact Hm|]. split; [exact Hh|]. split; [exact Hsp|].
    unfold remove_if_step. rewrite Hp. cbn [mbind result_bind].
    destruct (dec i).
    + intros wu Hrun. rewrite Hrun. cbn [mbind result_bind]. eexists.
      split; [reflexivity|]. split; reflexivity.
    + eexists. split; [reflexivity|]. split; reflexivity.
  - exact Hreg.
  - exact Hfuel.
  - simpl in Hacc, Hreg1, Hs, Hvis, Hframe, Hun. subst removed.
    exists w1. split.
    + unfold iterate_wrapped_gobjects. cbn [snd].
      destruct Hreg as (-> & _). exact Hrun.
    + split; [exact Hreg1|]. split; [exact Hs|]. split; [exact Hvis|].
      split; assumption.
Qed.

End RemoveIf.

Lemma NoDup_List_filter {A} (f : A -> bool) (l : list A) :
  NoDup l -> NoDup (List.filter f l).
Proof.
  induction 1 as [|x l Hx Hnd IH]; simpl; [constructor|].
  destruct (f x); [|exact IH]. constructor; [|exact IH].
  intros Hin. apply Hx. apply list_elem_of_In in Hin. apply filter_In in Hin as [Hin _].
  apply list_elem_of_In, Hin.
Qed.

Lemma elem_of_List_filter {A} (f : A -> bool) (l : list A) (x : A) :
  elem_of x (List.filter f l) <-> elem_of x l /\ f x = true.
Proof. rewrite !list_elem_of_In. apply filter_In. Qed.

(** The second loop of [remove_wrapped_gobjects_if], for an action that
    turns the instance it is run on into [G] of it, under an invariant
    [Inv] of the world that it keeps. *)
Section SecondLoop.

Variables (action : InstancePtr -> World -> result World)
  (G : ObjectInstance -> ObjectInstance) (Inv : World -> Prop).

Hypothesis action_spec : forall x w i,
  Inv w -> instances w !! x = Some i ->
  exists w', action x w = Done w' /\
    instances w' = <[x := G i]> (instances w) /\
    wrapped_gobject_list w' = wrapped_gobject_list w /\ Inv w'.

Lemma run_actions_each (removed : list InstancePtr) :
  forall w, NoDup removed -> Inv w ->
  (forall x, elem_of x removed -> is_Some (instances w !! x)) ->
  exists w', run_actions action removed w = Done w' /\
    wrapped_gobject_list w' = wrapped_gobject_list w /\ Inv w' /\
    forall z, instances w' !! z
              = (if bool_decide (elem_of z removed) then G <$> (instances w !! z)
                 else instances w !! z).
Proof.
  induction removed as [|x rest IH]; intros w Hnd Hinv Hall.
  - exists w. split; [reflexivity|]. split; [reflexivity|]. split; [exact Hinv|].
    intros z. rewrite bool_decide_eq_false_2 by (intros H; inversion H). reflexivity.
  - apply NoDup_cons in Hnd as [Hx Hnd].
    destruct (Hall x ltac:(left)) as [i Hi].
    destruct (action_spec x w i Hinv Hi) as (w1 & Hrun & Hm & Hh & Hinv1).
    destruct (IH w1 Hnd Hinv1) as (w' & Hrun' & Hh' & Hinv' & Hm').
    { intros y Hy. rewrite Hm. destruct (decide (x = y)) as [->|Hne].
      - rewrite lookup_insert_eq. eauto.
      - rewrite lookup_insert_ne by exact Hne. apply Hall. right. exact Hy. }
    exists w'. cbn [run_actions]. rewrite Hrun. cbn [mbind result_bind].
    split; [exact Hrun'|]. split; [congruence|]. split; [exact Hinv'|].
    intros z. rewrite Hm', Hm. destruct (decide (x = z)) as [->|Hne].
    + rewrite bool_decide_eq_false_2 by exact Hx.
      rewrite bool_decide_eq_true_2 by left.
      rewrite lookup_insert_eq, Hi. reflexivity.
    + rewrite lookup_insert_ne by exact Hne.
      rewrite (bool_decide_ext (elem_of z (x :: rest)) (elem_of z rest)); [reflexivity|].
      rewrite elem_of_cons. split; [intros [->|H]; [contradiction|exact H]|tauto].
Qed.

End SecondLoop.

(** What the steps of a disassociation leave alone: the head of the
    registry and the toggle queue. *)
Lemma release_native_object_frame (this : InstancePtr) (w w' : World) :
  release_native_object this w = Done w' ->
  wrapped_gobject_list w' = wrapped_gobject_list w /\ toggle_queue w' = toggle_queue w.
Proof.
  unfold release_native_object.
  destruct (deref w this) as [i|]; [|discriminate]. cbn [mbind result_bind].
  destruct (deref (update this discard_wrapper w) this) as [i1|]; [|discriminate].
  cbn [mbind result_bind]. intros [= <-].
  destruct (m_uses_toggle_ref i1), (m_ptr i1); split; reflexivity.
Qed.

Lemma invalidate_all_closures_frame (this : InstancePtr) (w w' : World) :
  invalidate_all_closures this w = Done w' ->
  wrapped_gobject_list w' = wrapped_gobject_list w /\ toggle_queue w' = toggle_queue w.
Proof.
  unfold invalidate_all_closures.
  destruct (deref w this) as [i|]; [|discriminate]. cbn [mbind result_bind].
  destruct (invalidate_loop (m_closures i)) as [inv rem]. intros [= <-].
  unfold update, emit_events. simpl.
  generalize (map Call_g_closure_invalidate inv). intros evs. revert w.
  induction evs as [|e evs IH]; intros w; simpl; [split; reflexivity|].
  apply (IH (emit_event e w)).
Qed.

Lemma unset_object_qdata_frame (this : InstancePtr) (w w' : World) :
  unset_object_qdata this w = Done w' ->
  wrapped_gobject_list w' = wrapped_gobject_list w /\ toggle_queue w' = toggle_queue w.
Proof.
  unfold unset_object_qdata.
  destruct (deref w this) as [i|]; [|discriminate]. cbn [mbind result_bind].
  intros [= <-]. destruct (m_ptr i); split; reflexivity.
Qed.

Lemma disassociate_frame (this : InstancePtr) (w w' : World) :
  disassociate_js_gobject this w = Done w' ->
  wrapped_gobject_list w' = wrapped_gobject_list w /\
  (ToggleQueue.q (toggle_queue w) = [] -> ToggleQueue.q (toggle_queue w') = []).
Proof.
  unfold disassociate_js_gobject.
  destruct (deref w this) as [i|]; [|discriminate]. cbn [mbind result_bind].
  set (w1 := if negb (m_gobj_disposed i) then _ else w).
  assert (H1 : wrapped_gobject_list w1 = wrapped_gobject_list w /\
               toggle_queue w1 = toggle_queue w)
    by (subst w1; destruct (m_gobj_disposed i); split; reflexivity).
  assert (H2 : wrapped_gobject_list (snd (cancel_toggles (m_ptr i) w1))
               = wrapped_gobject_list w1 /\
               (ToggleQueue.q (toggle_queue w1) = [] ->
                ToggleQueue.q (toggle_queue (snd (cancel_toggles (m_ptr i) w1))) = [])).
  { destruct (m_ptr i) as [p|]; simpl; [|tauto]. split; [reflexivity|].
    intros ->. reflexivity. }
  destruct (cancel_toggles (m_ptr i) w1) as [[hd hu] w2]. simpl in H2.
  destruct (negb (eqb hd hu)); [discriminate|].
  destruct (unset_object_qdata this w2) as [w3|] eqn:E3; [|discriminate].
  cbn [mbind result_bind].
  destruct (invalidate_all_closures this w3) as [w4|] eqn:E4; [|discriminate].
  cbn [mbind result_bind].
  destruct (release_native_object this w4) as [w5|] eqn:E5; [|discriminate].
  cbn [mbind result_bind].
  destruct (deref _ this) as [i6|]; [|discriminate]. cbn [mbind result_bind].
  destruct (clear_wrapper i6) as [i7|]; [|discriminate]. cbn [mbind result_bind].
  intros [= <-].
  apply unset_object_qdata_frame in E3 as [a1 a2].
  apply invalidate_all_closures_frame in E4 as [b1 b2].
  apply release_native_object_frame in E5 as [c1 c2].
  destruct H1 as [d1 d2], H2 as [e1 e2]. simpl. split; [congruence|].
  intros Hq. rewrite c2, b2, a2. apply e2. rewrite d2. exact Hq.
Qed.

Lemma lookup_forgotten (m m' : gmap InstancePtr ObjectInstance) (x : InstancePtr)
    (i : ObjectInstance) (f : ObjectInstance -> ObjectInstance) :
  forget_link <$> (m' !! x) = f <$> (m !! x) -> m !! x = Some i ->
  exists i1, m' !! x = Some i1 /\ forget_link i1 = f i.
Proof.
  intros H Hx. rewrite Hx in H. destruct (m' !! x) as [i1|]; [|discriminate].
  exists i1. split; [reflexivity|]. cbn in H. congruence.
Qed.

Lemma released_unlinked (i1 i : ObjectInstance) :
  unlinked i1 -> forget_link i1 = forget_link i -> released i1 = forget_link (released i).
Proof.
  destruct i1 as [g1 p1 wr1 l1 c1 d1 f1 u1], i as [g0 p0 wr0 l0 c0 d0 f0 u0].
  unfold unlinked. simpl. intros -> H.
  injection H as -> -> -> -> -> -> ->. reflexivity.
Qed.

(** X1: [prepare_shutdown] leaves no registered instance rooted: every
    registered instance whose wrapper was rooted has been taken out of the
    registry and has let go of both its wrapper and its native object;
    the others stay registered, in their order, with their fields as
    they were. *)
Theorem prepare_shutdown_releases_rooted (fuel : nat) (w : World)
    (l : list InstancePtr) :
  registry w l -> (length l <= fuel)%nat ->
  exists w', prepare_shutdown fuel w = Some (Done w') /\
    registry w'
      (List.filter (fun x => negb (selected wrapper_is_rooted (instances w) x)) l) /\
    forall x i, instances w !! x = Some i ->
      exists i', instances w' !! x = Some i' /\
        if bool_decide (elem_of x l) && wrapper_is_rooted i
        then unlinked i' /\ i' = forget_link (released i)
        else forget_link i' = forget_link i.
Proof.
  intros Hreg Hfuel.
  destruct (remove_if_first_loop wrapper_is_rooted_pred wrapper_is_rooted (fun i => i))
    with (fuel := fuel) (w := w) (l := l)
    as (w1 & Hrun & Hreg1 & Hs1 & Hvis & Hframe & Hun);
    [reflexivity|reflexivity| |exact Hreg|exact Hfuel|].
  { intros x w0 i Hi. exists w0. unfold wrapper_is_rooted_pred. run_deref Hi.
    split; [reflexivity|]. split; [symmetry; apply insert_id, Hi|].
    split; [reflexivity|apply same_outside_registry_refl]. }
  cbv zeta in *.
  set (removed := List.filter (selected wrapper_is_rooted (instances w)) l) in *.
  destruct (run_actions_each release_native_object released (fun _ => True))
    with (removed := removed) (w := w1) as (w' & Hrun' & Hh' & _ & Hm').
  { intros x w0 i _ Hi.
    destruct (release_native_object_spec w0 x i Hi) as (w2 & Hr & Hm & _).
    exists w2. split; [exact Hr|]. split; [exact Hm|].
    split; [apply (release_native_object_frame _ _ _ Hr)|exact I]. }
  { apply NoDup_List_filter. destruct Hreg as (_ & H & _). exact H. }
  { exact I. }
  { intros x Hx. apply elem_of_List_filter in Hx as [Hx Hsel].
    destruct (Hun x Hx Hsel) as (i' & Hi' & _). eauto. }
  exists w'. split.
  { unfold prepare_shutdown, remove_wrapped_gobjects_if. rewrite Hrun. f_equal. exact Hrun'. }
  split.
  { apply (registry_ext w1); [exact Hh'| |exact Hreg1].
    intros x _. rewrite Hm'. destruct (bool_decide _); [|reflexivity].
    destruct (instances w1 !! x); reflexivity. }
  intros x i Hi.
  destruct (lookup_forgotten _ _ x i _ (Hvis x) Hi) as (i1 & Hi1 & Hf1).
  assert (Hf : forget_link i1 = forget_link i)
    by (rewrite Hf1; unfold visited; destruct (bool_decide _); reflexivity).
  rewrite Hm', Hi1.
  assert (Hrem : elem_of x removed <-> bool_decide (elem_of x l) && wrapper_is_rooted i = true).
  { unfold removed. rewrite elem_of_List_filter. unfold selected. rewrite Hi.
    rewrite andb_true_iff, bool_decide_eq_true. reflexivity. }
  destruct (bool_decide (elem_of x l) && wrapper_is_rooted i) eqn:E.
  - rewrite bool_decide_eq_true_2 by (apply Hrem; reflexivity).
    eexists. split; [reflexivity|].
    apply andb_true_iff in E as [Hx%bool_decide_eq_true Hr].
    destruct (Hun x Hx) as (i2 & Hi2 & Hu2); [unfold selected; rewrite Hi; exact Hr|].
    assert (i2 = i1) by congruence. subst i2.
    split; [exact Hu2|].
    apply released_unlinked; assumption.
  - rewrite bool_decide_eq_false_2 by (rewrite Hrem; discriminate).
    eexists. split; [reflexivity|exact Hf].
Qed.

Lemma unrooted_by_dispose_link (l : GjsListLink) (i : ObjectInstance) :
  unrooted_by_dispose (with_link l i) = with_link l (unrooted_by_dispose i).
Proof.
  unfold unrooted_by_dispose.
  change (wrapper_is_rooted (with_link l i)) with (wrapper_is_rooted i).
  destruct (wrapper_is_rooted i); reflexivity.
Qed.

(** X2: when the context is disposed, every registered instance whose
    wrapper was rooted drops the wrapper and leaves the registry, but
    keeps its native object: no reference is released and no external
    call is made.  The others stay registered, in their order, with
    their fields as they were. *)
Theorem context_dispose_notify_unroots (fuel : nat) (w : World)
    (l : list InstancePtr) :
  registry w l -> (length l <= fuel)%nat ->
  exists w', context_dispose_notify fuel w = Some (Done w') /\
    registry w'
      (List.filter (fun x => negb (selected wrapper_is_rooted (instances w) x)) l) /\
    same_outside_registry w w' /\
    forall x i, instances w !! x = Some i ->
      exists i', instances w' !! x = Some i' /\
        if bool_decide (elem_of x l) && wrapper_is_rooted i
        then i' = forget_link (discard_wrapper i)
        else forget_link i' = forget_link i.
Proof.
  intros Hreg Hfuel.
  destruct (sweep_from World (fun w => w) (fun _ => []) false handle_context_dispose
              wrapper_is_rooted unrooted_by_dispose) with
    (rest := l) (fuel := fuel) (kept := @nil InstancePtr) (s := w)
    as (w' & Hrun & Hreg' & _ & Hs & Hvis & Hframe & Hun);
    [reflexivity|apply unrooted_by_dispose_link| |exact Hreg|exact Hfuel|].
  { intros x w0 i Hi. unfold handle_context_dispose, unrooted_by_dispose. run_deref Hi.
    destruct (wrapper_is_rooted i).
    - exists (update x discard_wrapper w0).
      split; [apply update_instances, Hi|]. split; [reflexivity|]. split; [repeat split|].
      intros wu Hwu. exists wu. split; [exact Hwu|]. split; reflexivity.
    - exists w0. split; [symmetry; apply insert_id, Hi|]. split; [reflexivity|].
      split; [apply same_outside_registry_refl|].
      exists w0. split; [reflexivity|]. split; reflexivity. }
  cbv zeta in *. exists w'. split.
  { unfold context_dispose_notify, iterate_wrapped_gobjects.
    destruct Hreg as (-> & _). exact Hrun. }
  split; [exact Hreg'|]. split; [exact Hs|].
  intros x i Hi.
  destruct (lookup_forgotten _ _ x i _ (Hvis x) Hi) as (i1 & Hi1 & Hf1).
  exists i1. split; [exact Hi1|]. unfold visited, unrooted_by_dispose in Hf1.
  destruct (bool_decide (elem_of x l)) eqn:Ex; simpl.
  - destruct (wrapper_is_rooted i) eqn:Er; [|exact Hf1].
    apply bool_decide_eq_true in Ex.
    destruct (Hun x Ex) as (i2 & Hi2 & Hu2); [unfold selected; rewrite Hi; exact Er|].
    assert (i2 = i1) by congruence. subst i2.
    rewrite <- Hf1. unfold forget_link. rewrite <- Hu2. symmetry. apply with_link_same.
  - exact Hf1.
Qed.

Lemma swept_by_gc_link (dying : JSObjectPtr -> bool) (l : GjsListLink)
    (i : ObjectInstance) :
  swept_by_gc dying (with_link l i) = swept_by_gc dying i.
Proof.
  unfold swept_by_gc, update_after_gc.
  change (wrapper (with_link l i)) with (wrapper i).
  destruct (wrapper i) as [o|]; [destruct (dying o)|]; reflexivity.
Qed.

Lemma updated_by_gc_link (dying : JSObjectPtr -> bool) (l : GjsListLink)
    (i : ObjectInstance) :
  updated_by_gc dying (with_link l i) = with_link l (updated_by_gc dying i).
Proof.
  unfold updated_by_gc, update_after_gc.
  change (wrapper (with_link l i)) with (wrapper i).
  change (has_wrapper (with_link l i)) with (has_wrapper i).
  change (wrapper_is_rooted (with_link l i)) with (wrapper_is_rooted i).
  destruct (has_wrapper i && negb (wrapper_is_rooted i)); [|reflexivity].
  destruct (wrapper i) as [o|]; [destruct (dying o)|]; reflexivity.
Qed.

Lemma weak_pointer_was_finalized_spec (dying : JSObjectPtr -> bool) (x : InstancePtr)
    (w : World) (i : ObjectInstance) :
  instances w !! x = Some i ->
  exists w1, weak_pointer_was_finalized dying x w = Done (swept_by_gc dying i, w1) /\
    instances w1 = <[x := updated_by_gc dying i]> (instances w) /\
    wrapped_gobject_list w1 = wrapped_gobject_list w /\
    same_outside_registry w w1.
Proof.
  intros Hi. unfold weak_pointer_was_finalized, swept_by_gc, updated_by_gc. run_deref Hi.
  destruct (has_wrapper i && negb (wrapper_is_rooted i)).
  - destruct (update_after_gc dying i) as [dead i1]. eexists. split; [reflexivity|].
    split; [apply (update_instances _ _ _ _ Hi)|]. split; [reflexivity|repeat split].
  - exists w. split; [reflexivity|]. split; [symmetry; apply insert_id, Hi|].
    split; [reflexivity|apply same_outside_registry_refl].
Qed.

Lemma disassociated_unlinked (dying : JSObjectPtr -> bool) (i1 i : ObjectInstance) :
  unlinked i1 -> forget_link i1 = forget_link (updated_by_gc dying i) ->
  disassociated i1 = forget_link (disassociated i).
Proof.
  unfold updated_by_gc, update_after_gc, has_wrapper, wrapper_is_rooted, wrapper, unlinked.
  destruct i1 as [g1 p1 wr1 l1 c1 d1 f1 u1], i as [g0 p0 [[o|] r] l0 c0 d0 f0 u0].
  - simpl. intros ->. destruct r; simpl.
    + intros H. injection H as -> -> -> -> -> -> ->. reflexivity.
    + destruct (dying o); simpl; intros H; injection H as -> -> -> -> -> -> ->; reflexivity.
  - simpl. intros -> H. injection H as -> -> -> -> -> -> ->. reflexivity.
Qed.

Lemma adjust_ref_count_gobjects (d : Z) (o : option GObjectPtr) (w w0 : World) :
  gobjects w0 = gobjects w ->
  gobjects (adjust_ref_count d o w0) = gobjects (adjust_ref_count d o w).
Proof. intros H. destruct o; simpl; [rewrite H|exact H]. reflexivity. Qed.

Lemma release_native_object_gobjects (this : InstancePtr) (w w' : World)
    (i : ObjectInstance) :
  instances w !! this = Some i -> release_native_object this w = Done w' ->
  gobjects w' = gobjects (adjust_ref_count (-1) (m_ptr i) w).
Proof.
  intros H. unfold release_native_object. run_deref H.
  rewrite (deref_Some _ _ (discard_wrapper i)) by (apply update_lookup; exact H).
  cbn [mbind result_bind]. intros [= <-].
  change (m_ptr (discard_wrapper i)) with (m_ptr i).
  change (m_uses_toggle_ref (discard_wrapper i)) with (m_uses_toggle_ref i).
  destruct (m_uses_toggle_ref i), (m_ptr i); reflexivity.
Qed.

Lemma disassociate_gobjects (this : InstancePtr) (w w' : World) (i : ObjectInstance) :
  instances w !! this = Some i -> disassociate_js_gobject this w = Done w' ->
  gobjects w' = gobjects (adjust_ref_count (-1) (m_ptr i) w) /\
  instances w' = <[this := disassociated i]> (instances w).
Proof.
  intros H. unfold disassociate_js_gobject. run_deref H.
  set (w0 := if negb (m_gobj_disposed i) then _ else w).
  assert (Hi0 : instances w0 = instances w)
    by (subst w0; destruct (m_gobj_disposed i); reflexivity).
  assert (Hg0 : gobjects w0 = gobjects w)
    by (subst w0; destruct (m_gobj_disposed i); reflexivity).
  pose proof (cancel_toggles_instances (m_ptr i) w0) as Hci.
  pose proof (cancel_toggles_gobjects (m_ptr i) w0) as Hcg.
  destruct (cancel_toggles (m_ptr i) w0) as [[hd hu] w2]. simpl in Hci, Hcg.
  destruct (negb (eqb hd hu)); [discriminate|].
  assert (H2 : instances w2 !! this = Some i) by (rewrite Hci, Hi0; exact H).
  destruct (unset_object_qdata_spec w2 this i H2) as (w3 & -> & Hi3 & Hg3).
  cbn [mbind result_bind].
  assert (H3 : instances w3 !! this = Some i) by (rewrite Hi3; exact H2).
  destruct (invalidate_all_closures_spec w3 this i H3) as (w4 & -> & Hi4 & Hg4).
  cbn [mbind result_bind].
  assert (H4 : instances w4 !! this = Some (with_closures [] i))
    by (rewrite Hi4; apply lookup_insert_eq).
  destruct (release_native_object_spec w4 this _ H4) as (w5 & Hr5 & Hi5 & _).
  pose proof (release_native_object_gobjects this w4 w5 _ H4 Hr5) as Hg5.
  rewrite Hr5. cbn [mbind result_bind].
  assert (H5 : instances w5 !! this = Some (with_ptr None (discard_wrapper (with_closures [] i))))
    by (rewrite Hi5; apply lookup_insert_eq).
  rewrite (deref_Some _ _ _ (update_lookup _ _ _ _ H5)). simpl.
  intros [= <-]. split.
  - simpl. rewrite Hg5. apply adjust_ref_count_gobjects. congruence.
  - rewrite (update_instances _ _ _ _ (update_lookup _ _ _ _ H5)).
    rewrite (update_instances _ _ _ _ H5).
    rewrite Hi5, Hi4, Hi3, Hci, Hi0.
    rewrite !insert_insert_eq. reflexivity.
Qed.

(** The references that a run of disassociations takes from a native
    object: one for each instance of the list that points to it. *)
Lemma run_disassociate_refs (removed : list InstancePtr) :
  forall (w w' : World) (q : GObjectPtr) (g : GObject),
  NoDup removed -> run_actions disassociate_js_gobject removed w = Done w' ->
  gobjects w !! q = Some g ->
  exists g', gobjects w' !! q = Some g' /\
    ref_count g'
    = ref_count g
      - Z.of_nat (length (List.filter
                            (fun x => bool_decide (m_ptr <$> instances w !! x = Some (Some q)))
                            removed)).
Proof.
  induction removed as [|x rest IH]; intros w w' q g Hnd Hrun Hq.
  - simpl in Hrun. injection Hrun as <-. exists g. split; [exact Hq|]. simpl. lia.
  - apply NoDup_cons in Hnd as [Hx Hnd]. cbn [run_actions] in Hrun.
    destruct (disassociate_js_gobject x w) as [w1|] eqn:E1; [|discriminate].
    cbn [mbind result_bind] in Hrun.
    destruct (instances w !! x) as [i|] eqn:Hi.
    2:{ unfold disassociate_js_gobject, deref in E1. rewrite Hi in E1. discriminate. }
    destruct (disassociate_gobjects x w w1 i Hi E1) as [Hg1 Hm1].
    assert (Hsame : List.filter
                      (fun y => bool_decide (m_ptr <$> instances w1 !! y = Some (Some q))) rest
                    = List.filter
                        (fun y => bool_decide (m_ptr <$> instances w !! y = Some (Some q))) rest).
    { apply List.filter_ext_in. intros y Hy. apply list_elem_of_In in Hy.
      rewrite Hm1, lookup_insert_ne; [reflexivity|]. intros ->. contradiction. }
    cbn [List.filter]. rewrite Hi. cbn [fmap option_fmap option_map].
    destruct (decide (m_ptr i = Some q)) as [Hp|Hp].
    + rewrite bool_decide_eq_true_2 by (f_equal; exact Hp).
      destruct (IH w1 w' q (mkGObject (ref_count g + -1) (g_type_instance g)
                              (g_properties g) (g_fields g)) Hnd Hrun)
        as (g' & Hg' & Hc).
      { rewrite Hg1, Hp. simpl. rewrite lookup_alter_eq, Hq. reflexivity. }
      exists g'. split; [exact Hg'|]. rewrite Hc, Hsame. simpl length. simpl ref_count. lia.
    + rewrite bool_decide_eq_false_2 by (intros [= E]; contradiction).
      destruct (IH w1 w' q g Hnd Hrun) as (g' & Hg' & Hc).
      { rewrite Hg1. destruct (m_ptr i) as [p|]; [|exact Hq]. simpl.
        rewrite lookup_alter_ne; [exact Hq|]. intros ->. contradiction. }
      exists g'. split; [exact Hg'|]. rewrite Hc, Hsame. reflexivity.
Qed.

Lemma filter_only_one {A} (f : A -> bool) (x : A) (l : list A) :
  NoDup l -> elem_of x l -> (forall y, elem_of y l -> f y = true <-> y = x) ->
  length (List.filter f l) = 1%nat.
Proof.
  induction 1 as [|y l Hy Hnd IH]; intros Hx Hf; [inversion Hx|].
  cbn [List.filter]. destruct (f y) eqn:Ey.
  - assert (y = x) by (apply Hf; [left|exact Ey]). subst y.
    simpl. f_equal. apply length_zero_iff_nil.
    destruct (List.filter f l) as [|z zs] eqn:Ez; [reflexivity|].
    assert (Hz : elem_of z (List.filter f l)) by (rewrite Ez; left).
    apply elem_of_List_filter in Hz as [Hz Hfz].
    assert (z = x) by (apply Hf; [right; exact Hz|exact Hfz]). subst z. contradiction.
  - apply IH.
    + apply elem_of_cons in Hx as [->|Hx]; [|exact Hx].
      assert (f y = true) by (apply Hf; [left|reflexivity]). congruence.
    + intros z Hz. apply Hf. right. exact Hz.
Qed.

Lemma forget_link_ptr (i i' : ObjectInstance) :
  forget_link i' = forget_link i -> m_ptr i' = m_ptr i.
Proof. destruct i, i'. unfold forget_link, with_link. simpl. congruence. Qed.

Lemma updated_by_gc_ptr (dying : JSObjectPtr -> bool) (i : ObjectInstance) :
  m_ptr (updated_by_gc dying i) = m_ptr i.
Proof.
  unfold updated_by_gc, update_after_gc.
  destruct (has_wrapper i && negb (wrapper_is_rooted i)); [|reflexivity].
  destruct (wrapper i) as [o|]; [|reflexivity]. destruct (dying o); reflexivity.
Qed.

Lemma visited_ptr (dying : JSObjectPtr -> bool) (c : bool) (i1 i : ObjectInstance) :
  forget_link i1 = visited (updated_by_gc dying) c i -> m_ptr i1 = m_ptr i.
Proof.
  unfold visited. intros H. apply forget_link_ptr in H. rewrite H.
  destruct c; [apply updated_by_gc_ptr|reflexivity].
Qed.

(** X3: the sweep after a garbage collection, with no toggle pending,
    when no instance it releases holds the last reference to its native
    object (the native object of each such instance records it and has
    a reference count above one, so that releasing it finalizes
    nothing): every registered instance whose wrapper is held weakly and
    is about to be finalized is taken out of the registry and
    disassociated from its native object, which loses exactly the
    reference of the instance and keeps another; rooted instances, and
    instances whose wrapper survives, stay registered, in their order,
    with their fields as they were. *)
Theorem weak_pointer_sweep_disassociates (dying : JSObjectPtr -> bool) (fuel : nat)
    (w : World) (l : list InstancePtr) :
  registry w l -> (length l <= fuel)%nat ->
  ToggleQueue.q (toggle_queue w) = [] ->
  (forall x i, elem_of x l -> instances w !! x = Some i -> swept_by_gc dying i = true ->
     exists p g, m_ptr i = Some p /\ object_qdata w !! p = Some x /\
                 gobjects w !! p = Some g /\ 1 < ref_count g) ->
  exists w', update_heap_wrapper_weak_pointers dying fuel w = Some (Done w') /\
    registry w'
      (List.filter (fun x => negb (selected (swept_by_gc dying) (instances w) x)) l) /\
    (forall x i, instances w !! x = Some i ->
      exists i', instances w' !! x = Some i' /\
        if bool_decide (elem_of x l) && swept_by_gc dying i
        then i' = forget_link (disassociated i)
        else forget_link i' = forget_link i) /\
    (forall x i p g, elem_of x l -> instances w !! x = Some i ->
      swept_by_gc dying i = true -> m_ptr i = Some p -> gobjects w !! p = Some g ->
      exists g', gobjects w' !! p = Some g' /\ ref_count g' = ref_count g - 1 /\
                 0 < ref_count g').
Proof.
  intros Hreg Hfuel Hq Hheld.
  destruct (remove_if_first_loop (weak_pointer_was_finalized dying)
              (swept_by_gc dying) (updated_by_gc dying))
    with (fuel := fuel) (w := w) (l := l)
    as (w1 & Hrun & Hreg1 & Hs1 & Hvis & Hframe & Hun);
    [apply swept_by_gc_link|apply updated_by_gc_link
    |apply weak_pointer_was_finalized_spec
    |exact Hreg|exact Hfuel|].
  cbv zeta in *.
  set (removed := List.filter (selected (swept_by_gc dying) (instances w)) l) in *.
  assert (Hnd : NoDup removed)
    by (apply NoDup_List_filter; destruct Hreg as (_ & H & _); exact H).
  destruct (run_actions_each disassociate_js_gobject disassociated
              (fun w0 => ToggleQueue.q (toggle_queue w0) = []))
    with (removed := removed) (w := w1) as (w' & Hrun' & Hh' & _ & Hm').
  { intros x w0 i Hq0 Hi.
    destruct (disassociate_result w0 x i Hi) as (w2 & Hr & Hm & _).
    { destruct (m_ptr i) as [p|]; [|reflexivity]. simpl.
      unfold ToggleQueue.is_queued. rewrite Hq0. reflexivity. }
    exists w2. split; [exact Hr|]. split; [exact Hm|].
    destruct (disassociate_frame _ _ _ Hr) as [Hh Hq2]. split; [exact Hh|]. apply Hq2, Hq0. }
  { exact Hnd. }
  { destruct Hs1 as (_ & _ & -> & _). exact Hq. }
  { intros x Hx. apply elem_of_List_filter in Hx as [Hx Hsel].
    destruct (Hun x Hx Hsel) as (i' & Hi' & _). eauto. }
  exists w'. split.
  { unfold update_heap_wrapper_weak_pointers, remove_wrapped_gobjects_if.
    rewrite Hrun. f_equal. exact Hrun'. }
  split.
  { apply (registry_ext w1); [exact Hh'| |exact Hreg1].
    intros x _. rewrite Hm'. destruct (bool_decide _); [|reflexivity].
    destruct (instances w1 !! x); reflexivity. }
  split.
  { intros x i Hi.
    destruct (lookup_forgotten _ _ x i _ (Hvis x) Hi) as (i1 & Hi1 & Hf1).
    rewrite Hm', Hi1.
    assert (Hrem : elem_of x removed <-> bool_decide (elem_of x l) && swept_by_gc dying i = true).
    { unfold removed. rewrite elem_of_List_filter. unfold selected. rewrite Hi.
      rewrite andb_true_iff, bool_decide_eq_true. reflexivity. }
    destruct (bool_decide (elem_of x l) && swept_by_gc dying i) eqn:E.
    - rewrite bool_decide_eq_true_2 by (apply Hrem; reflexivity).
      eexists. split; [reflexivity|].
      apply andb_true_iff in E as [Hx Hr]. pose proof Hx as Hx'%bool_decide_eq_true.
      destruct (Hun x Hx') as (i2 & Hi2 & Hu2); [unfold selected; rewrite Hi; exact Hr|].
      assert (i2 = i1) by congruence. subst i2.
      apply (disassociated_unlinked dying); [exact Hu2|].
      rewrite Hf1. unfold visited. rewrite Hx. reflexivity.
    - rewrite bool_decide_eq_false_2 by (rewrite Hrem; discriminate).
      eexists. split; [reflexivity|].
      rewrite Hf1. unfold visited, updated_by_gc.
      apply andb_false_iff in E as [E|E]; [rewrite E; reflexivity|].
      destruct (bool_decide _); [|reflexivity].
      unfold swept_by_gc in E.
      destruct (has_wrapper i && negb (wrapper_is_rooted i)) eqn:Ec; [|reflexivity].
      simpl in E. unfold update_after_gc in *. destruct (wrapper i) as [o|]; [|discriminate].
      destruct (dying o); [discriminate|reflexivity]. }
  intros x i p g Hx Hi Hsw Hp Hg.
  assert (Hg1 : gobjects w1 !! p = Some g)
    by (destruct Hs1 as (_ & -> & _); exact Hg).
  destruct (run_disassociate_refs removed w1 w' p g Hnd Hrun' Hg1) as (g' & Hg' & Hc).
  assert (Hptr1 : forall y iy, instances w !! y = Some iy ->
            m_ptr <$> instances w1 !! y = Some (m_ptr iy)).
  { intros y iy Hy.
    destruct (lookup_forgotten _ _ y iy _ (Hvis y) Hy) as (i1 & Hi1 & Hf1).
    rewrite Hi1. simpl. f_equal. exact (visited_ptr dying _ i1 iy Hf1). }
  assert (Hqx : object_qdata w !! p = Some x).
  { destruct (Hheld x i Hx Hi Hsw) as (p' & _ & Hp' & Hqd & _). congruence. }
  assert (Hone : length (List.filter
                   (fun y => bool_decide (m_ptr <$> instances w1 !! y = Some (Some p)))
                   removed) = 1%nat).
  { apply (filter_only_one _ x); [exact Hnd| |].
    - apply elem_of_List_filter. split; [exact Hx|]. unfold selected. rewrite Hi. exact Hsw.
    - intros y Hy. apply elem_of_List_filter in Hy as [Hy Hsel].
      unfold selected in Hsel. destruct (instances w !! y) as [iy|] eqn:Eiy; [|discriminate].
      rewrite bool_decide_eq_true, (Hptr1 y iy Eiy). split.
      + intros [= Hpy].
        destruct (Hheld y iy Hy Eiy Hsel) as (p' & _ & Hp' & Hqd & _). congruence.
      + intros ->. assert (iy = i) by congruence. subst iy. rewrite Hp. reflexivity. }
  exists g'. split; [exact Hg'|].
  destruct (Hheld x i Hx Hi Hsw) as (p' & g0 & Hp' & _ & Hg0 & Hpos).
  assert (p' = p) by congruence. subst p'. assert (g0 = g) by congruence. subst g0.
  rewrite Hc, Hone. lia.
Qed.

(** ** Keys and metadata *)

Lemma canonical_char_kept (c : ascii) :
  is_canonical_char c = true ->
  (if negb (Ascii.eqb c "-") && negb (in_range "0" "9" c)
      && negb (in_range "A" "Z" c) && negb (in_range "a" "z" c)
   then "-"%char else c) = c.
Proof.
  unfold is_canonical_char.
  destruct (Ascii.eqb c "-"), (in_range "0" "9" c), (in_range "A" "Z" c),
    (in_range "a" "z" c); simpl; intros H; try reflexivity; discriminate H.
Qed.

Lemma canonicalized_char_canonical (c : ascii) :
  is_canonical_char
    (if negb (Ascii.eqb c "-") && negb (in_range "0" "9" c)
        && negb (in_range "A" "Z" c) && negb (in_range "a" "z" c)
     then "-"%char else c) = true.
Proof.
  destruct (Ascii.eqb c "-") eqn:E1, (in_range "0" "9" c) eqn:E2,
    (in_range "A" "Z" c) eqn:E3, (in_range "a" "z" c) eqn:E4; simpl;
    unfold is_canonical_char; rewrite ?E1, ?E2, ?E3, ?E4; reflexivity.
Qed.

Lemma canonicalize_key_all_canonical (key : string) :
  string_forallb is_canonical_char (canonicalize_key key) = true.
Proof.
  induction key as [|c rest IH]; cbn [canonicalize_key string_forallb]; [reflexivity|].
  rewrite canonicalized_char_canonical, IH. reflexivity.
Qed.

(** X4: a canonicalized key is as long as the key and consists of letters,
    digits and hyphens only, whatever bytes the key held; a key that
    already does is left as it is, so that canonicalizing twice is the
    same as canonicalizing once. *)
Theorem canonicalize_key_canonical (key : string) :
  String.length (canonicalize_key key) = String.length key /\
  string_forallb is_canonical_char (canonicalize_key key) = true /\
  (string_forallb is_canonical_char key = true -> canonicalize_key key = key) /\
  canonicalize_key (canonicalize_key key) = canonicalize_key key.
Proof.
  assert (Hfix : forall s, string_forallb is_canonical_char s = true ->
                           canonicalize_key s = s).
  { induction s as [|c rest IH]; cbn [canonicalize_key string_forallb]; [reflexivity|].
    intros H. apply andb_prop in H. destruct H as [Hc Hr].
    rewrite (canonical_char_kept c Hc), (IH Hr). reflexivity. }
  split; [|split; [apply canonicalize_key_all_canonical|split; [apply Hfix|]]].
  - induction key as [|c rest IH]; cbn [canonicalize_key String.length]; [reflexivity|].
    rewrite IH. reflexivity.
  - apply Hfix, canonicalize_key_all_canonical.
Qed.

Lemma find_first_split {A} (p : A -> bool) (l : list A) (x : A) :
  find p l = Some x <->
  exists l1 l2, l = l1 ++ x :: l2 /\ p x = true /\ forall y, In y l1 -> p y = false.
Proof.
  induction l as [|a l IH]; simpl.
  - split; [discriminate|]. intros (l1 & l2 & H & _). destruct l1; discriminate H.
  - destruct (p a) eqn:Ea.
    + split.
      * intros [= <-]. exists [], l. repeat split; [exact Ea|]. intros y [].
      * intros (l1 & l2 & H & Hx & Hl1). destruct l1 as [|b l1].
        -- injection H as -> _. reflexivity.
        -- injection H as -> _. rewrite (Hl1 b) in Ea by (left; reflexivity). discriminate.
    + rewrite IH. split.
      * intros (l1 & l2 & -> & Hx & Hl1). exists (a :: l1), l2.
        repeat split; [exact Hx|]. intros y [<-|Hy]; [exact Ea|apply Hl1, Hy].
      * intros (l1 & l2 & H & Hx & Hl1). destruct l1 as [|b l1].
        -- injection H as -> _. congruence.
        -- injection H as -> ->. exists l1, l2. repeat split; [exact Hx|].
           intros y Hy. apply Hl1. right. exact Hy.
Qed.

Lemma streq_true (a b : string) : streq a b = true <-> a = b.
Proof. unfold streq. apply bool_decide_eq_true. Qed.

Lemma streq_false (a b : string) : streq a b = false <-> a <> b.
Proof. unfold streq. apply bool_decide_eq_false. Qed.

(** X5: [lookup_field_info] returns a field exactly when it is the first
    field of that name in the declaration order of the type and is
    readable: the loop stops at the first field of the name, so that
    when this one is not readable the lookup finds nothing, whatever
    fields of the same name follow it. *)
Theorem lookup_field_info_first_match (info : GIObjectInfo) (name : string)
    (field : GIFieldInfo) :
  lookup_field_info info name = Some field <->
  exists before after,
    info_fields info = before ++ field :: after /\
    field_name field = name /\
    (forall f, In f before -> field_name f <> name) /\
    has_flag (field_flags field) GI_FIELD_IS_READABLE = true.
Proof.
  unfold lookup_field_info. split.
  - destruct (find _ (info_fields info)) as [f|] eqn:E; [|discriminate].
    destruct (has_flag (field_flags f) GI_FIELD_IS_READABLE) eqn:Er; [|discriminate].
    intros [= <-]. apply find_first_split in E.
    destruct E as (l1 & l2 & Hl & Hn & Hb). exists l1, l2.
    split; [exact Hl|]. split; [symmetry; apply streq_true, Hn|].
    split; [|exact Er]. intros g Hg Heq. specialize (Hb g Hg).
    apply streq_false in Hb. congruence.
  - intros (l1 & l2 & Hl & Hn & Hb & Hr).
    assert (E : find (fun f => streq name (field_name f)) (info_fields info) = Some field).
    { apply find_first_split. exists l1, l2. split; [exact Hl|].
      split; [apply streq_true; congruence|].
      intros g Hg. apply streq_false. intros Heq. apply (Hb g Hg). congruence. }
    rewrite E, Hr. reflexivity.
Qed.

(** X6: [find_vfunc_on_parents] looks on the type and its interfaces first,
    and reports a virtual function found there as not defined by a
    parent; otherwise it returns the one of the nearest ancestor that
    declares the name, reported as defined by a parent. *)
Theorem find_vfunc_on_parents_nearest (info : GIObjectInfo) (name : string) :
  (forall v, g_object_info_find_vfunc_using_interfaces info name = Some v ->
     find_vfunc_on_parents info name = (Some v, false)) /\
  (g_object_info_find_vfunc_using_interfaces info name = None ->
     find_vfunc_on_parents info name
       = (first_some (fun a => g_object_info_find_vfunc a name) (ancestors info), true)) /\
  (forall v before ancestor after,
     g_object_info_find_vfunc_using_interfaces info name = None ->
     ancestors info = before ++ ancestor :: after ->
     (forall a, In a before -> g_object_info_find_vfunc a name = None) ->
     g_object_info_find_vfunc ancestor name = Some v ->
     find_vfunc_on_parents info name = (Some v, true)).
Proof.
  unfold find_vfunc_on_parents. split; [|split].
  - intros v ->. reflexivity.
  - intros ->. rewrite find_vfunc_loop_ancestors. reflexivity.
  - intros v before ancestor after -> Ha Hb Hv.
    rewrite find_vfunc_loop_ancestors, Ha. f_equal.
    clear Ha. induction before as [|b before IH]; simpl.
    + rewrite Hv. reflexivity.
    + rewrite (Hb b) by (left; reflexivity). apply IH.
      intros a Hin. apply Hb. right. exact Hin.
Qed.

(** X7: a property descriptor found once is served from the cache of the
    prototype afterwards: the second lookup returns the same descriptor
    without asking the type system or the engine, and changes nothing. *)
Theorem find_param_spec_cached (T T' : TypeSystem) (cx cx' : JSContext) (this : GType)
    (key : string) (w w1 : World) (pspec : GParamSpec) :
  find_param_spec_from_id T cx this key w = Done (Some pspec, w1) ->
  find_param_spec_from_id T' cx' this key w1 = Done (Some pspec, w1).
Proof.
  unfold find_param_spec_from_id at 1.
  destruct (deref_proto w this) as [proto|] eqn:Ep; [|discriminate].
  cbn [mbind result_bind].
  unfold deref_proto in Ep. destruct (prototypes w !! this) as [p|] eqn:El; [|discriminate].
  injection Ep as ->.
  destruct (m_property_cache proto !! key) as [cached|] eqn:Ec.
  - intros [= -> <-]. unfold find_param_spec_from_id, deref_proto. rewrite El.
    cbn [mbind result_bind]. rewrite Ec. reflexivity.
  - destruct (cx_encode_fails cx); [discriminate|].
    destruct (g_object_class_find_property T (p_gtype proto) _) as [found|];
      [|discriminate].
    destruct (cx_cache_insert_fails cx); [discriminate|].
    intros [= -> <-]. unfold find_param_spec_from_id, deref_proto, update_proto. simpl.
    rewrite lookup_alter_eq, El. simpl. rewrite lookup_insert_eq. reflexivity.
Qed.


(** ** Properties of the native object *)

Lemma find_param_spec_cache_hit (T : TypeSystem) (cx : JSContext) (this : GType)
    (key : string) (w : World) (proto : ObjectPrototype) (pspec : GParamSpec) :
  prototypes w !! this = Some proto ->
  m_property_cache proto !! key = Some pspec ->
  find_param_spec_from_id T cx this key w = Done (Some pspec, w).
Proof.
  intros Hp Hc. unfold find_param_spec_from_id, deref_proto. rewrite Hp.
  cbn [mbind result_bind]. rewrite Hc. reflexivity.
Qed.

Lemma find_param_spec_caches (T : TypeSystem) (cx : JSContext) (this : GType)
    (key : string) (w w1 : World) (pspec : GParamSpec) :
  find_param_spec_from_id T cx this key w = Done (Some pspec, w1) ->
  exists proto, prototypes w1 !! this = Some proto /\
                m_property_cache proto !! key = Some pspec.
Proof.
  unfold find_param_spec_from_id, deref_proto.
  destruct (prototypes w !! this) as [proto|] eqn:El; [|discriminate].
  cbn [mbind result_bind].
  destruct (m_property_cache proto !! key) as [cached|] eqn:Ec.
  - intros [= -> <-]. exists proto. split; assumption.
  - destruct (cx_encode_fails cx); [discriminate|].
    destruct (g_object_class_find_property T (p_gtype proto) _) as [found|];
      [|discriminate].
    destruct (cx_cache_insert_fails cx); [discriminate|].
    intros [= -> <-]. eexists. split.
    + unfold update_proto. simpl. rewrite lookup_alter_eq, El. reflexivity.
    + simpl. apply lookup_insert_eq.
Qed.

(** X8: setting a readable and writable native property and getting it
    afterwards.  The setter hands the converted value to
    [g_object_set_property], once, and reports success without looking
    at what the native object made of it.  It leaves the descriptor in
    the cache of the prototype: a getter that runs later, while the
    instance is as it was and the cache is as the setter left it, asks
    neither the type system nor the engine for the descriptor, reads
    the native object once and hands back the value that the native
    object holds at that moment, converted to the engine (or fails
    where the conversion back does). *)
Theorem property_set_then_get (T T' : TypeSystem) (M : Marshaller) (cx cx' : JSContext)
    (this : InstancePtr) (name : string) (value rval : JSValue) (w w1 : World)
    (i : ObjectInstance) (p : GObjectPtr) (pspec : GParamSpec) (gvalue : GValue) :
  instances w !! this = Some i -> m_gobj_disposed i = false ->
  m_ptr i = Some p ->
  find_param_spec_from_id T cx (m_gtype i) name w = Done (Some pspec, w1) ->
  pspec_custom_property pspec = false ->
  has_flag (pspec_flags pspec) G_PARAM_WRITABLE = true ->
  has_flag (pspec_flags pspec) G_PARAM_READABLE = true ->
  gjs_value_to_g_value M value (pspec_value_type pspec) = Some gvalue ->
  exists w2,
    prop_setter_impl T M cx this name value w = Done (true, w2) /\
    trace w2 = trace w1 ++ [Call_gjs_value_to_g_value value;
                            Call_g_object_set_property (Some p) (pspec_name pspec) gvalue] /\
    forall (later : World) (held : GValue),
      instances later !! this = Some i ->
      prototypes later = prototypes w2 ->
      native_property (Some p) (pspec_name pspec) later = held ->
      prop_getter_impl T' M cx' this name rval later
        = Done (match gjs_value_from_g_value M held with
                | Some v => (true, v)
                | None => (false, rval)
                end,
                emit_event (Call_gjs_value_from_g_value held)
                  (emit_event (Call_g_object_get_property (Some p) (pspec_name pspec))
                     later)).
Proof.
  intros Hi Hd Hptr Hf Hc Hw Hr Hconv.
  destruct (find_param_spec_caches _ _ _ _ _ _ _ Hf) as (proto & Hp1 & Hc1).
  set (w2 := g_object_set_property (m_ptr i) (pspec_name pspec) gvalue
               (emit_event (Call_gjs_value_to_g_value value) w1)).
  assert (Hset : prop_setter_impl T M cx this name value w = Done (true, w2)).
  { unfold prop_setter_impl. run_deref Hi.
    rewrite (check_gobject_disposed_alive _ _ _ Hd). cbn [negb].
    rewrite Hf. cbn [mbind result_bind]. rewrite Hc, Hw, Hconv. reflexivity. }
  exists w2. split; [exact Hset|].
  split; [subst w2; rewrite Hptr; simpl; rewrite <- app_assoc; reflexivity|].
  intros later held Hl Hpl Hheld.
  assert (Hp2 : prototypes later !! m_gtype i = Some proto)
    by (rewrite Hpl; subst w2; rewrite Hptr; exact Hp1).
  unfold prop_getter_impl. run_deref Hl.
  rewrite (check_gobject_disposed_alive _ _ _ Hd). cbn [negb].
  rewrite (find_param_spec_cache_hit T' cx' (m_gtype i) name later proto pspec Hp2 Hc1).
  cbn [mbind result_bind]. rewrite Hc, Hr. cbn [negb].
  unfold g_object_get_property. rewrite Hptr, Hheld.
  destruct (gjs_value_from_g_value M held); reflexivity.
Qed.

(** ** Disposed native objects *)

Lemma list_unlink_link_only (this : InstancePtr) (w w' : World) :
  GjsListLink.unlink this w = Done w' ->
  same_outside_registry w w' /\
  forget_link <$> instances w' = forget_link <$> instances w.
Proof.
  unfold GjsListLink.unlink.
  destruct (deref w this) as [l|]; [|discriminate]. cbn [mbind result_bind].
  set (r1 := match m_prev (m_instance_link l) with Some _ => _ | None => _ end).
  assert (H1 : forall w1, r1 = Done w1 ->
            same_outside_registry w w1 /\
            forget_link <$> instances w1 = forget_link <$> instances w).
  { subst r1. intros w1. destruct (m_prev (m_instance_link l)) as [prev|].
    - destruct (deref w prev); [|discriminate]. cbn [mbind result_bind].
      intros [= <-]. split; [repeat split|].
      unfold GjsListLink.set_next. apply update_link_only. reflexivity.
    - intros [= <-]. split; [apply same_outside_registry_refl|reflexivity]. }
  destruct r1 as [w1|]; [|discriminate]. cbn [mbind result_bind].
  destruct (H1 w1 eq_refl) as [Hs1 Hf1].
  destruct (deref w1 this) as [l1|]; [|discriminate]. cbn [mbind result_bind].
  set (r2 := match m_next (m_instance_link l1) with Some _ => _ | None => _ end).
  assert (H2 : forall w2, r2 = Done w2 ->
            same_outside_registry w1 w2 /\
            forget_link <$> instances w2 = forget_link <$> instances w1).
  { subst r2. intros w2. destruct (m_next (m_instance_link l1)) as [next|].
    - destruct (deref w1 next); [|discriminate]. cbn [mbind result_bind].
      intros [= <-]. split; [repeat split|].
      unfold GjsListLink.set_prev. apply update_link_only. reflexivity.
    - intros [= <-]. split; [apply same_outside_registry_refl|reflexivity]. }
  destruct r2 as [w2|]; [|discriminate]. cbn [mbind result_bind].
  destruct (H2 w2 eq_refl) as [Hs2 Hf2].
  intros [= <-]. split.
  - destruct Hs1 as (a1 & a2 & a3 & a4 & a5), Hs2 as (b1 & b2 & b3 & b4 & b5).
    repeat split; simpl; congruence.
  - rewrite update_link_only by reflexivity. congruence.
Qed.

Lemma unlink_link_only (this : InstancePtr) (w w' : World) :
  unlink this w = Done w' ->
  same_outside_registry w w' /\
  forget_link <$> instances w' = forget_link <$> instances w.
Proof.
  unfold unlink. destruct (deref w this) as [i|]; [|discriminate].
  cbn [mbind result_bind]. intros H.
  destruct (decide (wrapped_gobject_list w = Some this));
    apply list_unlink_link_only in H; exact H.
Qed.

Lemma forget_link_disposed (i i' : ObjectInstance) :
  forget_link i' = forget_link i -> m_gobj_disposed i' = m_gobj_disposed i.
Proof. destruct i, i'. unfold forget_link, with_link. simpl. congruence. Qed.

Lemma disposed_property_access (T : TypeSystem) (M : Marshaller) (cx : JSContext)
    (this : InstancePtr) (name : string) (value rval : JSValue) (w : World)
    (i : ObjectInstance) :
  instances w !! this = Some i -> m_gobj_disposed i = true ->
  exists m1 m2,
    prop_getter_impl T M cx this name rval w
      = Done (true, rval, emit_event (Log_g_critical m1) w) /\
    prop_setter_impl T M cx this name value w
      = Done (true, emit_event (Log_g_critical m2) w).
Proof.
  intros Hi Hd. unfold prop_getter_impl, prop_setter_impl, check_gobject_disposed.
  rewrite !(deref_Some _ _ _ Hi). cbn [mbind result_bind]. rewrite Hd. cbn [negb].
  do 2 eexists. split; reflexivity.
Qed.

(** X9: once the native object is disposed, the accessors of its instance
    (property getter and setter, field getter and setter, signal
    emission) all succeed without doing anything but log a critical
    message: no error is raised, the value is left as it was, and the
    native object is not touched. *)
Theorem disposed_instance_is_inert (depth : nat) (T : TypeSystem) (M : Marshaller)
    (cx : JSContext) (this : InstancePtr) (name : string) (value rval : JSValue)
    (argv : list JSValue) (w : World) (i : ObjectInstance) :
  instances w !! this = Some i -> m_gobj_disposed i = true ->
  exists m1 m2 m3 m4 m5,
    prop_getter_impl T M cx this name rval w
      = Done (true, rval, emit_event (Log_g_critical m1) w) /\
    prop_setter_impl T M cx this name value w
      = Done (true, emit_event (Log_g_critical m2) w) /\
    field_getter_impl depth T M this name rval w
      = Done (true, rval, emit_event (Log_g_critical m3) w) /\
    field_setter_not_impl depth T this name w
      = Done (true, emit_event (Log_g_critical m4) w) /\
    emit_impl T M this argv rval w
      = Done (true, rval, emit_event (Log_g_critical m5) w).
Proof.
  intros Hi Hd.
  unfold prop_getter_impl, prop_setter_impl, field_getter_impl, field_setter_not_impl,
    emit_impl, check_gobject_disposed.
  rewrite !(deref_Some _ _ _ Hi). cbn [mbind result_bind]. rewrite Hd. cbn [negb].
  do 5 eexists. repeat split; reflexivity.
Qed.

(** X10: after the dispose notification of its native object an instance is
    out of reach of the bridge: the notification itself makes no
    external call, and a property read or write through the wrapper
    afterwards succeeds and leaves the native heap as it was. *)
Theorem dispose_notify_disables_accessors (T : TypeSystem) (M : Marshaller)
    (cx : JSContext) (this : InstancePtr) (name : string) (value rval : JSValue)
    (w w1 : World) :
  gobj_dispose_notify this w = Done w1 ->
  gobjects w1 = gobjects w /\ trace w1 = trace w /\
  exists w2 w3,
    prop_getter_impl T M cx this name rval w1 = Done (true, rval, w2) /\
    prop_setter_impl T M cx this name value w1 = Done (true, w3) /\
    gobjects w2 = gobjects w /\ gobjects w3 = gobjects w.
Proof.
  unfold gobj_dispose_notify.
  destruct (deref w this) as [i|] eqn:Ed; [|discriminate]. cbn [mbind result_bind].
  apply deref_Done in Ed. intros Hu.
  destruct (unlink_link_only _ _ _ Hu) as [(Ht & Hg & _) Hf].
  destruct (forget_link_lookup _ _ this _ Hf (update_lookup _ _ _ _ Ed)) as (i1 & Hi1 & Hfi).
  pose proof (forget_link_disposed _ _ Hfi) as Hd1.
  change (m_gobj_disposed (with_gobj_disposed true i)) with true in Hd1.
  destruct (disposed_property_access T M cx this name value rval w1 i1 Hi1 Hd1)
    as (m1 & m2 & Hget & Hset).
  split; [exact Hg|]. split; [exact Ht|].
  eexists. eexists. split; [exact Hget|]. split; [exact Hset|].
  split; simpl; exact Hg.
Qed.

(** ** Toggling between a strong and a weak wrapper *)

Lemma unrooted_eta (i : ObjectInstance) :
  wrapper_is_rooted i = false ->
  with_wrapper (mkMaybeOwned (wrapper i) false) i = i.
Proof.
  destruct i as [t p [thing rooted] l c d f u]. unfold wrapper_is_rooted, wrapper. simpl.
  intros ->. reflexivity.
Qed.

Lemma update_same (w : World) (this : InstancePtr) (i : ObjectInstance) :
  instances w !! this = Some i -> instances (update this (fun _ => i) w) = instances w.
Proof.
  intros H. rewrite (update_instances _ _ _ i H). apply insert_id. exact H.
Qed.

(** X11: a toggle up followed by a toggle down brings the instances back to
    where they were: the wrapper is rooted in between and weak again
    afterwards, and the only trace is the collection the toggle down
    schedules outside teardown. *)
Theorem toggle_up_then_down (w : World) (this : InstancePtr) (i : ObjectInstance) :
  instances w !! this = Some i ->
  has_wrapper i = true -> wrapper_is_rooted i = false ->
  exists w1 w2 i1,
    toggle_up this w = Done w1 /\
    instances w1 !! this = Some i1 /\ wrapper_is_rooted i1 = true /\
    wrapper i1 = wrapper i /\
    toggle_down this w1 = Done w2 /\
    instances w2 = instances w /\
    trace w2 = trace w ++ (if destroying w then [] else [Call_schedule_gc]).
Proof.
  intros Hi Hw Hr.
  set (i1 := with_wrapper (mkMaybeOwned (wrapper i) true) i).
  assert (Hup : toggle_up this w = Done (update this (fun _ => i1) w)).
  { unfold toggle_up. run_deref Hi. rewrite Hw. cbn [negb]. rewrite Hr. cbn [negb].
    unfold switch_to_rooted. rewrite Hr. reflexivity. }
  set (w1 := update this (fun _ => i1) w) in *.
  assert (Hi1 : instances w1 !! this = Some i1)
    by (subst w1; apply (update_lookup w this (fun _ => i1) i Hi)).
  set (w1' := update this (fun _ => i) w1).
  assert (Hback : instances w1' = instances w).
  { subst w1' w1. rewrite (update_instances _ this (fun _ => i) i1 Hi1).
    rewrite (update_instances w this (fun _ => i1) i Hi).
    rewrite insert_insert_eq. apply insert_id. exact Hi. }
  exists w1, (if destroying w then w1' else emit_event Call_schedule_gc w1'), i1.
  split; [exact Hup|]. split; [exact Hi1|]. split; [reflexivity|]. split; [reflexivity|].
  unfold toggle_down. run_deref Hi1. change (wrapper_is_rooted i1) with true.
  cbn [switch_to_unrooted]. unfold switch_to_unrooted.
  change (wrapper_is_rooted i1) with true. cbn [g_assert mbind result_bind].
  change (with_wrapper (mkMaybeOwned (wrapper i1) false) i1)
    with (with_wrapper (mkMaybeOwned (wrapper i) false) i).
  rewrite (unrooted_eta i Hr). fold w1'.
  change (destroying w1') with (destroying w).
  destruct (destroying w); cbn [negb].
  - split; [reflexivity|]. split; [exact Hback|]. simpl. symmetry. apply app_nil_r.
  - split; [reflexivity|]. split; [exact Hback|]. reflexivity.
Qed.

(** X12: toggling in a direction twice is the same as toggling once: the
    second call finds the wrapper in the state the first left it in and
    does nothing, not even schedule a collection. *)
Theorem toggles_are_idempotent (w w1 : World) (this : InstancePtr) :
  (toggle_up this w = Done w1 -> toggle_up this w1 = Done w1) /\
  (toggle_down this w = Done w1 -> toggle_down this w1 = Done w1).
Proof.
  split.
  - unfold toggle_up at 1. destruct (deref w this) as [i|] eqn:Ed; [|discriminate].
    cbn [mbind result_bind]. apply deref_Done in Ed.
    destruct (has_wrapper i) eqn:Hw; cbn [negb].
    + destruct (wrapper_is_rooted i) eqn:Hr; cbn [negb].
      * intros [= <-]. unfold toggle_up. run_deref Ed. rewrite Hw, Hr. reflexivity.
      * unfold switch_to_rooted. rewrite Hr. cbn [negb g_assert mbind result_bind].
        intros [= <-]. unfold toggle_up.
        rewrite (deref_Some _ _ _
                   (update_lookup w this
                      (fun _ => with_wrapper (mkMaybeOwned (wrapper i) true) i) i Ed)).
        cbn [mbind result_bind].
        change (has_wrapper (with_wrapper (mkMaybeOwned (wrapper i) true) i))
          with (has_wrapper i).
        rewrite Hw. reflexivity.
    + intros [= <-]. unfold toggle_up. run_deref Ed. rewrite Hw. reflexivity.
  - unfold toggle_down at 1. destruct (deref w this) as [i|] eqn:Ed; [|discriminate].
    cbn [mbind result_bind]. apply deref_Done in Ed.
    destruct (wrapper_is_rooted i) eqn:Hr.
    + unfold switch_to_unrooted. rewrite Hr. cbn [g_assert mbind result_bind].
      set (w' := update this _ w).
      assert (Hi' : instances w' !! this
                    = Some (with_wrapper (mkMaybeOwned (wrapper i) false) i))
        by (subst w';
            apply (update_lookup w this
                     (fun _ => with_wrapper (mkMaybeOwned (wrapper i) false) i) i Ed)).
      destruct (negb (destroying w')); intros [= <-]; unfold toggle_down, deref;
        try change (instances (emit_event Call_schedule_gc w')) with (instances w');
        rewrite Hi'; reflexivity.
    + intros [= <-]. unfold toggle_down. run_deref Ed. rewrite Hr. reflexivity.
Qed.

(** ** Linking and unlinking *)

Lemma update_fixed (w : World) (x : InstancePtr) (f : ObjectInstance -> ObjectInstance)
    (i : ObjectInstance) :
  instances w !! x = Some i -> f i = i -> update x f w = w.
Proof.
  intros Hi Hf. unfold update.
  assert (E : alter f x (instances w) = instances w).
  { apply map_eq. intros k. destruct (decide (x = k)) as [->|Hne].
    - rewrite lookup_alter_eq, Hi. simpl. rewrite Hf. reflexivity.
    - rewrite lookup_alter_ne by exact Hne. reflexivity. }
  rewrite E. destruct w. reflexivity.
Qed.

Lemma unlink_unlinked (w : World) (x : InstancePtr) (i : ObjectInstance) :
  instances w !! x = Some i -> unlinked i -> wrapped_gobject_list w <> Some x ->
  unlink x w = Done w.
Proof.
  intros Hi Hu Hh. unfold unlink. run_deref Hi.
  destruct (decide (wrapped_gobject_list w = Some x)); [contradiction|].
  unfold GjsListLink.unlink. run_deref Hi. rewrite Hu. cbn [m_prev m_next mbind result_bind].
  run_deref Hi. rewrite Hu. cbn [m_prev m_next mbind result_bind].
  rewrite (update_fixed w x _ i Hi); [reflexivity|].
  rewrite <- Hu. apply with_link_same.
Qed.

Lemma head_elem_of {A} (l : list A) (x : A) : head l = Some x -> elem_of x l.
Proof. destruct l; [discriminate|]. intros [= ->]. left. Qed.

(** X13: linking an instance that is in no list puts it at the head of the
    registry, in front of the instances already there and without
    touching any field of any instance but the links; unlinking it again
    gives the registry back. *)
Theorem link_prepends (w : World) (l : list InstancePtr) (x : InstancePtr)
    (i : ObjectInstance) :
  registry w l -> ~ elem_of x l -> instances w !! x = Some i -> unlinked i ->
  exists w' w'',
    link x w = Done w' /\ registry w' (x :: l) /\
    forget_link <$> instances w' = forget_link <$> instances w /\
    same_outside_registry w w' /\
    unlink x w' = Done w'' /\ registry w'' l.
Proof.
  intros Hreg Hx Hi Hu.
  destruct (link_registered w l x i Hreg Hx Hi Hu) as (w' & Hrun & Hreg' & _ & Hs).
  destruct (unlink_registered w' [] x l Hreg') as (w'' & _ & _ & Hrun' & _ & Hreg'' & _).
  exists w', w''. split; [exact Hrun|]. split; [exact Hreg'|].
  split; [apply (link_link_only _ _ _ Hrun)|]. split; [exact Hs|].
  split; [exact Hrun'|exact Hreg''].
Qed.

(** X14: unlinking a registered instance takes exactly that instance out of
    the registry, wherever it stands, keeps the order of the others and
    leaves the instance with null links; only links change.  A second
    unlink does nothing. *)
Theorem unlink_removes (w : World) (l1 : list InstancePtr) (x : InstancePtr)
    (l2 : list InstancePtr) :
  registry w (l1 ++ x :: l2) ->
  exists w' i',
    unlink x w = Done w' /\ registry w' (l1 ++ l2) /\
    instances w' !! x = Some i' /\ unlinked i' /\
    forget_link <$> instances w' = forget_link <$> instances w /\
    same_outside_registry w w' /\
    unlink x w' = Done w'.
Proof.
  intros Hreg. pose proof Hreg as (_ & Hnd & Hseg).
  destruct (unlink_registered w l1 x l2 Hreg) as (w' & i & Hi & Hrun & Hm & Hreg' & Hs).
  assert (Hx' : instances w' !! x = Some (with_link (mkLink None None) i))
    by (rewrite Hm; apply (unlinked_map_self _ l1 x l2); assumption).
  exists w', (with_link (mkLink None None) i).
  split; [exact Hrun|]. split; [exact Hreg'|]. split; [exact Hx'|].
  split; [reflexivity|]. split; [rewrite Hm; apply unlinked_map_forget|].
  split; [exact Hs|].
  apply (unlink_unlinked w' x _ Hx'); [reflexivity|].
  destruct Hreg' as (-> & _). intros Hh%head_elem_of.
  apply NoDup_middle in Hnd as (_ & _ & Hx1 & Hx2 & _).
  apply elem_of_app in Hh as [H|H]; contradiction.
Qed.

(** X15: [GjsListLink::size] counts from the link it is called on to the end
    of the chain: the whole registry from the head, and only the
    instances behind it from anywhere else. *)
Theorem size_counts_to_the_end (w : World) (l1 : list InstancePtr) (x : InstancePtr)
    (l2 : list InstancePtr) (fuel : nat) :
  registry w (l1 ++ x :: l2) -> (length l2 < fuel)%nat ->
  list_link_size fuel x 0 w = Some (Done (S (length l2))).
Proof.
  intros (_ & _ & Hseg) Hfuel. apply segment_app in Hseg as [_ Hseg].
  apply (list_link_size_segment w _ x l2 fuel 0 Hseg). simpl. lia.
Qed.

(** ** Deferred toggles *)

Lemma clear_toggles_unfold (w : World) :
  gjs_object_clear_toggles w =
  match ToggleQueue.handle_toggle (toggle_queue w) with
  | None => Done w
  | Some (item, tq) =>
      match toggle_handler (ToggleQueue.gobj item) (ToggleQueue.direction item)
              (with_toggle_queue tq w) with
      | Abort f => Abort f
      | Done w1 => gjs_object_clear_toggles w1
      end
  end.
Proof.
  funelim (gjs_object_clear_toggles w).
  - rewrite e. reflexivity.
  - rewrite Hpop, Hrun. reflexivity.
  - rewrite Hpop, e. reflexivity.
Qed.

Lemma toggle_handler_queue (gobj : GObjectPtr) (d : ToggleQueue.Direction)
    (w w1 : World) :
  toggle_handler gobj d w = Done w1 ->
  toggle_queue w1 = toggle_queue w /\ destroying w1 = destroying w.
Proof.
  unfold toggle_handler, on_instance_of, for_gobject, check_js_object_finalized,
    toggle_up, toggle_down, deref, switch_to_rooted, switch_to_unrooted,
    g_object_get_qdata, g_assert.
  intros Hrun. cbn [mbind result_bind] in Hrun.
  repeat match type of Hrun with
         | context [match ?x with _ => _ end] => destruct x eqn:?; simpl in Hrun
         end.
  all: try discriminate Hrun.
  all: injection Hrun as <-; split; reflexivity.
Qed.

(** X16: draining the toggle queue leaves nothing pending: when
    [gjs_object_clear_toggles] returns, the queue is empty, and it is
    open or shut down as before. *)
Theorem clear_toggles_drains (w w' : World) :
  gjs_object_clear_toggles w = Done w' ->
  ToggleQueue.q (toggle_queue w') = [] /\
  ToggleQueue.m_shutdown (toggle_queue w') = ToggleQueue.m_shutdown (toggle_queue w) /\
  gjs_object_clear_toggles w' = Done w'.
Proof.
  remember (length (ToggleQueue.q (toggle_queue w))) as n eqn:Hn.
  revert w Hn. induction n as [|n IH]; intros w Hn; rewrite clear_toggles_unfold;
    unfold ToggleQueue.handle_toggle;
    destruct (ToggleQueue.q (toggle_queue w)) as [|item rest] eqn:Eq;
    try discriminate Hn.
  - intros [= <-]. split; [exact Eq|]. split; [reflexivity|].
    rewrite clear_toggles_unfold. unfold ToggleQueue.handle_toggle. rewrite Eq. reflexivity.
  - destruct (toggle_handler _ _ _) as [w1|] eqn:Eh; [|discriminate].
    apply toggle_handler_queue in Eh as [Eh _]. simpl in Eh.
    intros Hrun. destruct (IH w1) as (H1 & H2 & H3); [rewrite Eh; simpl in *; lia|exact Hrun|].
    split; [exact H1|]. split; [rewrite H2, Eh; reflexivity|exact H3].
Qed.

Lemma with_toggle_queue_same (w : World) (tq : ToggleQueue.t) :
  toggle_queue w = tq -> with_toggle_queue tq w = w.
Proof. intros <-. destruct w. reflexivity. Qed.

(** X17: a toggle notification that arrives on another thread is only queued;
    draining the queue on the owning thread then has exactly the outcome
    the notification would have had, had it arrived on the owning thread. *)
Theorem deferred_toggle_equals_inline (gobj : GObjectPtr) (is_last_ref : bool)
    (w : World) :
  destroying w = false -> toggle_queue w = ToggleQueue.mk [] false ->
  exists wq,
    wrapped_gobj_toggle_notify false gobj is_last_ref w = Done wq /\
    instances wq = instances w /\ trace wq = trace w /\
    gjs_object_clear_toggles wq = wrapped_gobj_toggle_notify true gobj is_last_ref w.
Proof.
  intros Hd Hq.
  set (d := if is_last_ref then ToggleQueue.DOWN else ToggleQueue.UP).
  exists (with_toggle_queue (ToggleQueue.mk [ToggleQueue.mkItem gobj d] false) w).
  assert (Hinline : wrapped_gobj_toggle_notify true gobj is_last_ref w
                    = toggle_handler gobj d w).
  { unfold wrapped_gobj_toggle_notify. rewrite Hd, Hq. subst d.
    destruct is_last_ref; reflexivity. }
  split.
  { unfold wrapped_gobj_toggle_notify. rewrite Hd, Hq. subst d.
    destruct is_last_ref; reflexivity. }
  split; [reflexivity|]. split; [reflexivity|].
  rewrite Hinline, clear_toggles_unfold. cbn [ToggleQueue.handle_toggle toggle_queue
    with_toggle_queue ToggleQueue.q ToggleQueue.m_shutdown ToggleQueue.gobj
    ToggleQueue.direction].
  assert (Hw : with_toggle_queue (ToggleQueue.mk [] false)
                 (with_toggle_queue (ToggleQueue.mk [ToggleQueue.mkItem gobj d] false) w)
               = w).
  { destruct w. simpl in *. rewrite Hq. reflexivity. }
  simpl. rewrite Hw.
  destruct (toggle_handler gobj d w) as [w1|] eqn:Eh; [|reflexivity].
  rewrite clear_toggles_unfold.
  apply toggle_handler_queue in Eh as [Eh _]. rewrite Eh, Hq. reflexivity.
Qed.

(** ** Closures of an instance *)

Lemma filter_ne_fixed (c : GClosurePtr) (l : list GClosurePtr) :
  ~ elem_of c l -> filter (fun x => x <> c) l = l.
Proof.
  induction l as [|a l IH]; intros Hc; [reflexivity|].
  rewrite filter_cons_True by (intros ->; apply Hc; left).
  rewrite IH; [reflexivity|]. intros H. apply Hc. right. exact H.
Qed.

Lemma invalidate_loop_first (l : list GClosurePtr) :
  NoDup (fst (invalidate_loop l)) /\
  (forall c, elem_of c (fst (invalidate_loop l)) <-> elem_of c l) /\
  (NoDup l -> fst (invalidate_loop l) = l).
Proof.
  funelim (invalidate_loop l).
  - split; [constructor|]. split; [reflexivity|reflexivity].
  - simp invalidate_loop.
    unfold closure_invalidated_notify, forward_list_remove in *.
    rewrite (filter_cons_False _ closure rest) in * by tauto.
    destruct (invalidate_loop _) as [invalidated remaining].
    simpl in *. destruct H as (Hnd & Hin & Hfix). split; [|split].
    + constructor; [|exact Hnd]. rewrite Hin, !list_elem_of_filter. tauto.
    + intros c. rewrite !elem_of_cons, Hin, !list_elem_of_filter.
      destruct (decide (c = closure)); tauto.
    + intros Hl. apply NoDup_cons in Hl as [Hc Hl]. f_equal.
      rewrite !(filter_ne_fixed closure rest Hc) in Hfix. apply Hfix, Hl.
Qed.

(** X18: invalidating all closures of an instance invalidates each of them
    exactly once, in the order of the list, lets go of them all, and
    makes no other external call. *)
Theorem closures_invalidated_once (w : World) (this : InstancePtr)
    (i : ObjectInstance) :
  instances w !! this = Some i ->
  exists w' invalidated,
    invalidate_all_closures this w = Done w' /\
    trace w' = trace w ++ map Call_g_closure_invalidate invalidated /\
    NoDup invalidated /\
    (forall c, elem_of c invalidated <-> elem_of c (m_closures i)) /\
    (NoDup (m_closures i) -> invalidated = m_closures i) /\
    instances w' = <[this := with_closures [] i]> (instances w).
Proof.
  intros Hi. rewrite (invalidate_all_closures_result _ _ _ Hi).
  destruct (invalidate_loop_first (m_closures i)) as (Hnd & Hin & Hfix).
  eexists. exists (fst (invalidate_loop (m_closures i))).
  split; [reflexivity|]. split; [reflexivity|]. split; [exact Hnd|].
  split; [exact Hin|]. split; [exact Hfix|].
  apply (update_instances (emit_events _ w) this (with_closures []) i). exact Hi.
Qed.

Lemma ref_and_unref (o : option GObjectPtr) (e1 e2 : event) (w : World) :
  gobjects (adjust_ref_count (-1) o (emit_event e2 (adjust_ref_count 1 o (emit_event e1 w))))
  = gobjects w.
Proof.
  destruct o as [p|]; [|reflexivity]. simpl. apply map_eq. intros k.
  destruct (decide (p = k)) as [->|Hne].
  - rewrite !lookup_alter_eq. destruct (gobjects w !! k) as [g|]; [|reflexivity].
    simpl. f_equal. destruct g as [rc t ps fs]. simpl. f_equal. lia.
  - rewrite !lookup_alter_ne by exact Hne. reflexivity.
Qed.

Lemma ensure_uses_toggle_ref_spec (w : World) (this : InstancePtr) (i : ObjectInstance) :
  instances w !! this = Some i ->
  m_uses_toggle_ref i = true \/ wrapper_is_rooted i = false ->
  exists w1,
    ensure_uses_toggle_ref this w = Done w1 /\
    instances w1 = <[this := if m_uses_toggle_ref i then i
                             else with_wrapper (mkMaybeOwned (wrapper i) true)
                                    (with_uses_toggle_ref true i)]> (instances w) /\
    gobjects w1 = gobjects w /\
    trace w1 = trace w ++ (if m_uses_toggle_ref i then []
                           else [Call_g_object_add_toggle_ref (m_ptr i);
                                 Call_g_object_unref (m_ptr i)]).
Proof.
  intros Hi Hpre. unfold ensure_uses_toggle_ref. run_deref Hi.
  destruct (m_uses_toggle_ref i) eqn:Eu.
  - exists w. split; [reflexivity|]. split; [symmetry; apply insert_id, Hi|].
    split; [reflexivity|]. symmetry. apply app_nil_r.
  - destruct Hpre as [Hpre|Hr]; [discriminate|]. rewrite Hr. cbn [negb g_assert mbind result_bind].
    unfold switch_to_rooted.
    change (wrapper_is_rooted (with_uses_toggle_ref true i)) with (wrapper_is_rooted i).
    rewrite Hr. cbn [negb g_assert mbind result_bind].
    eexists. split; [reflexivity|]. split; [|split].
    + unfold g_object_unref, g_object_add_toggle_ref.
      destruct (m_ptr _); simpl;
        exact (alter_as_insert (instances w) this
                 (fun _ => with_wrapper (mkMaybeOwned (wrapper i) true)
                             (with_uses_toggle_ref true i)) i Hi).
    + unfold g_object_unref, g_object_add_toggle_ref. rewrite ref_and_unref. reflexivity.
    + unfold g_object_unref, g_object_add_toggle_ref.
      destruct (m_ptr _) eqn:Ep; simpl in *; rewrite <- app_assoc; reflexivity.
Qed.

(** X19: switching an instance to a toggle reference, when the native
    object is held by another reference besides the one of the instance,
    so that giving up the plain reference after taking the toggle
    reference does not leave the toggle reference as the last one and
    no toggle notification is due: the wrapper is rooted, the reference
    count of the native object is where it was (the toggle reference
    replaces the plain one), and a second call does nothing. *)
Theorem ensure_uses_toggle_ref_once (w : World) (this : InstancePtr)
    (i : ObjectInstance) (p : GObjectPtr) (g : GObject) :
  instances w !! this = Some i ->
  m_uses_toggle_ref i = false -> wrapper_is_rooted i = false ->
  m_ptr i = Some p -> gobjects w !! p = Some g -> 1 < ref_count g ->
  exists w1 i1,
    ensure_uses_toggle_ref this w = Done w1 /\
    instances w1 !! this = Some i1 /\
    m_uses_toggle_ref i1 = true /\ wrapper_is_rooted i1 = true /\
    wrapper i1 = wrapper i /\ m_ptr i1 = Some p /\
    gobjects w1 !! p = Some g /\
    trace w1 = trace w ++ [Call_g_object_add_toggle_ref (Some p);
                           Call_g_object_unref (Some p)] /\
    ensure_uses_toggle_ref this w1 = Done w1.
Proof.
  intros Hi Hu Hr Hp Hg _.
  destruct (ensure_uses_toggle_ref_spec w this i Hi (or_intror Hr))
    as (w1 & Hrun & Hm & Hg1 & Ht).
  rewrite Hu in Hm, Ht. rewrite Hp in Ht.
  exists w1. eexists. split; [exact Hrun|].
  split; [rewrite Hm; apply lookup_insert_eq|].
  split; [reflexivity|]. split; [reflexivity|]. split; [reflexivity|].
  split; [exact Hp|]. split; [rewrite Hg1; exact Hg|]. split; [exact Ht|].
  unfold ensure_uses_toggle_ref.
  rewrite (deref_Some w1 this (with_wrapper (mkMaybeOwned (wrapper i) true)
                                 (with_uses_toggle_ref true i)))
    by (rewrite Hm; apply lookup_insert_eq).
  reflexivity.
Qed.

(** X20: associating a closure with an instance puts it in front of the
    closures of the instance and makes the instance hold its native
    object by a toggle reference; associating the same closure a second
    time trips the assertion. *)
Theorem associate_closure_adds (w : World) (this : InstancePtr) (i : ObjectInstance)
    (closure : GClosurePtr) :
  instances w !! this = Some i ->
  m_uses_toggle_ref i = true \/ wrapper_is_rooted i = false ->
  ~ elem_of closure (m_closures i) ->
  exists w1 i1,
    associate_closure this closure w = Done w1 /\
    instances w1 !! this = Some i1 /\
    m_closures i1 = closure :: m_closures i /\
    m_uses_toggle_ref i1 = true /\
    gobjects w1 = gobjects w /\
    associate_closure this closure w1
      = Abort (AssertFailed "This closure was already associated with this object").
Proof.
  intros Hi Hpre Hc.
  destruct (ensure_uses_toggle_ref_spec w this i Hi Hpre) as (w1 & Hrun & Hm & Hg & _).
  set (i1 := if m_uses_toggle_ref i then i
             else with_wrapper (mkMaybeOwned (wrapper i) true)
                    (with_uses_toggle_ref true i)) in *.
  assert (Hi1 : instances w1 !! this = Some i1) by (rewrite Hm; apply lookup_insert_eq).
  assert (Hc1 : m_closures i1 = m_closures i)
    by (subst i1; destruct (m_uses_toggle_ref i); reflexivity).
  assert (Hu1 : m_uses_toggle_ref i1 = true)
    by (subst i1; destruct (m_uses_toggle_ref i) eqn:E; [exact E|reflexivity]).
  assert (Hno : existsb (Pos.eqb closure) (m_closures i) = false).
  { apply not_true_is_false. intros H. apply existsb_exists in H as (c & Hin & Heq).
    apply Pos.eqb_eq in Heq. subst c. apply Hc, list_elem_of_In, Hin. }
  set (i2 := with_closures (closure :: m_closures i1) i1).
  exists (update this (with_closures (closure :: m_closures i1)) w1), i2.
  split.
  { unfold associate_closure. rewrite Hrun. cbn [mbind result_bind]. run_deref Hi1.
    rewrite Hc1, Hno. reflexivity. }
  assert (Hi2 : instances (update this (with_closures (closure :: m_closures i1)) w1)
                  !! this = Some i2) by (apply update_lookup; exact Hi1).
  split; [exact Hi2|]. split; [simpl; rewrite Hc1; reflexivity|].
  split; [exact Hu1|]. split; [exact Hg|].
  unfold associate_closure, ensure_uses_toggle_ref. run_deref Hi2.
  change (m_uses_toggle_ref i2) with (m_uses_toggle_ref i1). rewrite Hu1.
  cbn [mbind result_bind]. run_deref Hi2.
  change (m_closures i2) with (closure :: m_closures i1).
  cbn [existsb]. rewrite Pos.eqb_refl. reflexivity.
Qed.

(** ** After the disassociation *)

Lemma release_native_object_qdata (this : InstancePtr) (w w' : World) :
  release_native_object this w = Done w' -> object_qdata w' = object_qdata w.
Proof.
  unfold release_native_object.
  destruct (deref w this) as [i|]; [|discriminate]. cbn [mbind result_bind].
  destruct (deref (update this discard_wrapper w) this) as [i1|]; [|discriminate].
  cbn [mbind result_bind]. intros [= <-].
  destruct (m_uses_toggle_ref i1), (m_ptr i1); reflexivity.
Qed.

Lemma invalidate_all_closures_qdata (this : InstancePtr) (w w' : World) :
  invalidate_all_closures this w = Done w' -> object_qdata w' = object_qdata w.
Proof.
  unfold invalidate_all_closures.
  destruct (deref w this) as [i|]; [|discriminate]. cbn [mbind result_bind].
  destruct (invalidate_loop (m_closures i)) as [inv rem]. intros [= <-]. reflexivity.
Qed.

(** X21: disassociation makes the native object forget its instance: the
    reverse lookup from the native object finds nothing afterwards, and
    the association of every other native object is as before. *)
Theorem disassociate_forgets_wrapper (w : World) (this : InstancePtr)
    (i : ObjectInstance) (p : GObjectPtr) :
  instances w !! this = Some i -> m_ptr i = Some p ->
  fst (ToggleQueue.is_queued (toggle_queue w) p)
    = snd (ToggleQueue.is_queued (toggle_queue w) p) ->
  exists w',
    disassociate_js_gobject this w = Done w' /\
    for_gobject p w' = Done (None, w') /\
    forall q, q <> p -> g_object_get_qdata q w' = g_object_get_qdata q w.
Proof.
  intros Hi Hp Hsym.
  destruct (disassociate_result w this i Hi) as (w' & Hrun & _).
  { rewrite Hp. simpl. exact Hsym. }
  exists w'. split; [exact Hrun|].
  assert (Hq : object_qdata w' = delete p (object_qdata w)).
  { revert Hrun. unfold disassociate_js_gobject. run_deref Hi.
    set (w1 := if negb (m_gobj_disposed i) then _ else w).
    assert (H1 : object_qdata w1 = object_qdata w)
      by (subst w1; destruct (m_gobj_disposed i); reflexivity).
    assert (H2 : object_qdata (snd (cancel_toggles (m_ptr i) w1)) = object_qdata w1 /\
                 instances (snd (cancel_toggles (m_ptr i) w1)) = instances w1)
      by (destruct (m_ptr i); split; reflexivity).
    assert (Hi1 : instances w1 = instances w)
      by (subst w1; destruct (m_gobj_disposed i); reflexivity).
    destruct (cancel_toggles (m_ptr i) w1) as [[hd hu] w2]. simpl in H2.
    destruct H2 as [H2 Hi2].
    destruct (negb (eqb hd hu)); [discriminate|].
    unfold unset_object_qdata at 1.
    rewrite (deref_Some w2 this i) by (rewrite Hi2, Hi1; exact Hi).
    cbn [mbind result_bind]. rewrite Hp.
    destruct (invalidate_all_closures this _) as [w4|] eqn:E4; [|discriminate].
    cbn [mbind result_bind].
    destruct (release_native_object this w4) as [w5|] eqn:E5; [|discriminate].
    cbn [mbind result_bind].
    destruct (deref _ this) as [i6|]; [|discriminate]. cbn [mbind result_bind].
    destruct (clear_wrapper i6) as [i7|]; [|discriminate]. cbn [mbind result_bind].
    intros [= <-].
    apply invalidate_all_closures_qdata in E4. apply release_native_object_qdata in E5.
    simpl. rewrite E5, E4. simpl. rewrite H2, H1. reflexivity. }
  split.
  - unfold for_gobject, g_object_get_qdata. rewrite Hq, lookup_delete_eq. reflexivity.
  - intros q Hne. unfold g_object_get_qdata. rewrite Hq. apply lookup_delete_ne. congruence.
Qed.

(** ** Emitting a signal *)

Lemma convert_signal_args_spec (M : Marshaller) (params : list (GType * bool)) :
  forall (args : list JSValue) (w : World),
  exists evs,
    trace (snd (convert_signal_args M params args w)) = trace w ++ evs /\
    List.filter is_emitv evs = [] /\
    match convert_all M params args with
    | Some all => fst (convert_signal_args M params args w) = (all, false)
    | None => snd (fst (convert_signal_args M params args w)) = true
    end.
Proof.
  induction params as [|[type static_scope] params' IH]; intros args w.
  - exists []. simpl. rewrite app_nil_r. repeat split.
  - cbn [convert_signal_args convert_all].
    set (arg := default JSUndefined (head args)).
    set (w1 := emit_event (Call_gjs_value_to_g_value arg) w).
    destruct (if static_scope then _ else _) as [v|].
    + destruct (IH (tail args) w1) as (evs & Ht & Hf & Hc).
      destruct (convert_signal_args M params' (tail args) w1) as [[vs failed] w2].
      simpl in *. exists (Call_gjs_value_to_g_value arg :: evs).
      split; [rewrite Ht; simpl; rewrite <- app_assoc; reflexivity|].
      split; [simpl; exact Hf|].
      destruct (convert_all M params' (tail args)) as [all|].
      * injection Hc as -> ->. reflexivity.
      * exact Hc.
    + exists [Call_gjs_value_to_g_value arg]. repeat split.
Qed.

(** X22: [emit_impl] calls [g_signal_emitv] exactly when every argument
    converts: then it calls it once, on the native object followed by the
    converted arguments in order; when a conversion fails it does not
    call it at all and reports failure.  What the handlers of the signal
    do while [g_signal_emitv] runs is outside this statement. *)
Theorem emit_calls_emitv_iff_converted (T : TypeSystem) (M : Marshaller)
    (this : InstancePtr) (argv : list JSValue) (rval : JSValue) (w : World)
    (i : ObjectInstance) (signal_name : string) (signal_id : positive) (detail : Z) :
  instances w !! this = Some i -> m_gobj_disposed i = false ->
  gjs_parse_call_args_s argv = Some signal_name ->
  g_signal_parse_name T signal_name (m_gtype i) = Some (signal_id, detail) ->
  uint_sub (Z.of_nat (length argv)) 1 = n_params (g_signal_query T signal_id) ->
  exists ok rv w' evs,
    emit_impl T M this argv rval w = Done (ok, rv, w') /\
    trace w' = trace w ++ evs /\
    match convert_all M (param_types (g_signal_query T signal_id)) (tail argv) with
    | Some args =>
        List.filter is_emitv evs
          = [Call_g_signal_emitv (m_ptr i) signal_id (GVObject (m_ptr i) :: args)]
    | None => List.filter is_emitv evs = [] /\ ok = false
    end.
Proof.
  intros Hi Hd Hparse Hsig Hn. unfold emit_impl. run_deref Hi.
  rewrite (check_gobject_disposed_alive _ _ _ Hd). cbn [negb].
  rewrite Hparse, Hsig, Hn, Z.eqb_refl. cbn [negb].
  destruct (convert_signal_args_spec M (param_types (g_signal_query T signal_id))
              (tail argv) w) as (evs & Ht & Hf & Hc).
  destruct (convert_signal_args M _ (tail argv) w) as [[args failed] w1].
  simpl in Ht, Hc.
  destruct (convert_all M _ (tail argv)) as [all|].
  - injection Hc as -> ->. cbn [negb].
    destruct (return_type (g_signal_query T signal_id)).
    + destruct (gjs_value_from_g_value M _); do 3 eexists;
        exists (evs ++ [Call_g_signal_emitv (m_ptr i) signal_id (GVObject (m_ptr i) :: all);
                        Call_gjs_value_from_g_value
                          (g_signal_emitv_return T signal_id (GVObject (m_ptr i) :: all))]);
        (split; [reflexivity|]); simpl; rewrite Ht, <- !app_assoc;
        (split; [reflexivity|]);
        rewrite List.filter_app, Hf; reflexivity.
    + do 3 eexists.
      exists (evs ++ [Call_g_signal_emitv (m_ptr i) signal_id (GVObject (m_ptr i) :: all)]).
      split; [reflexivity|]. simpl. rewrite Ht, <- !app_assoc.
      split; [reflexivity|].
      rewrite List.filter_app, Hf. reflexivity.
  - subst failed. cbn [negb].
    destruct (return_type (g_signal_query T signal_id)).
    + destruct (gjs_value_from_g_value M _); do 3 eexists;
        exists (evs ++ [Call_gjs_value_from_g_value (GVInt 0)]);
        (split; [reflexivity|]); simpl; rewrite Ht, <- !app_assoc;
        (split; [reflexivity|]);
        rewrite List.filter_app, Hf; split; reflexivity.
    + do 3 eexists. exists evs. split; [reflexivity|].
      split; [exact Ht|].
      split; [exact Hf|reflexivity].
Qed.

(** ** What the resolve hook defines *)

Lemma substring_all (s : string) : String.substring 0 (String.length s) s = s.
Proof. induction s as [|c s IH]; simpl; [reflexivity|]. rewrite IH. reflexivity. Qed.

Lemma substring_split (n : nat) :
  forall s, String.substring 0 n s +:+ String.substring n (String.length s - n) s = s.
Proof.
  induction n as [|n IH]; intros s.
  - rewrite Nat.sub_0_r, substring_all. destruct s; reflexivity.
  - destruct s as [|c s]; [reflexivity|].
    change (String c (String.substring 0 n s
                      +:+ String.substring n (String.length s - n) s) = String c s).
    rewrite IH. reflexivity.
Qed.

Lemma vfunc_prefix_split (name : string) :
  String.prefix "vfunc_" name = true -> "vfunc_" +:+ name_without_vfunc_ name = name.
Proof.
  intros H. apply String.prefix_correct in H. unfold name_without_vfunc_.
  change (String.length "vfunc_") with 6%nat in H.
  rewrite <- H at 1. apply substring_split.
Qed.

Lemma find_streq_name {A} (get : A -> string) (name : string) (l : list A) (x : A) :
  find (fun y => streq (get y) name) l = Some x -> get x = name.
Proof. intros H. apply find_some in H as [_ H]. apply streq_true, H. Qed.

Lemma find_vfunc_on_parents_name (info : GIObjectInfo) (name : string)
    (v : GIVFuncInfo) (b : bool) :
  find_vfunc_on_parents info name = (Some v, b) -> vfunc_name v = name.
Proof.
  unfold find_vfunc_on_parents, g_object_info_find_vfunc_using_interfaces.
  destruct (g_object_info_find_vfunc info name) as [v0|] eqn:E0.
  - intros [= <- _]. apply (find_streq_name _ _ _ _ E0).
  - destruct (first_some _ (info_interfaces info)) as [v1|] eqn:E1.
    + intros [= <- _]. apply first_some_Some in E1 as (x & _ & Hx).
      apply (find_streq_name _ _ _ _ Hx).
    + intros [= H _]. rewrite find_vfunc_loop_ancestors in H.
      apply first_some_Some in H as (x & _ & Hx). apply (find_streq_name _ _ _ _ Hx).
Qed.

Lemma find_method_using_interfaces_name (info : GIObjectInfo) (name : string)
    (m : GIFunctionInfo) :
  g_object_info_find_method_using_interfaces info name = Some m -> function_name m = name.
Proof.
  unfold g_object_info_find_method_using_interfaces.
  destruct (find _ (info_methods info)) as [m0|] eqn:E0.
  - intros [= <-]. apply (find_streq_name _ _ _ _ E0).
  - intros H. apply first_some_Some in H as (x & _ & Hx).
    apply (find_streq_name _ _ _ _ Hx).
Qed.

Lemma define_own_property_spec (obj : JSObjectPtr) (name : string) (p : JSProperty)
    (w : World) :
  defines_at_most obj name (Some true) w (define_own_property obj name p w).
Proof.
  split; [reflexivity|]. split; [reflexivity|]. split.
  - intros o Hne. simpl. apply lookup_insert_ne. congruence.
  - exists p. unfold own_properties at 1. simpl. rewrite lookup_insert_eq. reflexivity.
Qed.

Lemma defines_nothing (obj : JSObjectPtr) (name : string) (w : World) :
  defines_at_most obj name (Some false) w w.
Proof. repeat split. Qed.

Lemma defines_failed (obj : JSObjectPtr) (name : string) (w : World) :
  defines_at_most obj name None w w.
Proof. repeat split. Qed.

Lemma lazy_define_spec (cx : JSContext) (obj : JSObjectPtr) (id name : string)
    (w : World) :
  defines_at_most obj name (fst (lazy_define_gobject_property cx obj id name w))
    w (snd (lazy_define_gobject_property cx obj id name w)).
Proof.
  unfold lazy_define_gobject_property, gjs_define_property_dynamic.
  destruct (JS_AlreadyHasOwnPropertyById cx obj id w) as [[|]|]; simpl;
    [apply defines_nothing| |apply defines_failed].
  destruct (cx_define_fails cx); simpl; [apply defines_failed|].
  apply define_own_property_spec.
Qed.

Lemma define_function_spec (cx : JSContext) (obj : JSObjectPtr) (m : GIFunctionInfo)
    (name : string) (w : World) :
  function_name m = name ->
  defines_at_most obj name
    (match gjs_define_function cx obj m w with Some _ => Some true | None => None end)
    w (match gjs_define_function cx obj m w with Some w1 => w1 | None => w end).
Proof.
  intros <-. unfold gjs_define_function.
  destruct (cx_define_fails cx); [apply defines_failed|apply define_own_property_spec].
Qed.

Lemma resolve_no_info_loop_spec (T : TypeSystem) (cx : JSContext) (obj : JSObjectPtr)
    (id name canonical_name : string) (what : ResolveWhat) (interfaces : list GType)
    (w : World) :
  defines_at_most obj name
    (fst (resolve_no_info_loop T cx obj id name canonical_name what interfaces w))
    w (snd (resolve_no_info_loop T cx obj id name canonical_name what interfaces w)).
Proof.
  induction interfaces as [|iface rest IH]; simpl; [apply defines_nothing|].
  destruct (g_irepository_find_by_gtype T iface) as [iface_info|]; [|exact IH].
  assert (Hcont : forall r,
    r = match what with
        | ConsiderOnlyMethods =>
            resolve_no_info_loop T cx obj id name canonical_name what rest w
        | ConsiderMethodsAndProperties =>
            if is_ginterface_property_name iface_info canonical_name
            then lazy_define_gobject_property cx obj id name w
            else resolve_no_info_loop T cx obj id name canonical_name what rest w
        end ->
    defines_at_most obj name (fst r) w (snd r)).
  { intros r ->. destruct what; [exact IH|].
    destruct (is_ginterface_property_name iface_info canonical_name);
      [apply lazy_define_spec|exact IH]. }
  destruct (g_interface_info_find_method iface_info name) as [m|] eqn:Em;
    [|apply Hcont; reflexivity].
  destruct (has_flag (function_flags m) GI_FUNCTION_IS_METHOD); [|apply Hcont; reflexivity].
  pose proof (define_function_spec cx obj m name w (find_streq_name _ _ _ _ Em)) as H.
  destruct (gjs_define_function cx obj m w); exact H.
Qed.

(** X23: the resolve hook defines at most the property it was asked for.
    When it reports the name resolved, exactly that property has been
    defined on the object; when it reports it not resolved, the world is
    as before; when it fails, no property has been defined.  No other
    object, no instance and no native object changes. *)
Theorem resolve_defines_one_or_nothing (T : TypeSystem) (cx : JSContext) (this : GType)
    (obj : JSObjectPtr) (id name : string) (w w' : World) (r : option bool) :
  resolve_impl T cx this obj id name w = Done (r, w') ->
  defines_at_most obj name r w w'.
Proof.
  unfold resolve_impl.
  destruct (deref_proto w this) as [proto|]; [|discriminate]. cbn [mbind result_bind].
  destruct (m_info proto) as [info|].
  2:{ intros [= H]. unfold resolve_no_info in H.
      pose proof (resolve_no_info_loop_spec T cx obj id name
                    (canonicalize_key (gjs_hyphen_from_camel T name))
                    ConsiderMethodsAndProperties
                    (g_type_interfaces T (p_gtype proto)) w) as Hs.
      rewrite H in Hs. exact Hs. }
  destruct (resolve_vfunc T cx proto info obj name w) as [answer|] eqn:Ev.
  { intros [= ->]. revert Ev. unfold resolve_vfunc.
    destruct (String.prefix "vfunc_" name) eqn:Ep; [|discriminate].
    destruct (find_vfunc_on_parents info (name_without_vfunc_ name)) as [[v|] b] eqn:Ef;
      [|discriminate].
    apply find_vfunc_on_parents_name in Ef.
    destruct (b && is_vfunc_unchanged T proto v).
    - intros [= <- <-]. apply defines_nothing.
    - unfold gjs_define_vfunc. destruct (cx_define_fails cx).
      + intros [= <- <-]. apply defines_failed.
      + intros [= <- <-]. rewrite Ef, (vfunc_prefix_split name Ep).
        apply define_own_property_spec. }
  destruct (is_gobject_property_name T info name).
  { intros [= H]. pose proof (lazy_define_spec cx obj id name w) as Hs.
    rewrite H in Hs. exact Hs. }
  destruct (lookup_field_info info name) as [field|].
  { unfold resolve_field, gjs_define_property_dynamic.
    destruct (JS_AlreadyHasOwnPropertyById cx obj id w) as [[|]|].
    - intros [= <- <-]. apply defines_nothing.
    - destruct (cx_cache_insert_fails cx).
      + intros [= <- <-]. repeat split.
      + destruct (cx_define_fails cx).
        * intros [= <- <-]. repeat split.
        * intros [= <- <-].
          set (w1 := update_proto this _ w).
          destruct (define_own_property_spec obj name
                      (DynamicProperty "gobject_field" id
                         (if negb (has_flag (field_flags field) GI_FIELD_IS_WRITABLE)
                          then Z.lor GJS_MODULE_PROP_FLAGS JSPROP_READONLY
                          else GJS_MODULE_PROP_FLAGS)) w1) as (H1 & H2 & H3 & H4).
          split; [exact H1|]. split; [exact H2|]. split; [exact H3|exact H4].
    - intros [= <- <-]. apply defines_failed. }
  destruct (g_object_info_find_method_using_interfaces info name) as [m|] eqn:Em.
  2:{ intros [= H]. unfold resolve_no_info in H.
      pose proof (resolve_no_info_loop_spec T cx obj id name "" ConsiderOnlyMethods
                    (g_type_interfaces T (p_gtype proto)) w) as Hs.
      rewrite H in Hs. exact Hs. }
  destruct (has_flag (function_flags m) GI_FUNCTION_IS_METHOD).
  2:{ intros [= <- <-]. apply defines_nothing. }
  pose proof (define_function_spec cx obj m name w
                (find_method_using_interfaces_name _ _ _ Em)) as H.
  destruct (gjs_define_function cx obj m w); intros [= <- <-]; exact H.
Qed.

Lemma resolve_vfunc_falls_through (T : TypeSystem) (cx : JSContext)
    (p p' : ObjectPrototype) (info : GIObjectInfo) (obj : JSObjectPtr) (name : string)
    (w w' : World) :
  resolve_vfunc T cx p info obj name w = None ->
  resolve_vfunc T cx p' info obj name w' = None.
Proof.
  unfold resolve_vfunc. destruct (String.prefix "vfunc_" name); [|reflexivity].
  destruct (find_vfunc_on_parents info (name_without_vfunc_ name)) as [[v|] b];
    [|reflexivity].
  destruct (b && is_vfunc_unchanged T p v); [discriminate|].
  destruct (gjs_define_vfunc cx obj v w); discriminate.
Qed.

Lemma has_own_after_define (cx : JSContext) (obj : JSObjectPtr) (name : string)
    (p : JSProperty) (w : World) :
  cx_has_own_property_fails cx = false ->
  JS_AlreadyHasOwnPropertyById cx obj name (define_own_property obj name p w) = Some true.
Proof.
  intros H. unfold JS_AlreadyHasOwnPropertyById. rewrite H. f_equal.
  apply bool_decide_eq_true. unfold own_properties, define_own_property. simpl.
  rewrite lookup_insert_eq. simpl. rewrite lookup_insert_eq. eauto.
Qed.

(** X24: a property or a field is defined lazily, and once: after the
    resolve hook has defined the accessor for a name, resolving the same
    name again reports it not resolved and changes nothing. *)
Theorem property_or_field_resolves_once (T : TypeSystem) (cx : JSContext)
    (this : GType) (obj : JSObjectPtr) (name : string) (w w' : World)
    (proto : ObjectPrototype) (info : GIObjectInfo) :
  prototypes w !! this = Some proto -> m_info proto = Some info ->
  resolve_vfunc T cx proto info obj name w = None ->
  is_gobject_property_name T info name = true \/ is_Some (lookup_field_info info name) ->
  resolve_impl T cx this obj name name w = Done (Some true, w') ->
  resolve_impl T cx this obj name name w' = Done (Some false, w').
Proof.
  intros Hp Hi Hv Hkind. unfold resolve_impl at 1. unfold deref_proto. rewrite Hp.
  cbn [mbind result_bind]. rewrite Hi, Hv.
  destruct (is_gobject_property_name T info name) eqn:Eprop.
  - unfold lazy_define_gobject_property, gjs_define_property_dynamic.
    unfold JS_AlreadyHasOwnPropertyById at 1.
    destruct (cx_has_own_property_fails cx) eqn:Eh; [discriminate|].
    destruct (bool_decide _); [discriminate|].
    destruct (cx_define_fails cx); [discriminate|]. intros [= <-].
    unfold resolve_impl, deref_proto. simpl prototypes. rewrite Hp.
    cbn [mbind result_bind]. rewrite Hi.
    rewrite (resolve_vfunc_falls_through T cx proto proto info obj name w _ Hv), Eprop.
    unfold lazy_define_gobject_property.
    rewrite (has_own_after_define cx obj name _ w Eh). reflexivity.
  - destruct Hkind as [?|[field Hf]]; [discriminate|]. rewrite Hf.
    unfold resolve_field, gjs_define_property_dynamic.
    unfold JS_AlreadyHasOwnPropertyById at 1.
    destruct (cx_has_own_property_fails cx) eqn:Eh; [discriminate|].
    destruct (bool_decide _); [discriminate|].
    destruct (cx_cache_insert_fails cx); [discriminate|].
    destruct (cx_define_fails cx); [discriminate|]. intros [= <-].
    set (w1 := update_proto this _ w).
    assert (Hp1 : prototypes (define_own_property obj name
                    (DynamicProperty "gobject_field" name
                       (if negb (has_flag (field_flags field) GI_FIELD_IS_WRITABLE)
                        then Z.lor GJS_MODULE_PROP_FLAGS JSPROP_READONLY
                        else GJS_MODULE_PROP_FLAGS)) w1) !! this
                  = Some (with_field_cache (<[name := field]> (m_field_cache proto)) proto)).
    { simpl. rewrite lookup_alter_eq, Hp. reflexivity. }
    unfold resolve_impl, deref_proto. rewrite Hp1. cbn [mbind result_bind].
    change (m_info (with_field_cache _ proto)) with (m_info proto). rewrite Hi.
    rewrite (resolve_vfunc_falls_through T cx proto _ info obj name w _ Hv), Eprop, Hf.
    unfold resolve_field.
    rewrite (has_own_after_define cx obj name _ w1 Eh). reflexivity.
Qed.

(** X25: a field of a simple type, from resolution to reading: once the
    resolve hook has defined the accessor, the field getter of a live
    instance of the type finds the descriptor the resolution cached and
    hands back the value the native object holds in the field, converted
    by the field's type tag; the resolution itself has not touched the
    native heap. *)
Theorem simple_field_resolves_then_reads (T : TypeSystem) (M : Marshaller)
    (cx : JSContext) (this : GType) (obj : JSObjectPtr) (name : string) (w : World)
    (proto : ObjectPrototype) (info : GIObjectInfo) (field : GIFieldInfo) :
  prototypes w !! this = Some proto -> m_info proto = Some info ->
  resolve_vfunc T cx proto info obj name w = None ->
  is_gobject_property_name T info name = false ->
  lookup_field_info info name = Some field ->
  is_complex_tag (field_type_tag field) = false ->
  JS_AlreadyHasOwnPropertyById cx obj name w = Some false ->
  cx_cache_insert_fails cx = false -> cx_define_fails cx = false ->
  exists w',
    resolve_impl T cx this obj name name w = Done (Some true, w') /\
    gobjects w' = gobjects w /\ instances w' = instances w /\
    forall depth inst i rval p g arg v,
      instances w' !! inst = Some i -> m_gtype i = this -> m_gobj_disposed i = false ->
      m_ptr i = Some p -> gobjects w' !! p = Some g ->
      g_fields g !! field_name field = Some arg ->
      gjs_value_from_g_argument M (field_type_tag field) arg = Some v ->
      field_getter_impl (S depth) T M inst name rval w'
        = Done (true, v,
                emit_event (Call_g_field_info_get_field (Some p) (field_name field)) w').
Proof.
  intros Hp Hi Hv Hprop Hfield Hc Hown Hcache Hdef.
  destruct (resolve_field_defines cx this field obj name w proto Hp Hown Hcache Hdef)
    as (w' & flags & Hr & Ht & Hin & Ho & Hp').
  assert (Hg : gobjects w' = gobjects w).
  { revert Hr. unfold resolve_field, gjs_define_property_dynamic.
    rewrite Hown, Hcache, Hdef. intros [= <-]. reflexivity. }
  exists w'. split.
  { unfold resolve_impl, deref_proto. rewrite Hp. cbn [mbind result_bind].
    rewrite Hi, Hv, Hprop, Hfield, Hr. reflexivity. }
  split; [exact Hg|]. split; [exact Hin|].
  intros depth inst i rval p g arg v Hinst Hty Hd Hptr Hgo Harg Hconv.
  unfold field_getter_impl. run_deref Hinst.
  rewrite (check_gobject_disposed_alive _ _ _ Hd). cbn [negb].
  rewrite Hty.
  rewrite (lookup_cached_field_info_hit depth T this name w' _ info field Hp' Hi)
    by (simpl; apply lookup_insert_eq).
  cbn [mbind result_bind]. rewrite Hc. unfold g_field_info_get_field.
  rewrite Hptr, Hgo, Harg, Hconv. reflexivity.
Qed.

(** ** Construction properties *)

Lemma find_param_spec_frame (T : TypeSystem) (cx : JSContext) (this : GType)
    (key : string) (w w1 : World) (r : option GParamSpec) :
  find_param_spec_from_id T cx this key w = Done (r, w1) ->
  instances w1 = instances w /\ gobjects w1 = gobjects w.
Proof.
  unfold find_param_spec_from_id.
  destruct (deref_proto w this) as [proto|]; [|discriminate]. cbn [mbind result_bind].
  destruct (m_property_cache proto !! key); [intros [= _ <-]; split; reflexivity|].
  destruct (cx_encode_fails cx); [intros [= _ <-]; split; reflexivity|].
  destruct (g_object_class_find_property T (p_gtype proto) _);
    [|intros [= _ <-]; split; reflexivity].
  destruct (cx_cache_insert_fails cx); intros [= _ <-]; split; reflexivity.
Qed.

Lemma props_outcome_failed (n : nat) (names : list string) (values : list GValue)
    (w w0 : World) :
  instances w0 = instances w -> gobjects w0 = gobjects w ->
  props_outcome (S n) names values w (false, names, values, w0).
Proof.
  intros Hi Hg. exists [], []. rewrite !app_nil_r.
  split; [reflexivity|]. split; [reflexivity|]. split; [reflexivity|].
  split; [simpl; lia|]. split; [split; discriminate|]. split; assumption.
Qed.

Lemma props_loop_outcome (T : TypeSystem) (M : Marshaller) (cx : JSContext)
    (this : GType) (ids : list (jsid * option JSValue)) :
  forall (names : list string) (values : list GValue) (w : World)
         (r : bool * list string * list GValue * World),
  props_to_g_parameters_loop T M cx this ids names values w = Done r ->
  props_outcome (length ids) names values w r.
Proof.
  induction ids as [|[prop_id got] rest IH]; intros names values w r.
  - intros [= <-]. exists [], []. rewrite !app_nil_r. repeat split; auto.
  - cbn [props_to_g_parameters_loop length].
    destruct (deref_proto w this) as [proto|]; [|discriminate]. cbn [mbind result_bind].
    destruct prop_id as [js_prop_name|shown];
      [|intros [= <-]; apply props_outcome_failed; reflexivity].
    destruct (find_param_spec_from_id T cx this js_prop_name w) as [[param_spec w1]|] eqn:Ef;
      [|discriminate].
    cbn [mbind result_bind].
    destruct (find_param_spec_frame _ _ _ _ _ _ _ Ef) as [Hi1 Hg1].
    destruct param_spec as [param_spec|];
      [|intros [= <-]; apply props_outcome_failed; assumption].
    destruct got as [value|]; [|intros [= <-]; apply props_outcome_failed; assumption].
    assert (Hgo : forall value,
      (if negb (has_flag (pspec_flags param_spec) G_PARAM_WRITABLE) then
         Done (false, names, values,
               gjs_throw (ReadOnlyField (p_gtype proto) (pspec_name param_spec)) w1)
       else
         match gjs_value_to_g_value M value (pspec_value_type param_spec) with
         | None => Done (false, names, values,
                         emit_event (Call_gjs_value_to_g_value value) w1)
         | Some gvalue =>
             props_to_g_parameters_loop T M cx this rest
               (names ++ [pspec_name param_spec]) (values ++ [gvalue])
               (emit_event (Call_gjs_value_to_g_value value) w1)
         end) = Done r ->
      props_outcome (S (length rest)) names values w r).
    { intros value0.
      destruct (negb (has_flag (pspec_flags param_spec) G_PARAM_WRITABLE));
        [intros [= <-]; apply props_outcome_failed; assumption|].
      destruct (gjs_value_to_g_value M value0 (pspec_value_type param_spec)) as [gvalue|];
        [|intros [= <-]; apply props_outcome_failed; assumption].
      intros Hrest. apply IH in Hrest. destruct r as [[[ok names'] values'] w'].
      destruct Hrest as (an & av & Hn & Hv & Hl & Hle & Hok & Hi & Hg).
      exists (pspec_name param_spec :: an), (gvalue :: av).
      rewrite <- !app_assoc in Hn, Hv.
      split; [exact Hn|]. split; [exact Hv|]. split; [simpl; lia|].
      split; [simpl; lia|]. split; [rewrite Hok; simpl; lia|].
      split; [rewrite Hi; exact Hi1|rewrite Hg; exact Hg1]. }
    destruct value; try apply Hgo.
    intros [= <-]. apply props_outcome_failed; assumption.
Qed.

(** X26: collecting the construction properties keeps the two vectors in
    step: whatever the outcome, the same number of names and of values
    has been appended, one pair for each key of the hash converted before
    the call stopped; the call succeeds exactly when every key of the hash
    gave a pair.  Nothing is set on any native object. *)
Theorem props_to_g_parameters_aligned (T : TypeSystem) (M : Marshaller)
    (cx : JSContext) (enumerate : JSObjectPtr -> option (list (jsid * option JSValue)))
    (this : GType) (props : JSObjectPtr) (rest : list JSValue)
    (ids : list (jsid * option JSValue))
    (names : list string) (values : list GValue) (w w' : World)
    (ok : bool) (names' : list string) (values' : list GValue) :
  enumerate props = Some ids ->
  props_to_g_parameters T M cx enumerate this (JSObject props :: rest) names values w
    = Done (ok, names', values', w') ->
  exists added_names added_values,
    names' = names ++ added_names /\ values' = values ++ added_values /\
    length added_names = length added_values /\
    (length added_names <= length ids)%nat /\
    (ok = true <-> length added_names = length ids) /\
    instances w' = instances w /\ gobjects w' = gobjects w.
Proof.
  intros He. unfold props_to_g_parameters. rewrite He. intros Hrun.
  apply (props_loop_outcome T M cx this ids names values w _ Hrun).
Qed.

(** ** Association, disposal and resurfacing *)

(** X27: the dispose notification of a native object takes its instance out
    of the registry, wherever it stands, and marks it disposed; the
    other instances keep their order, and nothing but instances and the
    registry changes. *)
Theorem dispose_notify_unregisters (w : World) (l1 : list InstancePtr)
    (x : InstancePtr) (l2 : list InstancePtr) :
  registry w (l1 ++ x :: l2) ->
  exists w' i',
    gobj_dispose_notify x w = Done w' /\ registry w' (l1 ++ l2) /\
    instances w' !! x = Some i' /\ m_gobj_disposed i' = true /\ unlinked i' /\
    (forall z, z <> x ->
       forget_link <$> (instances w' !! z) = forget_link <$> (instances w !! z)) /\
    same_outside_registry w w'.
Proof.
  intros Hreg. pose proof Hreg as (_ & Hnd & Hseg).
  destruct (segment_middle _ _ _ _ Hseg) as (_ & (i & Hi & _) & _).
  set (w0 := update x (with_gobj_disposed true) w).
  assert (Hm0 : instances w0 = <[x := with_gobj_disposed true i]> (instances w))
    by (apply update_instances; exact Hi).
  assert (Hreg0 : registry w0 (l1 ++ x :: l2)).
  { apply (registry_ext w); [reflexivity| |exact Hreg].
    intros y _. rewrite Hm0. destruct (decide (x = y)) as [->|Hne].
    - rewrite lookup_insert_eq, Hi. reflexivity.
    - rewrite lookup_insert_ne by exact Hne. reflexivity. }
  destruct (unlink_registered w0 l1 x l2 Hreg0) as (w' & i0 & Hi0 & Hrun & Hm & Hreg' & Hs).
  assert (i0 = with_gobj_disposed true i)
    by (rewrite Hm0, lookup_insert_eq in Hi0; congruence). subst i0.
  exists w', (with_link (mkLink None None) (with_gobj_disposed true i)).
  split; [unfold gobj_dispose_notify; run_deref Hi; exact Hrun|].
  split; [exact Hreg'|]. split.
  { rewrite Hm. destruct Hreg0 as (_ & Hnd0 & Hseg0).
    apply (unlinked_map_self _ l1 x l2); assumption. }
  split; [reflexivity|]. split; [reflexivity|]. split.
  - intros z Hz. rewrite Hm, <- !lookup_fmap, unlinked_map_forget, !lookup_fmap, Hm0.
    rewrite lookup_insert_ne by congruence. reflexivity.
  - destruct Hs as (a1 & a2 & a3 & a4 & a5). repeat split; assumption.
Qed.

(** X28: a native object that resurfaces after its wrapper was finalized is
    reported once: the reverse lookup logs the critical message and
    clears the mark, and the next lookup finds the instance without a
    word.  Had the instance still a wrapper, the lookup would trip the
    assertion. *)
Theorem resurfaced_object_reported_once (w : World) (gobj : GObjectPtr)
    (this : InstancePtr) (i : ObjectInstance) :
  g_object_get_qdata gobj w = Some this -> instances w !! this = Some i ->
  m_uses_toggle_ref i = true -> m_wrapper_finalized i = true ->
  (has_wrapper i = true -> for_gobject gobj w = Abort (AssertFailed "!m_wrapper")) /\
  (has_wrapper i = false ->
   exists w1,
     for_gobject gobj w = Done (Some this, w1) /\
     trace w1 = trace w ++ [Log_g_critical
                              "Object resurfaced after the JS wrapper was finalized"] /\
     instances w1 = <[this := with_wrapper_finalized false i]> (instances w) /\
     for_gobject gobj w1 = Done (Some this, w1)).
Proof.
  intros Hq Hi Hu Hf. unfold for_gobject. rewrite Hq.
  unfold check_js_object_finalized at 1 2. run_deref Hi. rewrite Hu, Hf. cbn [negb].
  split; intros Hw; rewrite Hw; cbn [negb g_assert mbind result_bind]; [reflexivity|].
  eexists. split; [reflexivity|]. split; [reflexivity|].
  split; [apply (update_instances (emit_event _ w) this _ i Hi)|].
  change (g_object_get_qdata gobj (update this (with_wrapper_finalized false)
            (emit_event (Log_g_critical
               "Object resurfaced after the JS wrapper was finalized") w)))
    with (g_object_get_qdata gobj w).
  rewrite Hq. unfold check_js_object_finalized.
  rewrite (deref_Some _ this (with_wrapper_finalized false i))
    by (apply (update_lookup (emit_event _ w) this _ i Hi)).
  cbn [mbind result_bind].
  change (m_uses_toggle_ref (with_wrapper_finalized false i)) with (m_uses_toggle_ref i).
  rewrite Hu. reflexivity.
Qed.

(** X29: associating a fresh instance with a native object and a wrapper:
    the instance goes to the head of the registry, the native object
    records it (so that the reverse lookup finds it, silently), the
    wrapper is held weakly and by a plain reference, and the weak
    pointer callback is registered with the engine unless it already
    was.  No other instance changes but in its links. *)
Theorem associate_js_gobject_registers_at_head (w : World) (l : list InstancePtr)
    (this : InstancePtr) (i : ObjectInstance) (object : JSObjectPtr)
    (gobj : GObjectPtr) :
  registry w l -> ~ elem_of this l -> instances w !! this = Some i ->
  unlinked i -> wrapper_is_rooted i = false ->
  exists w' i',
    associate_js_gobject this object gobj w = Done w' /\
    registry w' (this :: l) /\
    instances w' !! this = Some i' /\
    m_ptr i' = Some gobj /\ m_wrapper i' = mkMaybeOwned (Some object) false /\
    m_uses_toggle_ref i' = false /\
    for_gobject gobj w' = Done (Some this, w') /\
    s_weak_pointer_callback w' = true /\
    trace w' = trace w
               ++ (if s_weak_pointer_callback w then []
                   else [Call_JS_AddWeakPointerCompartmentCallback])
               ++ [Call_g_object_weak_ref gobj this] /\
    forall z, z <> this ->
      forget_link <$> (instances w' !! z) = forget_link <$> (instances w !! z).
Proof.
  intros Hreg Hx Hi Hu Hr.
  set (i1 := with_ptr (Some gobj) (with_uses_toggle_ref false i)).
  set (i3 := with_wrapper (mkMaybeOwned (Some object) false) i1).
  set (w2 := g_object_set_qdata (Some gobj) (Some this)
               (update this (fun i0 => with_ptr (Some gobj) (with_uses_toggle_ref false i0)) w)).
  set (w4 := ensure_weak_pointer_callback (update this (fun _ => i3) w2)).
  assert (H2 : instances w2 !! this = Some i1)
    by (apply (update_lookup w this
                 (fun i0 => with_ptr (Some gobj) (with_uses_toggle_ref false i0)) i Hi)).
  assert (Hm4 : instances w4 = <[this := i3]> (instances w)).
  { assert (H : instances w4 = instances (update this (fun _ => i3) w2))
      by (subst w4; unfold ensure_weak_pointer_callback;
          destruct (negb (s_weak_pointer_callback _)); reflexivity).
    rewrite H, (update_instances w2 this (fun _ => i3) i1 H2).
    subst w2. simpl.
    rewrite (alter_as_insert _ _ _ i Hi). apply insert_insert_eq. }
  assert (Hh4 : wrapped_gobject_list w4 = wrapped_gobject_list w)
    by (subst w4; unfold ensure_weak_pointer_callback;
        destruct (negb (s_weak_pointer_callback _)); reflexivity).
  assert (Hreg4 : registry w4 l).
  { apply (registry_ext w); [exact Hh4| |exact Hreg].
    intros y Hy. rewrite Hm4, lookup_insert_ne; [reflexivity|]. intros ->. contradiction. }
  destruct (link_registered w4 l this i3 Hreg4 Hx) as (w5 & Hlink & Hreg5 & Hm5 & Hs5).
  { rewrite Hm4. apply lookup_insert_eq. }
  { exact Hu. }
  assert (Hrun : associate_js_gobject this object gobj w
                 = Done (emit_event (Call_g_object_weak_ref gobj this) w5)).
  { unfold associate_js_gobject. run_deref Hi. rewrite Hr.
    cbn [negb g_assert mbind result_bind]. unfold set_object_qdata.
    rewrite (deref_Some _ _ _ (update_lookup _ _ _ _ Hi)). cbn [mbind result_bind].
    change (m_ptr (with_ptr (Some gobj) (with_uses_toggle_ref false i))) with (Some gobj).
    fold w2. run_deref H2. unfold assign_wrapper.
    change (wrapper_is_rooted i1) with (wrapper_is_rooted i). rewrite Hr.
    cbn [negb g_assert mbind result_bind]. fold i3. fold w4. rewrite Hlink. reflexivity. }
  assert (Hf5 : forget_link <$> instances w5 = forget_link <$> instances w4)
    by apply (link_link_only _ _ _ Hlink).
  destruct (forget_link_lookup _ _ this i3 Hf5) as (i' & Hi' & Hfi');
    [rewrite Hm4; apply lookup_insert_eq|].
  assert (Hfields : m_ptr i' = Some gobj /\ m_wrapper i' = mkMaybeOwned (Some object) false /\
                    m_uses_toggle_ref i' = false).
  { destruct i' as [g1 p1 wr1 l1 c1 d1 f1 u1], i as [g0 p0 wr0 l0 c0 d0 f0 u0].
    cbv in Hfi'. injection Hfi' as -> -> -> -> -> -> ->. repeat split. }
  destruct Hfields as (Hp' & Hw' & Hu').
  destruct Hs5 as (Ht5 & Hg5 & Hq5 & Hd5 & Hc5).
  exists (emit_event (Call_g_object_weak_ref gobj this) w5), i'.
  split; [exact Hrun|]. split; [exact Hreg5|]. split; [exact Hi'|].
  split; [exact Hp'|]. split; [exact Hw'|]. split; [exact Hu'|].
  assert (Hqd : object_qdata w5 !! gobj = Some this).
  { rewrite Hd5. subst w4. unfold ensure_weak_pointer_callback.
    destruct (negb (s_weak_pointer_callback _)); simpl; apply lookup_insert_eq. }
  split.
  { unfold for_gobject, g_object_get_qdata. simpl object_qdata. rewrite Hqd.
    unfold check_js_object_finalized.
    rewrite (deref_Some _ this i') by exact Hi'. cbn [mbind result_bind].
    rewrite Hu'. reflexivity. }
  assert (Hcb : s_weak_pointer_callback w5 = s_weak_pointer_callback w4).
  { revert Hlink. unfold link. destruct (wrapped_gobject_list w4) as [h|].
    - unfold GjsListLink.prepend.
      destruct (deref w4 h) as [eh|]; [|discriminate]. cbn [mbind result_bind].
      destruct (deref w4 this) as [et|]; [|discriminate]. cbn [mbind result_bind].
      destruct (m_prev (m_instance_link eh)) as [pv|].
      + destruct (deref w4 pv); [|discriminate]. cbn [mbind result_bind].
        intros [= <-]. reflexivity.
      + cbn [mbind result_bind]. intros [= <-]. reflexivity.
    - cbn [mbind result_bind]. intros [= <-]. reflexivity. }
  split.
  { simpl. rewrite Hcb. subst w4. unfold ensure_weak_pointer_callback.
    destruct (s_weak_pointer_callback (update this (fun _ => i3) w2)) eqn:E;
      [exact E|reflexivity]. }
  split.
  { simpl. rewrite Ht5. subst w4. unfold ensure_weak_pointer_callback.
    change (s_weak_pointer_callback (update this (fun _ => i3) w2))
      with (s_weak_pointer_callback w).
    destruct (s_weak_pointer_callback w); simpl; [|rewrite <- app_assoc]; reflexivity. }
  intros z Hz. simpl instances. rewrite <- !lookup_fmap, Hf5, !lookup_fmap, Hm4.
  rewrite lookup_insert_ne by congruence. reflexivity.
Qed.

(** ** Fields of the ancestors *)

Lemma lookup_cached_field_info_chain (T : TypeSystem) (key : string) (w : World)
    (holder : GType) (holder_proto : ObjectPrototype) (holder_info : GIObjectInfo)
    (field : GIFieldInfo) (chain : list GType) :
  prototypes w !! holder = Some holder_proto ->
  m_info holder_proto = Some holder_info ->
  m_field_cache holder_proto !! key = Some field ->
  forall (this : GType) (depth : nat),
  defers_along T w key this chain holder -> (length chain < depth)%nat ->
  lookup_cached_field_info depth T this key w = Done field.
Proof.
  intros Hh Hi Hc. induction chain as [|next rest IH]; intros this depth Hchain Hdepth;
    (destruct depth as [|depth']; [simpl in Hdepth; lia|]).
  - simpl in Hchain. subst this.
    apply (lookup_cached_field_info_hit depth' T holder key w _ holder_info field Hh Hi Hc).
  - destruct Hchain as [(proto & Hp & [np Hnp] & Hkind) Hrest].
    cbn [lookup_cached_field_info]. unfold deref_proto. rewrite Hp.
    cbn [mbind result_bind].
    destruct Hkind as [[Hn Hg]|(info & dp & Hinfo & Hmiss & Hgp & Hgt)].
    + rewrite Hn, Hg, Hnp. apply IH; [exact Hrest|simpl in Hdepth; lia].
    + rewrite Hinfo, Hmiss, Hgp, Hgt, Hnp. apply IH; [exact Hrest|simpl in Hdepth; lia].
Qed.

(** X30: a field whose descriptor is cached on the prototype of an
    ancestor is found from the prototype of any class below it, through
    every class in between that has not cached the name itself, be it
    introspected or defined in JS; the field getter of a live instance of
    the derived class then hands back the value the native object holds
    in the field. *)
Theorem inherited_field_is_read_through_parents (depth : nat) (T : TypeSystem)
    (M : Marshaller) (this holder : GType) (chain : list GType) (key : string)
    (w : World) (holder_proto : ObjectPrototype) (holder_info : GIObjectInfo)
    (field : GIFieldInfo) :
  defers_along T w key this chain holder ->
  prototypes w !! holder = Some holder_proto ->
  m_info holder_proto = Some holder_info ->
  m_field_cache holder_proto !! key = Some field ->
  (length chain < depth)%nat ->
  lookup_cached_field_info depth T this key w = Done field /\
  forall inst i rval p g arg v,
    instances w !! inst = Some i -> m_gtype i = this -> m_gobj_disposed i = false ->
    is_complex_tag (field_type_tag field) = false ->
    m_ptr i = Some p -> gobjects w !! p = Some g ->
    g_fields g !! field_name field = Some arg ->
    gjs_value_from_g_argument M (field_type_tag field) arg = Some v ->
    field_getter_impl depth T M inst key rval w
      = Done (true, v,
              emit_event (Call_g_field_info_get_field (Some p) (field_name field)) w).
Proof.
  intros Hchain Hh Hi Hc Hdepth.
  pose proof (lookup_cached_field_info_chain T key w holder holder_proto holder_info field
                chain Hh Hi Hc this depth Hchain Hdepth) as Hl.
  split; [exact Hl|].
  intros inst i rval p g arg v Hinst Hty Hd Hcx Hptr Hgo Harg Hconv.
  unfold field_getter_impl. run_deref Hinst.
  rewrite (check_gobject_disposed_alive _ _ _ Hd). cbn [negb].
  rewrite Hty, Hl. cbn [mbind result_bind]. rewrite Hcx. unfold g_field_info_get_field.
  rewrite Hptr, Hgo, Harg, Hconv. reflexivity.
Qed.

(** ** The further properties on the example states *)

Lemma registry_world_registered :
  registry registry_world [3%positive; 2%positive; 1%positive].
Proof.
  split; [reflexivity|]. split.
  - apply (bool_decide_unpack _). vm_compute. exact I.
  - simpl. repeat split; eexists; (split; [vm_compute; reflexivity|split; reflexivity]).
Qed.

Lemma link_prepends_witness :
  exists w' w'',
    link 4%positive registry_world = Done w' /\
    registry w' [4%positive; 3%positive; 2%positive; 1%positive] /\
    unlink 4%positive w' = Done w'' /\
    registry w'' [3%positive; 2%positive; 1%positive].
Proof.
  destruct (link_prepends registry_world [3%positive; 2%positive; 1%positive]
              4%positive new_instance registry_world_registered)
    as (w' & w'' & H1 & H2 & _ & _ & H3 & H4).
  - apply (bool_decide_unpack _). vm_compute. exact I.
  - reflexivity.
  - reflexivity.
  - exists w', w''. split; [exact H1|]. split; [exact H2|]. split; [exact H3|exact H4].
Defined.

Lemma unlink_removes_witness :
  exists w' i',
    unlink 2%positive registry_world = Done w' /\
    registry w' [3%positive; 1%positive] /\
    instances w' !! 2%positive = Some i' /\ unlinked i' /\
    unlink 2%positive w' = Done w'.
Proof.
  destruct (unlink_removes registry_world [3%positive] 2%positive [1%positive]
              registry_world_registered)
    as (w' & i' & H1 & H2 & H3 & H4 & _ & _ & H5).
  exists w', i'. split; [exact H1|]. split; [exact H2|]. split; [exact H3|].
  split; [exact H4|exact H5].
Defined.

Lemma size_counts_to_the_end_witness :
  list_link_size 5 3%positive 0 registry_world = Some (Done 3%nat) /\
  list_link_size 5 2%positive 0 registry_world = Some (Done 2%nat).
Proof.
  split.
  - apply (size_counts_to_the_end registry_world [] 3%positive [2%positive; 1%positive] 5
             registry_world_registered). simpl. lia.
  - apply (size_counts_to_the_end registry_world [3%positive] 2%positive [1%positive] 5
             registry_world_registered). simpl. lia.
Defined.

Lemma prepare_shutdown_releases_rooted_witness :
  exists w' i1 i2,
    prepare_shutdown 3 registry_world = Some (Done w') /\
    registry w' [2%positive] /\
    instances w' !! 1%positive = Some i1 /\ i1 = forget_link (released first_registered) /\
    instances w' !! 2%positive = Some i2 /\
    forget_link i2 = forget_link second_registered.
Proof.
  destruct (prepare_shutdown_releases_rooted 3 registry_world
              [3%positive; 2%positive; 1%positive] registry_world_registered)
    as (w' & Hrun & Hreg & Hall); [simpl; lia|].
  destruct (Hall 1%positive first_registered eq_refl) as (i1 & Hi1 & H1).
  destruct (Hall 2%positive second_registered eq_refl) as (i2 & Hi2 & H2).
  exists w', i1, i2. split; [exact Hrun|]. split; [exact Hreg|].
  split; [exact Hi1|]. split; [apply H1|]. split; [exact Hi2|exact H2].
Defined.

Lemma context_dispose_notify_unroots_witness :
  exists w' i1,
    context_dispose_notify 3 registry_world = Some (Done w') /\
    registry w' [2%positive] /\
    gobjects w' = gobjects registry_world /\ trace w' = trace registry_world /\
    instances w' !! 1%positive = Some i1 /\
    i1 = forget_link (discard_wrapper first_registered).
Proof.
  destruct (context_dispose_notify_unroots 3 registry_world
              [3%positive; 2%positive; 1%positive] registry_world_registered)
    as (w' & Hrun & Hreg & (Ht & Hg & _) & Hall); [simpl; lia|].
  destruct (Hall 1%positive first_registered eq_refl) as (i1 & Hi1 & H1).
  exists w', i1. split; [exact Hrun|]. split; [exact Hreg|].
  split; [exact Hg|]. split; [exact Ht|]. split; [exact Hi1|exact H1].
Defined.

Lemma shared_registry_world_registered :
  registry shared_registry_world [3%positive; 2%positive; 1%positive].
Proof.
  split; [reflexivity|]. split.
  - apply (bool_decide_unpack _). vm_compute. exact I.
  - simpl. repeat split; eexists; (split; [vm_compute; reflexivity|split; reflexivity]).
Qed.

Lemma shared_registry_world_swept (x : InstancePtr) (i : ObjectInstance) :
  elem_of x [3%positive; 2%positive; 1%positive] ->
  instances shared_registry_world !! x = Some i -> swept_by_gc all_dying i = true ->
  exists p g, m_ptr i = Some p /\ object_qdata shared_registry_world !! p = Some x /\
              gobjects shared_registry_world !! p = Some g /\ 1 < ref_count g.
Proof.
  rewrite !elem_of_cons. intros [->|[->|[->|H]]]; [| | |inversion H].
  - intros [= <-]. discriminate.
  - intros [= <-] _. exists 6%positive, (mkGObject 2 7%positive ∅ ∅).
    split; [reflexivity|]. split; [reflexivity|]. split; [reflexivity|]. simpl. lia.
  - intros [= <-]. discriminate.
Qed.

Lemma weak_pointer_sweep_disassociates_witness :
  exists w' i2 i3 g6,
    update_heap_wrapper_weak_pointers all_dying 3 shared_registry_world = Some (Done w') /\
    registry w' [3%positive; 1%positive] /\
    instances w' !! 2%positive = Some i2 /\
    i2 = forget_link (disassociated second_registered) /\
    instances w' !! 3%positive = Some i3 /\
    forget_link i3 = forget_link third_registered /\
    gobjects w' !! 6%positive = Some g6 /\ ref_count g6 = 1.
Proof.
  destruct (weak_pointer_sweep_disassociates all_dying 3 shared_registry_world
              [3%positive; 2%positive; 1%positive] shared_registry_world_registered)
    as (w' & Hrun & Hreg & Hall & Hrefs);
    [simpl; lia|reflexivity|exact shared_registry_world_swept|].
  destruct (Hall 2%positive second_registered eq_refl) as (i2 & Hi2 & H2).
  destruct (Hall 3%positive third_registered eq_refl) as (i3 & Hi3 & H3).
  destruct (Hrefs 2%positive second_registered 6%positive (mkGObject 2 7%positive ∅ ∅))
    as (g6 & Hg6 & Hc6 & _);
    [apply (bool_decide_unpack _); vm_compute; exact I
    |reflexivity|reflexivity|reflexivity|reflexivity|].
  exists w', i2, i3, g6. split; [exact Hrun|]. split; [exact Hreg|].
  split; [exact Hi2|]. split; [exact H2|]. split; [exact Hi3|]. split; [exact H3|].
  split; [exact Hg6|exact Hc6].
Defined.

Lemma dispose_notify_unregisters_witness :
  exists w' i',
    gobj_dispose_notify 2%positive registry_world = Done w' /\
    registry w' [3%positive; 1%positive] /\
    instances w' !! 2%positive = Some i' /\ m_gobj_disposed i' = true /\ unlinked i'.
Proof.
  destruct (dispose_notify_unregisters registry_world [3%positive] 2%positive [1%positive]
              registry_world_registered)
    as (w' & i' & H1 & H2 & H3 & H4 & H5 & _).
  exists w', i'. split; [exact H1|]. split; [exact H2|]. split; [exact H3|].
  split; [exact H4|exact H5].
Defined.

Lemma dispose_notify_disables_accessors_witness :
  exists w1 w2 w3,
    gobj_dispose_notify 2%positive registry_world = Done w1 /\
    prop_getter_impl example_types example_marshaller obliging_context 2%positive
      "label" JSUndefined w1 = Done (true, JSUndefined, w2) /\
    prop_setter_impl example_types example_marshaller obliging_context 2%positive
      "label" (JSString "go") w1 = Done (true, w3) /\
    gobjects w2 = gobjects registry_world /\ gobjects w3 = gobjects registry_world.
Proof.
  pose (w1 := match gobj_dispose_notify 2%positive registry_world with
              | Done w => w
              | Abort _ => registry_world
              end).
  assert (E : gobj_dispose_notify 2%positive registry_world = Done w1)
    by (vm_compute; reflexivity).
  destruct (dispose_notify_disables_accessors example_types example_marshaller
              obliging_context 2%positive "label" (JSString "go") JSUndefined
              registry_world w1 E) as (_ & _ & w2 & w3 & H1 & H2 & H3 & H4).
  exists w1, w2, w3. split; [exact E|]. split; [exact H1|]. split; [exact H2|].
  split; [exact H3|exact H4].
Defined.

Lemma disposed_instance_is_inert_witness :
  exists m1 m5,
    prop_getter_impl example_types example_marshaller obliging_context 9%positive
      "label" JSUndefined registry_world
      = Done (true, JSUndefined, emit_event (Log_g_critical m1) registry_world) /\
    emit_impl example_types example_marshaller 9%positive [JSString "clicked"]
      JSUndefined registry_world
      = Done (true, JSUndefined, emit_event (Log_g_critical m5) registry_world).
Proof.
  destruct (disposed_instance_is_inert 1 example_types example_marshaller
              obliging_context 9%positive "label" (JSString "go") JSUndefined
              [JSString "clicked"] registry_world disposed_instance eq_refl eq_refl)
    as (m1 & m2 & m3 & m4 & m5 & H1 & _ & _ & _ & H5).
  exists m1, m5. split; [exact H1|exact H5].
Defined.

Lemma toggle_up_then_down_witness :
  exists w1 w2,
    toggle_up 2%positive registry_world = Done w1 /\
    toggle_down 2%positive w1 = Done w2 /\
    instances w2 = instances registry_world /\
    trace w2 = [Call_schedule_gc].
Proof.
  destruct (toggle_up_then_down registry_world 2%positive second_registered
              eq_refl eq_refl eq_refl)
    as (w1 & w2 & i1 & H1 & _ & _ & _ & H2 & H3 & H4).
  exists w1, w2. split; [exact H1|]. split; [exact H2|]. split; [exact H3|exact H4].
Defined.

Lemma toggles_are_idempotent_witness :
  exists w1,
    toggle_up 2%positive registry_world = Done w1 /\
    toggle_up 2%positive w1 = Done w1.
Proof.
  pose (w1 := match toggle_up 2%positive registry_world with
              | Done w => w
              | Abort _ => registry_world
              end).
  assert (E : toggle_up 2%positive registry_world = Done w1) by (vm_compute; reflexivity).
  exists w1. split; [exact E|].
  apply (proj1 (toggles_are_idempotent registry_world w1 2%positive) E).
Defined.

Lemma drained_up_queued_world :
  gjs_object_clear_toggles up_queued_world = Done (world_with_queue []).
Proof.
  assert (E : toggle_handler 5%positive ToggleQueue.UP
                (with_toggle_queue (ToggleQueue.mk [] false) up_queued_world)
              = Done (world_with_queue [])) by (vm_compute; reflexivity).
  rewrite clear_toggles_unfold.
  change (ToggleQueue.handle_toggle (toggle_queue up_queued_world))
    with (Some (ToggleQueue.mkItem 5%positive ToggleQueue.UP, ToggleQueue.mk [] false)).
  cbv beta iota. cbn [ToggleQueue.gobj ToggleQueue.direction]. rewrite E.
  rewrite clear_toggles_unfold. reflexivity.
Qed.

Lemma clear_toggles_drains_witness :
  exists w',
    gjs_object_clear_toggles up_queued_world = Done w' /\
    ToggleQueue.q (toggle_queue w') = [] /\
    gjs_object_clear_toggles w' = Done w'.
Proof.
  exists (world_with_queue []). split; [exact drained_up_queued_world|].
  destruct (clear_toggles_drains up_queued_world (world_with_queue [])
              drained_up_queued_world) as (H1 & _ & H3).
  split; [exact H1|exact H3].
Defined.

Lemma deferred_toggle_equals_inline_witness :
  exists wq,
    wrapped_gobj_toggle_notify false 5%positive true (world_with_queue []) = Done wq /\
    gjs_object_clear_toggles wq
      = wrapped_gobj_toggle_notify true 5%positive true (world_with_queue []).
Proof.
  destruct (deferred_toggle_equals_inline 5%positive true (world_with_queue [])
              eq_refl eq_refl) as (wq & H1 & _ & _ & H2).
  exists wq. split; [exact H1|exact H2].
Defined.

Lemma ensure_uses_toggle_ref_once_witness :
  exists w1 i1,
    ensure_uses_toggle_ref 2%positive shared_registry_world = Done w1 /\
    instances w1 !! 2%positive = Some i1 /\
    m_uses_toggle_ref i1 = true /\ wrapper_is_rooted i1 = true /\
    gobjects w1 !! 6%positive = Some (mkGObject 2 7%positive ∅ ∅) /\
    ensure_uses_toggle_ref 2%positive w1 = Done w1.
Proof.
  destruct (ensure_uses_toggle_ref_once shared_registry_world 2%positive second_registered
              6%positive (mkGObject 2 7%positive ∅ ∅)
              eq_refl eq_refl eq_refl eq_refl eq_refl)
    as (w1 & i1 & H1 & H2 & H3 & H4 & _ & _ & H5 & _ & H6); [simpl; lia|].
  exists w1, i1. split; [exact H1|]. split; [exact H2|]. split; [exact H3|].
  split; [exact H4|]. split; [exact H5|exact H6].
Defined.

Lemma associate_closure_adds_witness :
  exists w1 i1,
    associate_closure 1%positive 43%positive registry_world = Done w1 /\
    instances w1 !! 1%positive = Some i1 /\
    m_closures i1 = [43%positive; 41%positive; 42%positive] /\
    associate_closure 1%positive 43%positive w1
      = Abort (AssertFailed "This closure was already associated with this object").
Proof.
  destruct (associate_closure_adds registry_world 1%positive first_registered 43%positive
              eq_refl (or_introl eq_refl))
    as (w1 & i1 & H1 & H2 & H3 & _ & _ & H4).
  - apply (bool_decide_unpack _). vm_compute. exact I.
  - exists w1, i1. split; [exact H1|]. split; [exact H2|]. split; [exact H3|exact H4].
Defined.

Lemma closures_invalidated_once_witness :
  exists w',
    invalidate_all_closures 1%positive registry_world = Done w' /\
    trace w' = [Call_g_closure_invalidate 41%positive;
                Call_g_closure_invalidate 42%positive] /\
    instances w' !! 1%positive = Some (with_closures [] first_registered).
Proof.
  destruct (closures_invalidated_once registry_world 1%positive first_registered eq_refl)
    as (w' & invalidated & H1 & H2 & _ & _ & H3 & H4).
  exists w'. split; [exact H1|]. split.
  - rewrite H2, H3; [reflexivity|]. apply (bool_decide_unpack _). vm_compute. exact I.
  - rewrite H4. reflexivity.
Defined.

Lemma disassociate_forgets_wrapper_witness :
  exists w',
    disassociate_js_gobject 1%positive (world_with_queue []) = Done w' /\
    for_gobject 5%positive w' = Done (None, w').
Proof.
  destruct (disassociate_forgets_wrapper (world_with_queue []) 1%positive rooted_instance
              5%positive eq_refl eq_refl eq_refl) as (w' & H1 & H2 & _).
  exists w'. split; [exact H1|exact H2].
Defined.

Lemma associate_js_gobject_registers_at_head_witness :
  exists w' i',
    associate_js_gobject 4%positive 204%positive 8%positive registry_world = Done w' /\
    registry w' [4%positive; 3%positive; 2%positive; 1%positive] /\
    instances w' !! 4%positive = Some i' /\ m_ptr i' = Some 8%positive /\
    for_gobject 8%positive w' = Done (Some 4%positive, w') /\
    trace w' = [Call_JS_AddWeakPointerCompartmentCallback;
                Call_g_object_weak_ref 8%positive 4%positive].
Proof.
  destruct (associate_js_gobject_registers_at_head registry_world
              [3%positive; 2%positive; 1%positive] 4%positive new_instance
              204%positive 8%positive registry_world_registered)
    as (w' & i' & H1 & H2 & H3 & H4 & _ & _ & H5 & _ & H6 & _).
  - apply (bool_decide_unpack _). vm_compute. exact I.
  - reflexivity.
  - reflexivity.
  - reflexivity.
  - exists w', i'. split; [exact H1|]. split; [exact H2|]. split; [exact H3|].
    split; [exact H4|]. split; [exact H5|exact H6].
Defined.

Lemma resurfaced_object_reported_once_witness :
  exists w1,
    for_gobject 5%positive resurfacing_world = Done (Some 1%positive, w1) /\
    trace w1 = [Log_g_critical "Object resurfaced after the JS wrapper was finalized"] /\
    for_gobject 5%positive w1 = Done (Some 1%positive, w1).
Proof.
  destruct (resurfaced_object_reported_once resurfacing_world 5%positive 1%positive
              outlived_instance eq_refl eq_refl eq_refl eq_refl) as (_ & H).
  destruct (H eq_refl) as (w1 & H1 & H2 & _ & H3).
  exists w1. split; [exact H1|]. split; [exact H2|exact H3].
Defined.

Lemma find_vfunc_on_parents_nearest_witness :
  find_vfunc_on_parents button_info "show" = (Some (mkVFunc "show" "Widget"), true).
Proof.
  destruct (find_vfunc_on_parents_nearest button_info "show") as (_ & _ & H).
  apply (H (mkVFunc "show" "Widget") [] widget_info []); try reflexivity.
  intros a Ha. destruct Ha.
Defined.

Lemma find_param_spec_cached_witness :
  exists w1,
    find_param_spec_from_id example_types obliging_context 11%positive "label" button_world
      = Done (Some label_pspec, w1) /\
    find_param_spec_from_id overriding_types obliging_context 11%positive "label" w1
      = Done (Some label_pspec, w1).
Proof.
  pose (w1 := match find_param_spec_from_id example_types obliging_context 11%positive
                      "label" button_world with
              | Done (_, w) => w
              | Abort _ => button_world
              end).
  assert (E : find_param_spec_from_id example_types obliging_context 11%positive
                "label" button_world = Done (Some label_pspec, w1))
    by (vm_compute; reflexivity).
  exists w1. split; [exact E|].
  apply (find_param_spec_cached example_types overriding_types obliging_context
           obliging_context 11%positive "label" button_world w1 label_pspec E).
Defined.

Lemma property_set_then_get_witness :
  exists w2 w3,
    prop_setter_impl example_types example_marshaller obliging_context 1%positive
      "label" (JSString "go") button_world = Done (true, w2) /\
    prop_getter_impl overriding_types example_marshaller obliging_context 1%positive
      "label" JSUndefined (button_labelled (GVString "Go") w2)
      = Done (true, JSString "Go", w3).
Proof.
  pose (w1 := match find_param_spec_from_id example_types obliging_context 11%positive
                      "label" button_world with
              | Done (_, w) => w
              | Abort _ => button_world
              end).
  assert (E : find_param_spec_from_id example_types obliging_context 11%positive
                "label" button_world = Done (Some label_pspec, w1))
    by (vm_compute; reflexivity).
  pose (w2 := match prop_setter_impl example_types example_marshaller obliging_context
                      1%positive "label" (JSString "go") button_world with
              | Done (_, w) => w
              | Abort _ => button_world
              end).
  assert (E2 : prop_setter_impl example_types example_marshaller obliging_context
                 1%positive "label" (JSString "go") button_world = Done (true, w2))
    by (vm_compute; reflexivity).
  destruct (property_set_then_get example_types overriding_types example_marshaller
              obliging_context obliging_context
              1%positive "label" (JSString "go") JSUndefined button_world w1
              button_instance 5%positive label_pspec (GVString "go")
              eq_refl eq_refl eq_refl E eq_refl eq_refl eq_refl eq_refl)
    as (w2' & H1 & _ & H2).
  assert (Hw : w2' = w2) by congruence. subst w2'.
  exists w2. eexists. split; [exact E2|].
  apply (H2 (button_labelled (GVString "Go") w2) (GVString "Go"));
    vm_compute; reflexivity.
Defined.

Lemma emit_calls_emitv_iff_converted_witness :
  (exists ok rv w' evs,
     emit_impl example_types example_marshaller 1%positive
       [JSString "clicked"; JSNumber 1; JSString "x"] JSUndefined button_world
       = Done (ok, rv, w') /\
     trace w' = trace button_world ++ evs /\
     List.filter is_emitv evs
       = [Call_g_signal_emitv (Some 5%positive) 1%positive
            [GVObject (Some 5%positive); GVInt 1; GVString "x"]]) /\
  (exists rv w' evs,
     emit_impl example_types example_marshaller 1%positive
       [JSString "clicked"; JSNumber 1; JSNull] JSUndefined button_world
       = Done (false, rv, w') /\
     trace w' = trace button_world ++ evs /\
     List.filter is_emitv evs = []).
Proof.
  split.
  - destruct (emit_calls_emitv_iff_converted example_types example_marshaller 1%positive
                [JSString "clicked"; JSNumber 1; JSString "x"] JSUndefined button_world
                button_instance "clicked" 1%positive 0
                eq_refl eq_refl eq_refl eq_refl eq_refl)
      as (ok & rv & w' & evs & H1 & H2 & H3).
    exists ok, rv, w', evs. split; [exact H1|]. split; [exact H2|exact H3].
  - destruct (emit_calls_emitv_iff_converted example_types example_marshaller 1%positive
                [JSString "clicked"; JSNumber 1; JSNull] JSUndefined button_world
                button_instance "clicked" 1%positive 0
                eq_refl eq_refl eq_refl eq_refl eq_refl)
      as (ok & rv & w' & evs & H1 & H2 & H3 & H4).
    exists rv, w', evs. rewrite H4 in H1. split; [exact H1|]. split; [exact H2|exact H3].
Defined.

Lemma resolve_defines_one_or_nothing_witness :
  exists w' p,
    resolve_impl example_types obliging_context 11%positive 300%positive
      "label" "label" button_world = Done (Some true, w') /\
    own_properties 300%positive w' = <[ "label" := p ]> (own_properties 300%positive button_world) /\
    instances w' = instances button_world.
Proof.
  pose (w' := match resolve_impl example_types obliging_context 11%positive 300%positive
                      "label" "label" button_world with
              | Done (_, w) => w
              | Abort _ => button_world
              end).
  assert (E : resolve_impl example_types obliging_context 11%positive 300%positive
                "label" "label" button_world = Done (Some true, w'))
    by (vm_compute; reflexivity).
  destruct (resolve_defines_one_or_nothing example_types obliging_context 11%positive
              300%positive "label" "label" button_world w' (Some true) E)
    as (Hi & _ & _ & p & Hp).
  exists w', p. split; [exact E|]. split; [exact Hp|exact Hi].
Defined.

Lemma property_or_field_resolves_once_witness :
  exists w',
    resolve_impl example_types obliging_context 11%positive 300%positive
      "flags" "flags" button_world = Done (Some true, w') /\
    resolve_impl example_types obliging_context 11%positive 300%positive
      "flags" "flags" w' = Done (Some false, w').
Proof.
  pose (w' := match resolve_impl example_types obliging_context 11%positive 300%positive
                      "flags" "flags" button_world with
              | Done (_, w) => w
              | Abort _ => button_world
              end).
  assert (E : resolve_impl example_types obliging_context 11%positive 300%positive
                "flags" "flags" button_world = Done (Some true, w'))
    by (vm_compute; reflexivity).
  exists w'. split; [exact E|].
  apply (property_or_field_resolves_once example_types obliging_context 11%positive
           300%positive "flags" button_world w'
           (mkPrototype 11%positive (Some button_info) ∅ ∅) button_info
           eq_refl eq_refl eq_refl); [|exact E].
  right. exists flags_field. reflexivity.
Defined.

Lemma simple_field_resolves_then_reads_witness :
  exists w',
    resolve_impl example_types obliging_context 11%positive 300%positive
      "flags" "flags" button_world = Done (Some true, w') /\
    field_getter_impl 1 example_types example_marshaller 1%positive "flags" JSUndefined w'
      = Done (true, JSNumber 3,
              emit_event (Call_g_field_info_get_field (Some 5%positive) "flags") w').
Proof.
  destruct (simple_field_resolves_then_reads example_types example_marshaller
              obliging_context 11%positive 300%positive "flags" button_world
              (mkPrototype 11%positive (Some button_info) ∅ ∅) button_info flags_field
              eq_refl eq_refl eq_refl eq_refl eq_refl eq_refl eq_refl eq_refl eq_refl)
    as (w' & H1 & Hg & Hi & H2).
  exists w'. split; [exact H1|].
  apply (H2 0%nat 1%positive button_instance JSUndefined 5%positive
           (mkGObject 1 11%positive
              {[ "label" := GVString "ok"; "name" := GVString "b1";
                 "overridden" := GVInt 0 ]}
              {[ "flags" := GVInt 3; "serial" := GVInt 42 ]}) (GVInt 3) (JSNumber 3));
    try reflexivity.
  - rewrite Hi. reflexivity.
  - rewrite Hg. reflexivity.
Defined.

Lemma props_to_g_parameters_aligned_witness :
  exists w',
    props_to_g_parameters example_types example_marshaller obliging_context label_hash
      11%positive [JSObject 400%positive] [] [] button_world
      = Done (true, ["label"], [GVString "go"], w') /\
    gobjects w' = gobjects button_world.
Proof.
  pose (w' := match props_to_g_parameters example_types example_marshaller
                      obliging_context label_hash 11%positive [JSObject 400%positive]
                      [] [] button_world with
              | Done (_, w) => w
              | Abort _ => button_world
              end).
  assert (E : props_to_g_parameters example_types example_marshaller obliging_context
                label_hash 11%positive [JSObject 400%positive] [] [] button_world
              = Done (true, ["label"], [GVString "go"], w'))
    by (vm_compute; reflexivity).
  exists w'. split; [exact E|].
  destruct (props_to_g_parameters_aligned example_types example_marshaller
              obliging_context label_hash 11%positive 400%positive []
              [(JSID_String "label", Some (JSString "go"))] [] [] button_world w'
              true ["label"] [GVString "go"] eq_refl E)
    as (an & av & _ & _ & _ & _ & _ & _ & Hg).
  exact Hg.
Defined.

Lemma inherited_field_is_read_through_parents_witness :
  lookup_cached_field_info 2 example_types 11%positive "serial" inherited_world
    = Done serial_field /\
  field_getter_impl 2 example_types example_marshaller 1%positive "serial" JSUndefined
    inherited_world
    = Done (true, JSNumber 42,
            emit_event (Call_g_field_info_get_field (Some 5%positive) "serial")
              inherited_world).
Proof.
  destruct (inherited_field_is_read_through_parents 2 example_types example_marshaller
              11%positive 10%positive [10%positive] "serial" inherited_world
              (mkPrototype 10%positive (Some widget_info) ∅ {[ "serial" := serial_field ]})
              widget_info serial_field) as (H1 & H2).
  - split; [|reflexivity].
    exists (mkPrototype 11%positive (Some button_info) ∅ ∅).
    split; [reflexivity|]. split; [eexists; reflexivity|].
    right. exists button_info, widget_info. repeat split.
  - reflexivity.
  - reflexivity.
  - reflexivity.
  - simpl. lia.
  - split; [exact H1|].
    apply (H2 1%positive button_instance JSUndefined 5%positive
             (mkGObject 1 11%positive
                {[ "label" := GVString "ok"; "name" := GVString "b1";
                   "overridden" := GVInt 0 ]}
                {[ "flags" := GVInt 3; "serial" := GVInt 42 ]}) (GVInt 42) (JSNumber 42));
      reflexivity.
Defined.
